(** * Admission queue and forecast cache of the GraphCast backend

    A shallow embedding of
    - [ai-backend/graphcast/request_queue.py] (module [RequestQueue]),
    - [ai-backend/graphcast/cache_manager.py] and
      [ai-backend/graphcast/data_models.py] (module [ForecastCache]),
    together with the properties the design document states about them.

    Conventions.  Python exceptions are values of [exn]; a call that may
    raise returns an [outcome].  Coroutines are cut at their suspension
    points: every piece of code that runs without yielding to the event loop
    is one transition of the machine.  Wall-clock readings are integers
    (microseconds); durations reported in milliseconds are rationals. *)

From Stdlib Require Import ZArith QArith Lia.
From stdpp Require Import gmap strings list pretty sorting.

(** ** Exceptions and outcomes *)

Inductive exn :=
| QueueFull            (* asyncio.QueueFull *)
| ZeroDivisionError
| ValueError
| InvalidStateError    (* asyncio.InvalidStateError *)
| IndexError
| OSError
| DecodeError          (* json.JSONDecodeError, KeyError, TypeError ... while loading *)
| TaskError (msg : string).

Inductive outcome (A : Type) :=
| Ret (a : A)
| Raise (e : exn).
Arguments Ret {A} a.
Arguments Raise {A} e.

(** ** heapq, as used by [asyncio.PriorityQueue] *)

Module heapq.
Section heapq.
Context {A : Type} (lt : A -> A -> bool).

(** The [while pos > startpos] loop of [_siftdown]: returns the list after
    the parents were moved down and the position where [newitem] goes.
    [pos] decreases at every turn, so [pos] turns are enough. *)
Fixpoint _siftdown_loop (fuel : nat) (heap : list A) (startpos pos : nat)
    (newitem : A) : list A * nat :=
  match fuel with
  | O => (heap, pos)
  | S fuel' =>
      if decide (startpos < pos)%nat then
        let parentpos := Nat.div2 (pos - 1) in
        match heap !! parentpos with
        | Some parent =>
            if lt newitem parent
            then _siftdown_loop fuel' (<[pos := parent]> heap) startpos parentpos newitem
            else (heap, pos)
        | None => (heap, pos)
        end
      else (heap, pos)
  end.

Definition _siftdown (heap : list A) (startpos pos : nat) : list A :=
  match heap !! pos with
  | Some newitem =>
      let '(h, p) := _siftdown_loop pos heap startpos pos newitem in
      <[p := newitem]> h
  | None => heap
  end.

(** The [while childpos < endpos] loop of [_siftup]: bubbles the smaller
    child up until a leaf is reached. *)
Fixpoint _siftup_loop (fuel : nat) (heap : list A) (endpos pos : nat)
    : list A * nat :=
  match fuel with
  | O => (heap, pos)
  | S fuel' =>
      let childpos := (2 * pos + 1)%nat in
      if decide (childpos < endpos)%nat then
        let rightpos := (childpos + 1)%nat in
        let childpos :=
          if decide (rightpos < endpos)%nat then
            match heap !! childpos, heap !! rightpos with
            | Some l, Some r => if negb (lt l r) then rightpos else childpos
            | _, _ => childpos
            end
          else childpos in
        match heap !! childpos with
        | Some c => _siftup_loop fuel' (<[pos := c]> heap) endpos childpos
        | None => (heap, pos)
        end
      else (heap, pos)
  end.

Definition _siftup (heap : list A) (pos : nat) : list A :=
  match heap !! pos with
  | Some newitem =>
      let endpos := length heap in
      let '(h, p) := _siftup_loop endpos heap endpos pos in
      _siftdown (<[p := newitem]> h) pos p
  | None => heap
  end.

Definition heappush (heap : list A) (item : A) : list A :=
  _siftdown (heap ++ [item]) 0 (length heap).

(** [heappop] returns the popped item and the remaining heap; on an empty
    heap Python raises [IndexError]. *)
Definition heappop (heap : list A) : outcome (A * list A) :=
  match last heap with
  | None => Raise IndexError
  | Some lastelt =>
      let heap := removelast heap in
      match heap with
      | [] => Ret (lastelt, [])
      | returnitem :: _ => Ret (returnitem, _siftup (<[0%nat := lastelt]> heap) 0)
      end
  end.

(** The heap property of the array: no item is less than its parent. *)
Definition parent (i : nat) : nat := Nat.div2 (i - 1).

Definition ordered_at (heap : list A) (i : nat) : Prop :=
  forall c p, heap !! i = Some c -> heap !! parent i = Some p -> lt c p = false.

Definition is_heap (heap : list A) : Prop :=
  forall i, (0 < i)%nat -> ordered_at heap i.
End heapq.
End heapq.

(** ** The admission queue: [request_queue.py] *)

Module RequestQueue.

Inductive RequestPriority := HIGH | NORMAL | LOW.

Definition priority_value (p : RequestPriority) : Z :=
  match p with HIGH => 1 | NORMAL => 2 | LOW => 3 end.

(** What a task does when it is awaited is not the queue's business: the
    machine receives it with the completion event.  A task returns, raises
    an [Exception], or raises a [BaseException] that is no [Exception]:
    [asyncio.CancelledError] (from Python 3.8 on), which a task raises when
    something it awaits was cancelled.  The manager itself cancels no
    executor task. *)
Inductive task_outcome :=
| Returns (result : string)
| Throws (msg : string)
| ThrowsCancelled.

(** [asyncio.Future].  [fut_sets] counts the calls of [set_result] and
    [set_exception] that went through; it is instrumentation and no code
    reads it. *)
Inductive future_state :=
| PENDING
| FINISHED (result : string)
| FAILED (e : exn)
| CANCELLED.

Record Future := mkFuture {
  fut_state : future_state;
  fut_sets : nat;
}.

Definition new_future : Future := mkFuture PENDING 0.

Definition done (f : Future) : bool :=
  match fut_state f with PENDING => false | _ => true end.

Definition set_result (result : string) (f : Future) : outcome Future :=
  if done f then Raise InvalidStateError
  else Ret (mkFuture (FINISHED result) (S (fut_sets f))).

Definition set_exception (e : exn) (f : Future) : outcome Future :=
  if done f then Raise InvalidStateError
  else Ret (mkFuture (FAILED e) (S (fut_sets f))).

(** [Future.cancel], which [asyncio.wait_for] calls when its deadline passes. *)
Definition cancel (f : Future) : Future :=
  if done f then f else mkFuture CANCELLED (fut_sets f).

(** [QueuedRequest].  [task], [args] and [kwargs] are opaque to the queue and
    left out; [queued_at] is the reading of [time.time()], in microseconds;
    [future] is the key of the request's future in the store. *)
Record QueuedRequest := mkQueuedRequest {
  request_id : string;
  priority : RequestPriority;
  queued_at : Z;
  future : nat;
}.

#[global] Instance RequestPriority_eq_dec : EqDecision RequestPriority.
Proof. solve_decision. Defined.
#[global] Instance QueuedRequest_eq_dec : EqDecision QueuedRequest.
Proof. solve_decision. Defined.

(** [QueuedRequest.__lt__] *)
Definition QueuedRequest_lt (self other : QueuedRequest) : bool :=
  if negb (priority_value (priority self) =? priority_value (priority other))%Z
  then (priority_value (priority self) <? priority_value (priority other))%Z
  else (queued_at self <? queued_at other)%Z.

(** [RequestQueueManager].  [queue] is the heap array of the
    [asyncio.PriorityQueue]; [sem_value], [sem_waiters] and [sem_granted] are
    the [asyncio.Semaphore]: its counter, the executors suspended in
    [acquire], and those among them that [release] has already handed a slot
    to and that have not run again yet.  [ready] holds the executor tasks the
    worker created with [create_task] and that have not run yet, in creation
    order; [executing] the requests whose task is being awaited.
    [log_started] records the order in which tasks were started; it is
    instrumentation.  [workers_waiting] and [workers_resuming] are the tasks
    that run [_process_queue] and have not ended, [self._worker_task] being
    the latest of them: those that wait in [queue.get()] or have not run
    yet, and those whose [get()] delivered a request after [_running] was
    cleared and that have not read [_running] since. *)
Record state := mkState {
  max_concurrent : Z;
  max_queue_size : Z;
  queue : list QueuedRequest;
  active_requests : Z;
  sem_value : Z;
  sem_waiters : list QueuedRequest;
  sem_granted : list QueuedRequest;
  ready : list QueuedRequest;
  executing : list QueuedRequest;
  futures : gmap nat Future;
  next_future : nat;
  total_requests : Z;
  completed_requests : Z;
  failed_requests : Z;
  timeout_requests : Z;
  rejected_requests : Z;
  total_wait_time_ms : Q;
  total_execution_time_ms : Q;
  recent_execution_times : list Q;
  _running : bool;
  log_started : list QueuedRequest;
  workers_waiting : nat;
  workers_resuming : nat;
}.

(** [RequestQueueManager.__init__]; [asyncio.Semaphore] refuses a negative
    initial value with [ValueError]. *)
Definition initial (max_concurrent max_queue_size : Z) : state := {|
  max_concurrent := max_concurrent;
  max_queue_size := max_queue_size;
  queue := [];
  active_requests := 0;
  sem_value := max_concurrent;
  sem_waiters := [];
  sem_granted := [];
  ready := [];
  executing := [];
  futures := ∅;
  next_future := 0;
  total_requests := 0;
  completed_requests := 0;
  failed_requests := 0;
  timeout_requests := 0;
  rejected_requests := 0;
  total_wait_time_ms := 0;
  total_execution_time_ms := 0;
  recent_execution_times := [];
  _running := false;
  log_started := [];
  workers_waiting := 0;
  workers_resuming := 0;
|}.

Definition __init__ (max_concurrent max_queue_size : Z) : outcome state :=
  if (max_concurrent <? 0)%Z then Raise ValueError
  else Ret (initial max_concurrent max_queue_size).

(** [asyncio.Queue.qsize] and [asyncio.Queue.full]: a queue whose [maxsize]
    is zero or negative is never full. *)
Definition qsize (s : state) : Z := Z.of_nat (length (queue s)).

Definition full (s : state) : bool :=
  if (max_queue_size s <=? 0)%Z then false
  else (max_queue_size s <=? qsize s)%Z.

Definition Qsum (l : list Q) : Q := foldr Qplus 0%Q l.

(** [get_estimated_wait_time] *)
Definition get_estimated_wait_time (s : state) : outcome Q :=
  let queue_size := qsize s in
  if (queue_size =? 0)%Z then Ret 0%Q
  else
    let avg_execution_time :=
      match recent_execution_times s with
      | [] => 5000%Q
      | _ => (Qsum (recent_execution_times s)
              / inject_Z (Z.of_nat (length (recent_execution_times s))))%Q
      end in
    if (max_concurrent s =? 0)%Z then Raise ZeroDivisionError
    else Ret ((inject_Z queue_size / inject_Z (max_concurrent s)) * avg_execution_time)%Q.

(** Attribute assignment, [self.x = v], one function per attribute that is
    ever assigned after construction. *)
Definition set_queue (v : list QueuedRequest) (s : state) : state :=
  mkState (max_concurrent s) (max_queue_size s) v (active_requests s)
    (sem_value s) (sem_waiters s) (sem_granted s) (ready s) (executing s)
    (futures s) (next_future s) (total_requests s) (completed_requests s)
    (failed_requests s) (timeout_requests s) (rejected_requests s)
    (total_wait_time_ms s) (total_execution_time_ms s)
    (recent_execution_times s) (_running s) (log_started s)
    (workers_waiting s) (workers_resuming s).
Definition set_active_requests (v : Z) (s : state) : state :=
  mkState (max_concurrent s) (max_queue_size s) (queue s) v (sem_value s)
    (sem_waiters s) (sem_granted s) (ready s) (executing s) (futures s)
    (next_future s) (total_requests s) (completed_requests s)
    (failed_requests s) (timeout_requests s) (rejected_requests s)
    (total_wait_time_ms s) (total_execution_time_ms s)
    (recent_execution_times s) (_running s) (log_started s)
    (workers_waiting s) (workers_resuming s).
Definition set_sem_value (v : Z) (s : state) : state :=
  mkState (max_concurrent s) (max_queue_size s) (queue s) (active_requests s)
    v (sem_waiters s) (sem_granted s) (ready s) (executing s) (futures s)
    (next_future s) (total_requests s) (completed_requests s)
    (failed_requests s) (timeout_requests s) (rejected_requests s)
    (total_wait_time_ms s) (total_execution_time_ms s)
    (recent_execution_times s) (_running s) (log_started s)
    (workers_waiting s) (workers_resuming s).
Definition set_sem_waiters (v : list QueuedRequest) (s : state) : state :=
  mkState (max_concurrent s) (max_queue_size s) (queue s) (active_requests s)
    (sem_value s) v (sem_granted s) (ready s) (executing s) (futures s)
    (next_future s) (total_requests s) (completed_requests s)
    (failed_requests s) (timeout_requests s) (rejected_requests s)
    (total_wait_time_ms s) (total_execution_time_ms s)
    (recent_execution_times s) (_running s) (log_started s)
    (workers_waiting s) (workers_resuming s).
Definition set_sem_granted (v : list QueuedRequest) (s : state) : state :=
  mkState (max_concurrent s) (max_queue_size s) (queue s) (active_requests s)
    (sem_value s) (sem_waiters s) v (ready s) (executing s) (futures s)
    (next_future s) (total_requests s) (completed_requests s)
    (failed_requests s) (timeout_requests s) (rejected_requests s)
    (total_wait_time_ms s) (total_execution_time_ms s)
    (recent_execution_times s) (_running s) (log_started s)
    (workers_waiting s) (workers_resuming s).
Definition set_ready (v : list QueuedRequest) (s : state) : state :=
  mkState (max_concurrent s) (max_queue_size s) (queue s) (active_requests s)
    (sem_value s) (sem_waiters s) (sem_granted s) v (executing s) (futures s)
    (next_future s) (total_requests s) (completed_requests s)
    (failed_requests s) (timeout_requests s) (rejected_requests s)
    (total_wait_time_ms s) (total_execution_time_ms s)
    (recent_execution_times s) (_running s) (log_started s)
    (workers_waiting s) (workers_resuming s).
Definition set_executing (v : list QueuedRequest) (s : state) : state :=
  mkState (max_concurrent s) (max_queue_size s) (queue s) (active_requests s)
    (sem_value s) (sem_waiters s) (sem_granted s) (ready s) v (futures s)
    (next_future s) (total_requests s) (completed_requests s)
    (failed_requests s) (timeout_requests s) (rejected_requests s)
    (total_wait_time_ms s) (total_execution_time_ms s)
    (recent_execution_times s) (_running s) (log_started s)
    (workers_waiting s) (workers_resuming s).
Definition set_futures (v : gmap nat Future) (s : state) : state :=
  mkState (max_concurrent s) (max_queue_size s) (queue s) (active_requests s)
    (sem_value s) (sem_waiters s) (sem_granted s) (ready s) (executing s) v
    (next_future s) (total_requests s) (completed_requests s)
    (failed_requests s) (timeout_requests s) (rejected_requests s)
    (total_wait_time_ms s) (total_execution_time_ms s)
    (recent_execution_times s) (_running s) (log_started s)
    (workers_waiting s) (workers_resuming s).
Definition set_next_future (v : nat) (s : state) : state :=
  mkState (max_concurrent s) (max_queue_size s) (queue s) (active_requests s)
    (sem_value s) (sem_waiters s) (sem_granted s) (ready s) (executing s)
    (futures s) v (total_requests s) (completed_requests s)
    (failed_requests s) (timeout_requests s) (rejected_requests s)
    (total_wait_time_ms s) (total_execution_time_ms s)
    (recent_execution_times s) (_running s) (log_started s)
    (workers_waiting s) (workers_resuming s).
Definition set_total_requests (v : Z) (s : state) : state :=
  mkState (max_concurrent s) (max_queue_size s) (queue s) (active_requests s)
    (sem_value s) (sem_waiters s) (sem_granted s) (ready s) (executing s)
    (futures s) (next_future s) v (completed_requests s) (failed_requests s)
    (timeout_requests s) (rejected_requests s) (total_wait_time_ms s)
    (total_execution_time_ms s) (recent_execution_times s) (_running s)
    (log_started s)
    (workers_waiting s) (workers_resuming s).
Definition set_completed_requests (v : Z) (s : state) : state :=
  mkState (max_concurrent s) (max_queue_size s) (queue s) (active_requests s)
    (sem_value s) (sem_waiters s) (sem_granted s) (ready s) (executing s)
    (futures s) (next_future s) (total_requests s) v (failed_requests s)
    (timeout_requests s) (rejected_requests s) (total_wait_time_ms s)
    (total_execution_time_ms s) (recent_execution_times s) (_running s)
    (log_started s)
    (workers_waiting s) (workers_resuming s).
Definition set_failed_requests (v : Z) (s : state) : state :=
  mkState (max_concurrent s) (max_queue_size s) (queue s) (active_requests s)
    (sem_value s) (sem_waiters s) (sem_granted s) (ready s) (executing s)
    (futures s) (next_future s) (total_requests s) (completed_requests s) v
    (timeout_requests s) (rejected_requests s) (total_wait_time_ms s)
    (total_execution_time_ms s) (recent_execution_times s) (_running s)
    (log_started s)
    (workers_waiting s) (workers_resuming s).
Definition set_timeout_requests (v : Z) (s : state) : state :=
  mkState (max_concurrent s) (max_queue_size s) (queue s) (active_requests s)
    (sem_value s) (sem_waiters s) (sem_granted s) (ready s) (executing s)
    (futures s) (next_future s) (total_requests s) (completed_requests s)
    (failed_requests s) v (rejected_requests s) (total_wait_time_ms s)
    (total_execution_time_ms s) (recent_execution_times s) (_running s)
    (log_started s)
    (workers_waiting s) (workers_resuming s).
Definition set_rejected_requests (v : Z) (s : state) : state :=
  mkState (max_concurrent s) (max_queue_size s) (queue s) (active_requests s)
    (sem_value s) (sem_waiters s) (sem_granted s) (ready s) (executing s)
    (futures s) (next_future s) (total_requests s) (completed_requests s)
    (failed_requests s) (timeout_requests s) v (total_wait_time_ms s)
    (total_execution_time_ms s) (recent_execution_times s) (_running s)
    (log_started s)
    (workers_waiting s) (workers_resuming s).
Definition set_total_wait_time_ms (v : Q) (s : state) : state :=
  mkState (max_concurrent s) (max_queue_size s) (queue s) (active_requests s)
    (sem_value s) (sem_waiters s) (sem_granted s) (ready s) (executing s)
    (futures s) (next_future s) (total_requests s) (completed_requests s)
    (failed_requests s) (timeout_requests s) (rejected_requests s) v
    (total_execution_time_ms s) (recent_execution_times s) (_running s)
    (log_started s)
    (workers_waiting s) (workers_resuming s).
Definition set_total_execution_time_ms (v : Q) (s : state) : state :=
  mkState (max_concurrent s) (max_queue_size s) (queue s) (active_requests s)
    (sem_value s) (sem_waiters s) (sem_granted s) (ready s) (executing s)
    (futures s) (next_future s) (total_requests s) (completed_requests s)
    (failed_requests s) (timeout_requests s) (rejected_requests s)
    (total_wait_time_ms s) v (recent_execution_times s) (_running s)
    (log_started s)
    (workers_waiting s) (workers_resuming s).
Definition set_recent_execution_times (v : list Q) (s : state) : state :=
  mkState (max_concurrent s) (max_queue_size s) (queue s) (active_requests s)
    (sem_value s) (sem_waiters s) (sem_granted s) (ready s) (executing s)
    (futures s) (next_future s) (total_requests s) (completed_requests s)
    (failed_requests s) (timeout_requests s) (rejected_requests s)
    (total_wait_time_ms s) (total_execution_time_ms s) v (_running s)
    (log_started s)
    (workers_waiting s) (workers_resuming s).
Definition set__running (v : bool) (s : state) : state :=
  mkState (max_concurrent s) (max_queue_size s) (queue s) (active_requests s)
    (sem_value s) (sem_waiters s) (sem_granted s) (ready s) (executing s)
    (futures s) (next_future s) (total_requests s) (completed_requests s)
    (failed_requests s) (timeout_requests s) (rejected_requests s)
    (total_wait_time_ms s) (total_execution_time_ms s)
    (recent_execution_times s) v (log_started s)
    (workers_waiting s) (workers_resuming s).
Definition set_log_started (v : list QueuedRequest) (s : state) : state :=
  mkState (max_concurrent s) (max_queue_size s) (queue s) (active_requests s)
    (sem_value s) (sem_waiters s) (sem_granted s) (ready s) (executing s)
    (futures s) (next_future s) (total_requests s) (completed_requests s)
    (failed_requests s) (timeout_requests s) (rejected_requests s)
    (total_wait_time_ms s) (total_execution_time_ms s)
    (recent_execution_times s) (_running s) v
    (workers_waiting s) (workers_resuming s).

Definition set_workers_waiting (v : nat) (s : state) : state :=
  mkState (max_concurrent s) (max_queue_size s) (queue s) (active_requests s)
    (sem_value s) (sem_waiters s) (sem_granted s) (ready s) (executing s)
    (futures s) (next_future s) (total_requests s) (completed_requests s)
    (failed_requests s) (timeout_requests s) (rejected_requests s)
    (total_wait_time_ms s) (total_execution_time_ms s)
    (recent_execution_times s) (_running s) (log_started s)
    v (workers_resuming s).
Definition set_workers_resuming (v : nat) (s : state) : state :=
  mkState (max_concurrent s) (max_queue_size s) (queue s) (active_requests s)
    (sem_value s) (sem_waiters s) (sem_granted s) (ready s) (executing s)
    (futures s) (next_future s) (total_requests s) (completed_requests s)
    (failed_requests s) (timeout_requests s) (rejected_requests s)
    (total_wait_time_ms s) (total_execution_time_ms s)
    (recent_execution_times s) (_running s) (log_started s)
    (workers_waiting s) v.

(** [asyncio.Queue.qsize] and [full] were given above; [_put] and [_get] of
    [asyncio.PriorityQueue] are [heappush] and [heappop]. *)

(** [enqueue_request], up to the point where the caller suspends in
    [asyncio.wait_for(future, ...)].  [Ret fid] says the caller now awaits
    future [fid]; [Raise] is an exception thrown at the caller.  [now] is the
    reading of [time.time()]. *)
Definition enqueue_request (request_id : string) (priority : RequestPriority)
    (now : Z) (s : state) : outcome nat * state :=
  let s := set_total_requests (total_requests s + 1)%Z s in
  if full s then
    (Raise QueueFull, set_rejected_requests (rejected_requests s + 1)%Z s)
  else
    let fid := next_future s in
    let s := set_next_future (S fid) (set_futures (<[fid := new_future]> (futures s)) s) in
    let queued_request := mkQueuedRequest request_id priority now fid in
    let s := set_queue (heapq.heappush QueuedRequest_lt (queue s) queued_request) s in
    match get_estimated_wait_time s with
    | Raise e => (Raise e, s)
    | Ret _ => (Ret fid, s)
    end.

(** The deadline of [asyncio.wait_for] passes for the caller that awaits
    future [fid]: [wait_for] cancels the future and raises [TimeoutError],
    and the handler counts it. *)
Definition enqueue_request_timeout (fid : nat) (s : state) : option state :=
  match futures s !! fid with
  | Some f =>
      if done f then None
      else Some (set_timeout_requests (timeout_requests s + 1)%Z
                   (set_futures (<[fid := cancel f]> (futures s)) s))
  | None => None
  end.

(** [start] and [stop].  [start] makes a worker task.  [stop] clears
    [_running], cancels the latest worker task and waits until that task
    has ended.  [stop] here is the part before the wait; what a worker does
    from then on until it ends are the transitions [_process_queue],
    [_process_queue_resume] and [_process_queue_exit] below. *)
Definition start (s : state) : state :=
  if _running s then s
  else set_workers_waiting (S (workers_waiting s)) (set__running true s).

Definition stop (s : state) : state := set__running false s.

(** One turn of the loop in [_process_queue]: [queue.get()] delivers the
    least request and an executor task is created for it.  With an empty
    queue the worker stays suspended, so the turn is not enabled.

    The worker reads [_running] when it runs again after the [get()].
    While the manager runs, that is part of this transition.  After [stop]
    it is not.  Up to CPython 3.11, [asyncio.wait_for] wraps [queue.get()]
    in a task of its own and returns its result to the worker even if the
    worker was cancelled in the meantime, so a worker that has not ended
    can take one more request; it then runs again, in
    [_process_queue_resume].  From CPython 3.12 on the cancellation wins
    and a cancelled worker takes nothing: the runs of that version are
    runs in which no worker takes a request while [_running] is
    cleared. *)
Definition _process_queue (s : state) : option state :=
  match workers_waiting s with
  | O => None
  | S n =>
      match heapq.heappop QueuedRequest_lt (queue s) with
      | Ret (queued_request, rest) =>
          let s := set_ready (ready s ++ [queued_request]) (set_queue rest s) in
          Some (if _running s then s
                else set_workers_resuming (S (workers_resuming s))
                       (set_workers_waiting n s))
      | Raise _ => None
      end
  end.

(** [while self._running:], read by a worker that took a request after
    [stop]: it ends, unless [start] was called in the meantime. *)
Definition _process_queue_resume (s : state) : option state :=
  match workers_resuming s with
  | O => None
  | S n =>
      let s := set_workers_resuming n s in
      Some (if _running s then set_workers_waiting (S (workers_waiting s)) s
            else s)
  end.

(** The end of a worker that waits in [queue.get()] or has not run yet: it
    was cancelled by [stop], or its [get()] timed out and it found
    [_running] cleared.  While the manager runs, the worker that the last
    [start] made stays. *)
Definition _process_queue_exit (s : state) : option state :=
  match workers_waiting s with
  | O => None
  | S n =>
      if _running s && bool_decide (n + workers_resuming s = 0)%nat then None
      else Some (set_workers_waiting n s)
  end.

(** [asyncio.Semaphore], as of CPython 3.12: waiters are served in arrival
    order, [release] hands the slot to the first of them, and an executor
    that finds a free slot behind waiters queues up.  (CPython 3.11 differs
    in that a resumed waiter wakes at most one other.) *)
Definition locked (s : state) : bool :=
  (sem_value s =? 0)%Z || negb (bool_decide (sem_waiters s ++ sem_granted s = [])).

Definition _wake_up_next (s : state) : option state :=
  match sem_waiters s with
  | [] => None
  | w :: ws =>
      Some (set_sem_granted (sem_granted s ++ [w])
              (set_sem_waiters ws (set_sem_value (sem_value s - 1)%Z s)))
  end.

(** [while self._value > 0: if not self._wake_up_next(): break] *)
Fixpoint wake_up_allowed (fuel : nat) (s : state) : state :=
  match fuel with
  | O => s
  | S fuel' =>
      if (0 <? sem_value s)%Z then
        match _wake_up_next s with
        | Some s' => wake_up_allowed fuel' s'
        | None => s
        end
      else s
  end.

Definition release (s : state) : state :=
  let s := set_sem_value (sem_value s + 1)%Z s in
  match _wake_up_next s with Some s' => s' | None => s end.

(** Entering the [async with self.semaphore] block: the counter goes up and
    the task is awaited. *)
Definition enter_block (q : QueuedRequest) (s : state) : state :=
  set_log_started (log_started s ++ [q])
    (set_executing (executing s ++ [q])
       (set_active_requests (active_requests s + 1)%Z s)).

(** [_execute_request], first part: the oldest executor task that has not
    run yet runs until the semaphore either lets it in or suspends it. *)
Definition _execute_request_begin (now : Z) (s : state) : option state :=
  match ready s with
  | [] => None
  | q :: rest =>
      let s := set_ready rest s in
      let wait_time_ms := (inject_Z (now - queued_at q) / 1000)%Q in
      let s := set_total_wait_time_ms (total_wait_time_ms s + wait_time_ms)%Q s in
      if locked s then Some (set_sem_waiters (sem_waiters s ++ [q]) s)
      else Some (enter_block q (set_sem_value (sem_value s - 1)%Z s))
  end.

(** [_execute_request], an executor that was handed a slot runs again:
    [acquire] takes it off the waiters, wakes whoever may go as well, and
    the block is entered. *)
Definition _execute_request_resume (s : state) : option state :=
  match sem_granted s with
  | [] => None
  | q :: rest =>
      let s := set_sem_granted rest s in
      Some (enter_block q (wake_up_allowed (length (sem_waiters s)) s))
  end.

Definition the_future (q : QueuedRequest) (s : state) : Future :=
  default new_future (futures s !! future q).

(** The [except Exception as e] branch of [_execute_request]. *)
Definition on_exception (q : QueuedRequest) (e : exn) (s : state) : state :=
  let s :=
    if negb (done (the_future q s)) then
      match set_exception e (the_future q s) with
      | Ret f => set_futures (<[future q := f]> (futures s)) s
      | Raise _ => s
      end
    else s in
  set_failed_requests (failed_requests s + 1)%Z s.

(** [deque(maxlen=10).append] *)
Definition deque_append (maxlen : nat) (x : Q) (d : list Q) : list Q :=
  if decide (maxlen <= length d)%nat then tail d ++ [x] else d ++ [x].

(** The [try] and [except] of [_execute_request], once the task of [q] is
    over with [o]: the result is stored in the future or dropped, and the
    counters are updated.  [except Exception] does not catch a
    [CancelledError]: nothing is stored and nothing is counted. *)
Definition _execute_request_try (q : QueuedRequest) (o : task_outcome)
    (execution_time_ms : Q) (s : state) : state :=
  match o with
  | Returns result =>
      let s := set_total_execution_time_ms
                 (total_execution_time_ms s + execution_time_ms)%Q s in
      let s := set_recent_execution_times
                 (deque_append 10 execution_time_ms (recent_execution_times s)) s in
      if negb (done (the_future q s)) then
        match set_result result (the_future q s) with
        | Ret f =>
            let s := set_futures (<[future q := f]> (futures s)) s in
            set_completed_requests (completed_requests s + 1)%Z s
        | Raise e => on_exception q e s
        end
      else set_completed_requests (completed_requests s + 1)%Z s
  | Throws msg => on_exception q (TaskError msg) s
  | ThrowsCancelled => s
  end.

(** [_execute_request], last part: the task of the [i]-th executing request
    is over; after [try] and [except], [finally] lowers the counter and the
    end of the [async with] block gives the slot back. *)
Definition _execute_request_finish (i : nat) (o : task_outcome)
    (execution_time_ms : Q) (s : state) : option state :=
  match executing s !! i with
  | None => None
  | Some q =>
      let s := set_executing (delete i (executing s)) s in
      let s := _execute_request_try q o execution_time_ms s in
      Some (release (set_active_requests (active_requests s - 1)%Z s))
  end.

(** [reset_metrics] *)
Definition reset_metrics (s : state) : state :=
  set_recent_execution_times []
    (set_total_execution_time_ms 0
      (set_total_wait_time_ms 0
        (set_rejected_requests 0
          (set_timeout_requests 0
            (set_failed_requests 0
              (set_completed_requests 0
                (set_total_requests 0 s))))))).

(** ** The machine *)

Inductive event :=
| EvStart
| EvStop
| EvEnqueue (request_id : string) (priority : RequestPriority) (now : Z)
| EvTimeout (fid : nat)
| EvWorkerGet
| EvExecuteBegin (now : Z)
| EvExecuteResume
| EvTaskDone (i : nat) (o : task_outcome) (execution_time_ms : Q)
| EvResetMetrics
| EvWorkerResume
| EvWorkerExit.

Definition step (ev : event) (s : state) : option state :=
  match ev with
  | EvStart => Some (start s)
  | EvStop => Some (stop s)
  | EvEnqueue request_id priority now =>
      Some (snd (enqueue_request request_id priority now s))
  | EvTimeout fid => enqueue_request_timeout fid s
  | EvWorkerGet => _process_queue s
  | EvExecuteBegin now => _execute_request_begin now s
  | EvExecuteResume => _execute_request_resume s
  | EvTaskDone i o t => _execute_request_finish i o t s
  | EvResetMetrics => Some (reset_metrics s)
  | EvWorkerResume => _process_queue_resume s
  | EvWorkerExit => _process_queue_exit s
  end.

Fixpoint run (evs : list event) (s : state) : option state :=
  match evs with
  | [] => Some s
  | ev :: evs' =>
      match step ev s with
      | Some s' => run evs' s'
      | None => None
      end
  end.

(** The states a manager built by [__init__ mc mq] can be in. *)
Definition reachable (mc mq : Z) (s : state) : Prop :=
  exists s0 evs, __init__ mc mq = Ret s0 /\ run evs s0 = Some s.

(** ** Derived notions used to state the properties *)

(** The state [enqueue_request] leaves when the queue is not full. *)
Definition enqueued (id : string) (p : RequestPriority) (now : Z) (s : state) : state :=
  set_queue (heapq.heappush QueuedRequest_lt (queue s)
               (mkQueuedRequest id p now (next_future s)))
    (set_next_future (S (next_future s))
       (set_futures (<[next_future s := new_future]> (futures s))
          (set_total_requests (total_requests s + 1)%Z s))).

(** What a task's outcome becomes in a future, if anything. *)
Definition stored (o : task_outcome) : option future_state :=
  match o with
  | Returns result => Some (FINISHED result)
  | Throws msg => Some (FAILED (TaskError msg))
  | ThrowsCancelled => None
  end.

(** Several callers submit one after the other, with no other transition
    in between; the outcomes are those of [enqueue_request], in order. *)
Fixpoint submit (reqs : list (string * RequestPriority * Z)) (s : state)
    : list (outcome nat) * state :=
  match reqs with
  | [] => ([], s)
  | (id, p, now) :: reqs' =>
      let '(o, s1) := enqueue_request id p now s in
      let '(os, s2) := submit reqs' s1 in
      (o :: os, s2)
  end.

Definition is_enqueue (ev : event) : bool :=
  match ev with EvEnqueue _ _ _ => true | _ => false end.

Definition is_start (ev : event) : bool :=
  match ev with EvStart => true | _ => false end.

Definition is_worker_get (ev : event) : bool :=
  match ev with EvWorkerGet => true | _ => false end.

(** The number of requests that the workers take in a run. *)
Definition worker_gets (evs : list event) : nat :=
  length (filter (fun ev => is_worker_get ev = true) evs).

(** The order in which [heappop] empties a heap. *)
Fixpoint drain (fuel : nat) (heap : list QueuedRequest) : list QueuedRequest :=
  match fuel with
  | O => []
  | S fuel' =>
      match heapq.heappop QueuedRequest_lt heap with
      | Ret (x, rest) => x :: drain fuel' rest
      | Raise _ => []
      end
  end.

Definition pop_order (heap : list QueuedRequest) : list QueuedRequest :=
  drain (length heap) heap.

(** The requests that were handed to an executor: those whose task was
    started, and those on their way to the semaphore. *)
Definition handed_over (s : state) : list QueuedRequest :=
  log_started s ++ sem_granted s ++ sem_waiters s ++ ready s.

(** The tasks that were started, followed by the requests that are on their
    way, in the order in which they will be started. *)
Definition dispatch_order (s : state) : list QueuedRequest :=
  log_started s ++ sem_granted s ++ sem_waiters s ++ ready s ++ pop_order (queue s).

(** The stable sort by [(priority, queued_at)]: an insertion sort that keeps
    requests of equal key in the order of the list. *)
Definition key_le (a b : QueuedRequest) : bool := negb (QueuedRequest_lt b a).

Fixpoint insert_sorted (x : QueuedRequest) (l : list QueuedRequest) : list QueuedRequest :=
  match l with
  | [] => [x]
  | y :: l' => if key_le x y then x :: y :: l' else y :: insert_sorted x l'
  end.

Definition stable_sort (l : list QueuedRequest) : list QueuedRequest :=
  foldr insert_sorted [] l.

(** The requests that [submit] builds when every submission is accepted:
    one new future each, in order, from [n] on. *)
Fixpoint requests_of (n : nat) (reqs : list (string * RequestPriority * Z))
    : list QueuedRequest :=
  match reqs with
  | [] => []
  | (id, p, now) :: reqs' => mkQueuedRequest id p now n :: requests_of (S n) reqs'
  end.

(** The key that [__lt__] compares, and the order of the keys. *)
Definition key (q : QueuedRequest) : Z * Z :=
  (priority_value (priority q), queued_at q).

Definition key_rel (a b : QueuedRequest) : Prop := key_le a b = true.

(** The requests that were taken off the buffer and whose task is not over. *)
Definition in_progress (s : state) : nat :=
  length (ready s ++ sem_granted s ++ sem_waiters s ++ executing s).

(** ** Invariants of the machine *)

Local Open Scope Z_scope.

(** Every slot is free, handed to a suspended executor, or held by an
    executing request. *)
Definition slots_inv (s : state) : Prop :=
  0 <= sem_value s
  /\ active_requests s = Z.of_nat (length (executing s))
  /\ active_requests s + sem_value s + Z.of_nat (length (sem_granted s))
     = max_concurrent s.

(** The operations of the semaphore move executors from the waiters to those
    that were handed a slot, in order, and change nothing else but the
    counter. *)
Definition sem_only (s s' : state) : Prop :=
  sem_granted s' ++ sem_waiters s' = sem_granted s ++ sem_waiters s
  /\ queue s' = queue s /\ ready s' = ready s /\ executing s' = executing s
  /\ futures s' = futures s /\ next_future s' = next_future s
  /\ max_concurrent s' = max_concurrent s /\ max_queue_size s' = max_queue_size s
  /\ _running s' = _running s /\ log_started s' = log_started s
  /\ active_requests s' = active_requests s
  /\ rejected_requests s' = rejected_requests s
  /\ total_requests s' = total_requests s
  /\ recent_execution_times s' = recent_execution_times s
  /\ workers_waiting s' = workers_waiting s
  /\ workers_resuming s' = workers_resuming s.

(** The requests the manager holds, from the buffer to the running tasks. *)
Definition pipeline (s : state) : list QueuedRequest :=
  queue s ++ ready s ++ (sem_granted s ++ sem_waiters s) ++ executing s.

(** While the manager runs, a worker is there. *)
Definition worker_alive (s : state) : Prop :=
  _running s = true -> (0 < workers_waiting s + workers_resuming s)%nat.

Definition written (st : future_state) : nat :=
  match st with FINISHED _ | FAILED _ => 1 | _ => 0 end.

Record wf (s : state) : Prop := {
  wf_fresh : forall fid, (next_future s <= fid)%nat -> futures s !! fid = None;
  wf_sets : forall fid f, futures s !! fid = Some f -> fut_sets f = written (fut_state f);
  wf_nodup : NoDup (future <$> pipeline s);
  wf_live : forall q, q ∈ pipeline s ->
    exists f, futures s !! future q = Some f /\ fut_sets f = 0%nat;
}.

End RequestQueue.

(** Runs of the machine, for the examples. *)

Module QueueSamples.
Import RequestQueue.
Local Open Scope string_scope.
Local Open Scope Z_scope.

Definition C1_events : list event :=
  [EvStart;
   EvEnqueue "r1" NORMAL 10; EvEnqueue "r2" HIGH 11; EvEnqueue "r3" LOW 12;
   EvWorkerGet; EvWorkerGet; EvWorkerGet;
   EvExecuteBegin 20; EvExecuteBegin 21; EvExecuteBegin 22;
   EvTaskDone 0 (Returns "ok") 5].

(** [C1_events] without the end of the first task. *)
Definition C1_events_begin : list event :=
  [EvStart;
   EvEnqueue "r1" NORMAL 10; EvEnqueue "r2" HIGH 11; EvEnqueue "r3" LOW 12;
   EvWorkerGet; EvWorkerGet; EvWorkerGet;
   EvExecuteBegin 20; EvExecuteBegin 21; EvExecuteBegin 22].

(** The first task ends with a [CancelledError], the second returns. *)
Definition cancelled_events : list event :=
  C1_events_begin
  ++ [EvTaskDone 0 ThrowsCancelled 5; EvTaskDone 0 (Returns "ok") 6].

Definition C3_events : list event :=
  [EvStart; EvEnqueue "slow" NORMAL 10; EvWorkerGet; EvExecuteBegin 11;
   EvTimeout 0%nat].

Definition C5_events : list event := [EvStart; EvEnqueue "r1" NORMAL 7].

Definition C5_two_buffered : list event :=
  [EvStart; EvEnqueue "r1" NORMAL 7; EvEnqueue "r2" NORMAL 8].

Definition C2_submissions : list (string * RequestPriority * Z) :=
  [("a", NORMAL, 5); ("b", NORMAL, 5); ("c", NORMAL, 5); ("d", NORMAL, 5)].

Definition C2_requests : list QueuedRequest :=
  [mkQueuedRequest "a" NORMAL 5 0; mkQueuedRequest "b" NORMAL 5 1;
   mkQueuedRequest "c" NORMAL 5 2; mkQueuedRequest "d" NORMAL 5 3].

Definition C2_schedule : list event :=
  [EvWorkerGet; EvWorkerGet; EvWorkerGet; EvWorkerGet;
   EvExecuteBegin 6; EvExecuteBegin 6; EvExecuteBegin 6; EvExecuteBegin 6;
   EvTaskDone 0 (Returns "ok") 100; EvExecuteResume;
   EvTaskDone 0 (Returns "ok") 100; EvExecuteResume;
   EvTaskDone 0 (Returns "ok") 100; EvExecuteResume;
   EvTaskDone 0 (Returns "ok") 100].
End QueueSamples.

(** ** The forecast cache: [data_models.py] and [cache_manager.py] *)

#[global] Instance outcome_ret : MRet outcome := fun _ a => Ret a.
#[global] Instance outcome_bind : MBind outcome :=
  fun _ _ f m => match m with Ret a => f a | Raise e => Raise e end.
#[global] Instance outcome_fmap : FMap outcome :=
  fun _ _ f m => match m with Ret a => Ret (f a) | Raise e => Raise e end.

(** The values of JSON: what [json.load] can return, and what [json.dump]
    writes in such a way that [json.load] returns an equal value.  [JInt]
    is an integer that Python prints (one of at most 4300 digits),
    [JFloat] a finite float, given by its exact value, and the keys of a
    [JDict] are strings.  Other Python values are not represented: not a
    number (which is equal to nothing, itself included), the infinities, a
    tuple (read back as a list), a dictionary with keys that are not
    strings, and the objects for which [json.dump] has no encoder and
    raises [TypeError], such as a numpy number. *)
#[local] Set Warnings "-register-all".
Inductive json :=
| JNull
| JBool (b : bool)
| JInt (n : Z)
| JFloat (x : Q)
| JStr (s : string)
| JList (l : list json)
| JDict (d : list (string * json)).

(** The library functions the cache relies on and that are taken as given:
    [hashlib.md5(s.encode()).hexdigest()], the type [datetime] and its
    [isoformat] and [fromisoformat]. *)
Class Platform := {
  md5_hexdigest : string -> string;
  datetime : Type;
  isoformat : datetime -> string;
  fromisoformat : string -> outcome datetime;
}.

(** [fromisoformat] reads back what [isoformat] prints, and [isoformat]
    never prints the empty string. *)
Class PlatformLaws (P : Platform) := {
  fromisoformat_isoformat : forall d : datetime, fromisoformat (isoformat d) = Ret d;
  isoformat_nonempty : forall d : datetime, isoformat d <> EmptyString;
}.

(** An instance to run the definitions with: a [datetime] is kept as a
    text, printed after the letter T, and the digest of a string is the
    string. *)
Definition text_platform : Platform := {|
  md5_hexdigest := fun s => s;
  datetime := string;
  isoformat := fun d => String (Ascii.Ascii false false true false true false true false) d;
  fromisoformat := fun s =>
    match s with
    | String (Ascii.Ascii false false true false true false true false) d => Ret d
    | _ => Raise ValueError
    end;
|}.

#[global] Instance text_platform_laws : PlatformLaws text_platform.
Proof. split; [reflexivity | discriminate]. Qed.

Module ForecastCache.
Section with_platform.
Context {P : Platform}.
Local Open Scope string_scope.

(** *** Dictionaries *)

(** [d[k]] *)
Fixpoint dict_get (k : string) (d : list (string * json)) : option json :=
  match d with
  | [] => None
  | (k', v) :: d' => if decide (k = k') then Some v else dict_get k d'
  end.

Definition getitem (k : string) (data : json) : outcome json :=
  match data with
  | JDict d => match dict_get k d with Some v => Ret v | None => Raise DecodeError end
  | _ => Raise DecodeError
  end.

(** Calling a data class with the dictionary [d] as keyword arguments:
    every key is a field, every field without a default is given. *)
Definition kwargs (required optional : list string) (data : json)
    : outcome (list (string * json)) :=
  match data with
  | JDict d =>
      if forallb (fun k => bool_decide (k ∈ (required ++ optional)%list)) d.*1
         && forallb (fun k => bool_decide (k ∈ d.*1)) required
      then Ret d else Raise DecodeError
  | _ => Raise DecodeError
  end.

Definition field (k : string) (d : list (string * json)) : json :=
  default JNull (dict_get k d).

(** Python's truth value of a loaded JSON value. *)
Definition truthy (j : json) : bool :=
  match j with
  | JNull => false
  | JBool b => b
  | JInt n => negb (n =? 0)%Z
  | JFloat x => negb (Qeq_bool x 0)
  | JStr s => negb (bool_decide (s = ""))
  | JList l => negb (bool_decide (l = []))
  | JDict d => negb (bool_decide (d = []))
  end.

Definition parse_datetime (j : json) : outcome datetime :=
  match j with
  | JStr s => fromisoformat s
  | _ => Raise DecodeError
  end.

(** [for day in data['forecast_days']]: a list gives its items; an empty
    string or dictionary gives nothing; the items of anything else are not
    dictionaries, or it cannot be iterated at all. *)
Definition iterate (j : json) : outcome (list json) :=
  match j with
  | JList l => Ret l
  | JStr "" => Ret []
  | JDict [] => Ret []
  | _ => Raise DecodeError
  end.

(** *** Data classes.  Python does not check the annotated types: a field
    annotated [float], [str], [int] or [bool] holds whatever was passed.
    Here these fields range over [json]: the payloads considered are those
    whose fields hold values of JSON, whatever the annotation says.  A
    payload with a field that holds another value (not a number, a numpy
    number, ...) is outside of what follows; for such a payload
    [json.dump] raises, or what [json.load] returns is not equal to what
    was written. *)

Record Location := mkLocation {
  latitude : json;
  longitude : json;
  region : json;
}.

Record RawWeatherData := mkRawWeatherData {
  precipitation_mm : json;
  temp_max_c : json;
  temp_min_c : json;
  temp_mean_c : json;
  humidity_percent : json;
  wind_speed_ms : json;
}.

Record ForecastDay := mkForecastDay {
  date : datetime;
  rain_risk : json;
  temp_extreme : json;
  soil_moisture_proxy : json;
  confidence_score : json;
  raw_weather : RawWeatherData;
}.

(** [era5_timestamp: Optional[datetime] = None]: a [datetime], or the
    value that was passed in its place ([None] normally). *)
Inductive era5 :=
| Era5Time (d : datetime)
| Era5Other (j : json).

Record ForecastMetadata := mkForecastMetadata {
  model_version : json;
  generated_at : datetime;
  cache_hit : json;
  inference_time_ms : json;
  era5_timestamp : era5;
}.

Record ForecastResult := mkForecastResult {
  location : Location;
  forecast_days : list ForecastDay;
  metadata : ForecastMetadata;
}.

(** [dataclasses.asdict] *)
Definition Location_asdict (l : Location) : json :=
  JDict [("latitude", latitude l); ("longitude", longitude l); ("region", region l)].

Definition RawWeatherData_asdict (r : RawWeatherData) : json :=
  JDict [("precipitation_mm", precipitation_mm r); ("temp_max_c", temp_max_c r);
         ("temp_min_c", temp_min_c r); ("temp_mean_c", temp_mean_c r);
         ("humidity_percent", humidity_percent r); ("wind_speed_ms", wind_speed_ms r)].

(** The constructors [Location] and [RawWeatherData], called with a
    dictionary as keyword arguments. *)
Definition Location_new (data : json) : outcome Location :=
  d ← kwargs ["latitude"; "longitude"; "region"] [] data;
  mret (mkLocation (field "latitude" d) (field "longitude" d) (field "region" d)).

Definition RawWeatherData_new (data : json) : outcome RawWeatherData :=
  d ← kwargs ["precipitation_mm"; "temp_max_c"; "temp_min_c"; "temp_mean_c";
              "humidity_percent"; "wind_speed_ms"] [] data;
  mret (mkRawWeatherData (field "precipitation_mm" d) (field "temp_max_c" d)
          (field "temp_min_c" d) (field "temp_mean_c" d)
          (field "humidity_percent" d) (field "wind_speed_ms" d)).

(** [ForecastDay.to_dict] and [ForecastDay.from_dict] *)
Definition ForecastDay_to_dict (self : ForecastDay) : json :=
  JDict [("date", JStr (isoformat (date self)));
         ("rain_risk", rain_risk self);
         ("temp_extreme", temp_extreme self);
         ("soil_moisture_proxy", soil_moisture_proxy self);
         ("confidence_score", confidence_score self);
         ("raw_weather", RawWeatherData_asdict (raw_weather self))].

Definition ForecastDay_from_dict (data : json) : outcome ForecastDay :=
  date_s ← getitem "date" data;
  date ← parse_datetime date_s;
  raw_s ← getitem "raw_weather" data;
  raw ← RawWeatherData_new raw_s;
  d ← kwargs ["date"; "rain_risk"; "temp_extreme"; "soil_moisture_proxy";
              "confidence_score"; "raw_weather"] [] data;
  mret (mkForecastDay date (field "rain_risk" d) (field "temp_extreme" d)
          (field "soil_moisture_proxy" d) (field "confidence_score" d) raw).

(** [ForecastMetadata.to_dict]: [if self.era5_timestamp:] holds for every
    [datetime]; another true value has no [isoformat]. *)
Definition ForecastMetadata_to_dict (self : ForecastMetadata) : outcome json :=
  era ← match era5_timestamp self with
        | Era5Time d => Ret (JStr (isoformat d))
        | Era5Other j => if truthy j then Raise DecodeError else Ret j
        end;
  mret (JDict [("model_version", model_version self);
               ("generated_at", JStr (isoformat (generated_at self)));
               ("cache_hit", cache_hit self);
               ("inference_time_ms", inference_time_ms self);
               ("era5_timestamp", era)]).

Definition ForecastMetadata_from_dict (data : json) : outcome ForecastMetadata :=
  generated_s ← getitem "generated_at" data;
  generated ← parse_datetime generated_s;
  era ← match data with
        | JDict d =>
            match dict_get "era5_timestamp" d with
            | Some j => if truthy j then Era5Time <$> parse_datetime j
                        else Ret (Era5Other j)
            | None => Ret (Era5Other JNull)
            end
        | _ => Raise DecodeError
        end;
  d ← kwargs ["model_version"; "generated_at"; "cache_hit"; "inference_time_ms"]
             ["era5_timestamp"] data;
  mret (mkForecastMetadata (field "model_version" d) generated
          (field "cache_hit" d) (field "inference_time_ms" d) era).

(** [ForecastResult.to_dict] and [ForecastResult.from_dict] *)
Definition to_dict (self : ForecastResult) : outcome json :=
  meta ← ForecastMetadata_to_dict (metadata self);
  mret (JDict [("location", Location_asdict (location self));
               ("forecast_days", JList (ForecastDay_to_dict <$> forecast_days self));
               ("metadata", meta)]).

Fixpoint from_dict_days (days : list json) : outcome (list ForecastDay) :=
  match days with
  | [] => Ret []
  | day :: days' =>
      d ← ForecastDay_from_dict day;
      ds ← from_dict_days days';
      mret (d :: ds)
  end.

Definition from_dict (data : json) : outcome ForecastResult :=
  location_s ← getitem "location" data;
  location ← Location_new location_s;
  days_s ← getitem "forecast_days" data;
  days_l ← iterate days_s;
  days ← from_dict_days days_l;
  metadata_s ← getitem "metadata" data;
  metadata ← ForecastMetadata_from_dict metadata_s;
  _ ← kwargs ["location"; "forecast_days"; "metadata"] [] data;
  mret (mkForecastResult location days metadata).

(** *** Cache keys *)

(** A coordinate is given by the exact value of the Python float, a
    rational.  [round(x, 2)] rounds that value to the nearest multiple of
    1/100, ties to the even one, and keeps the sign, so that a small
    negative number becomes [-0.0].  The rounded float is its sign and its
    magnitude in hundredths. *)
Record float2 := mkFloat2 {
  negative : bool;
  hundredths : Z;
}.

Definition round_half_even (n d : Z) : Z :=
  let q := (n / d)%Z in
  let r := (n mod d)%Z in
  if (2 * r <? d)%Z then q
  else if (d <? 2 * r)%Z then (q + 1)%Z
  else if Z.even q then q else (q + 1)%Z.

Definition round2 (x : Q) : float2 :=
  mkFloat2 (Qnum x <? 0)%Z
           (round_half_even (Z.abs (Qnum x) * 100) (Z.pos (Qden x))).

(** Python's [==] on two such floats: [-0.0 == 0.0]. *)
Definition float2_eqb (a b : float2) : bool :=
  (hundredths a =? hundredths b)%Z
  && (bool_decide (negative a = negative b) || (hundredths a =? 0)%Z).

(** What an f-string prints for such a float (below 1e16, where Python
    does not switch to the exponent form): [18.52], [18.5], [18.0],
    [-0.05], [-0.0]. *)
Definition repr (f : float2) : string :=
  let cents := (hundredths f mod 100)%Z in
  (if negative f then "-" else "")
  ++ pretty (hundredths f / 100)%Z ++ "."
  ++ (if (cents mod 10 =? 0)%Z then pretty (cents / 10)%Z
      else if (cents <? 10)%Z then "0" ++ pretty cents
      else pretty cents).

(** [_generate_cache_key] *)
Definition _generate_cache_key (lat lon : Q) (forecast_days : Z) : string :=
  let lat_rounded := round2 lat in
  let lon_rounded := round2 lon in
  let key_string :=
    repr lat_rounded ++ "_" ++ repr lon_rounded ++ "_" ++ pretty forecast_days in
  let key_hash := String.substring 0 8 (md5_hexdigest key_string) in
  "forecast_" ++ repr lat_rounded ++ "_" ++ repr lon_rounded ++ "_"
    ++ pretty forecast_days ++ "_" ++ key_hash.

(** *** The cache directory *)

(** A file lies in a date directory; [strftime("%Y-%m-%d")] names one
    directory per calendar day, and the directory is identified here by
    the number of its day.  Times are microseconds of local time. *)
Abbreviation path := (Z * string)%type.

Definition day_us : Z := 86400000000.

Definition strftime_date (now : Z) : Z := (now / day_us)%Z.

(** A file holds the text of a JSON value, or bytes that are no JSON. *)
Inductive file_content :=
| JsonText (data : json)
| Garbage (bytes : string).

Record file := mkFile {
  content : file_content;
  st_mtime : Z;
}.

(** [disk_full]: the medium is out of blocks.  It takes no new directory
    and no data, and the calls that need either raise [OSError]; a file can
    still be created empty, or emptied. *)
Record filesystem := mkFilesystem {
  directories : gset Z;
  files : gmap (Z * string) file;
  disk_full : bool;
}.

(** [Path.mkdir(parents=True, exist_ok=True)] *)
Definition mkdir (d : Z) (fs : filesystem) : outcome filesystem :=
  if bool_decide (d ∈ directories fs) then Ret fs
  else if disk_full fs then Raise OSError
  else Ret (mkFilesystem ({[d]} ∪ directories fs) (files fs) (disk_full fs)).

(** [Path.unlink], on a medium that does not refuse to remove a file:
    [unlink] does not raise here. *)
Definition unlink (p : path) (fs : filesystem) : filesystem :=
  mkFilesystem (directories fs) (delete p (files fs)) (disk_full fs).

(** [open(p, 'w')]: the file is there and empty, whatever it held. *)
Definition open_w (p : path) (now : Z) (fs : filesystem) : filesystem :=
  mkFilesystem (directories fs)
    (<[p := mkFile (Garbage "") now]> (files fs)) (disk_full fs).

(** [with open(p, 'w') as f: json.dump(data, f, indent=2)]: the outcome,
    and the directory as the call leaves it.  [json.dump] has an encoder
    for every value of [json]; the write fails when the medium takes no
    data, and the file then stays as [open] left it. *)
Definition json_dump (data : json) (p : path) (now : Z) (fs : filesystem)
    : outcome unit * filesystem :=
  if disk_full fs then (Raise OSError, open_w p now fs)
  else (Ret (),
        mkFilesystem (directories fs)
          (<[p := mkFile (JsonText data) now]> (files fs)) (disk_full fs)).

(** [with open(p, 'r') as f: data = json.load(f)] *)
Definition json_load (p : path) (fs : filesystem) : outcome json :=
  match files fs !! p with
  | Some (mkFile (JsonText data) _) => Ret data
  | Some (mkFile (Garbage _) _) => Raise DecodeError
  | None => Raise OSError
  end.

(** *** [ForecastCacheManager] *)

Record ForecastCacheManager := mkForecastCacheManager {
  ttl_seconds : Z;
}.

(** [__init__]: [ttl_seconds or CACHE_CONFIG["ttl_seconds"]], where the
    configured value is 86400. *)
Definition __init__ (ttl_seconds : option Z) : ForecastCacheManager :=
  match ttl_seconds with
  | Some t => if (t =? 0)%Z then mkForecastCacheManager 86400
              else mkForecastCacheManager t
  | None => mkForecastCacheManager 86400
  end.

(** [_get_cache_path] *)
Definition _get_cache_path (cache_key : string) (now : Z) (fs : filesystem)
    : outcome (path * filesystem) :=
  let date_dir := strftime_date now in
  fs ← mkdir date_dir fs;
  mret ((date_dir, cache_key ++ ".json"), fs).

(** [_is_cache_valid].  [age_seconds < self.ttl_seconds] compares the age
    in microseconds, divided by 10^6, with the number of seconds. *)
Definition _is_cache_valid (self : ForecastCacheManager) (cache_path : path)
    (now : Z) (fs : filesystem) : bool :=
  match files fs !! cache_path with
  | None => false
  | Some f =>
      let age_us := (now - st_mtime f)%Z in
      (age_us <? ttl_seconds self * 1000000)%Z
  end.

Definition read_forecast (p : path) (fs : filesystem) : outcome ForecastResult :=
  data ← json_load p fs;
  from_dict data.

(** [get_forecast] returns the forecast or [None], or raises, and leaves
    the directory as its second component. *)
Definition get_forecast (self : ForecastCacheManager) (lat lon : Q)
    (forecast_days : Z) (now : Z) (fs : filesystem)
    : outcome (option ForecastResult) * filesystem :=
  let cache_key := _generate_cache_key lat lon forecast_days in
  match _get_cache_path cache_key now fs with
  | Raise e => (Raise e, fs)
  | Ret (cache_path, fs) =>
      if _is_cache_valid self cache_path now fs then
        match read_forecast cache_path fs with
        | Ret forecast => (Ret (Some forecast), fs)
        | Raise _ => (Ret None, unlink cache_path fs)
        end
      else
        let yesterday_dir := strftime_date (now - day_us) in
        let yesterday_path := (yesterday_dir, cache_key ++ ".json") in
        if _is_cache_valid self yesterday_path now fs then
          match read_forecast yesterday_path fs with
          | Ret forecast => (Ret (Some forecast), fs)
          | Raise _ => (Ret None, fs)
          end
        else (Ret None, fs)
  end.

(** [set_forecast] *)
Definition set_forecast (self : ForecastCacheManager) (lat lon : Q)
    (forecast_days : Z) (forecast : ForecastResult) (now : Z) (fs : filesystem)
    : outcome bool * filesystem :=
  let cache_key := _generate_cache_key lat lon forecast_days in
  match _get_cache_path cache_key now fs with
  | Raise e => (Raise e, fs)
  | Ret (cache_path, fs) =>
      match to_dict forecast with
      | Ret data =>
          match json_dump data cache_path now fs with
          | (Ret _, fs) => (Ret true, fs)
          | (Raise _, fs) => (Ret false, fs)
          end
      | Raise _ => (Ret false, fs)
      end
  end.

(** [get_cache_stats]: the three counts of the dictionary it returns. *)
Record cache_stats := mkCacheStats {
  total_forecasts : nat;
  valid_forecasts : nat;
  expired_forecasts : nat;
}.

Definition get_cache_stats (self : ForecastCacheManager) (now : Z)
    (fs : filesystem) : cache_stats :=
  let entries := map_to_list (files fs) in
  let valid := filter (fun e => _is_cache_valid self e.1 now fs = true) entries in
  mkCacheStats (length entries) (length valid) (length entries - length valid).

(** *** Notions used to state the properties *)

(** The payloads [to_dict] accepts, among those whose fields hold values
    of JSON: [era5_timestamp] is a [datetime] or a false value, [None] in
    practice. *)
Definition valid_payload (p : ForecastResult) : Prop :=
  match era5_timestamp (metadata p) with
  | Era5Time _ => True
  | Era5Other j => truthy j = false
  end.

(** [mkdir] does not raise: the directory is there, or it can be made. *)
Definition mkdir_succeeds (d : Z) (fs : filesystem) : Prop :=
  d ∈ directories fs \/ disk_full fs = false.

(** The name of the file of a request. *)
Definition cache_file (lat lon : Q) (forecast_days : Z) : string :=
  _generate_cache_key lat lon forecast_days ++ ".json".

End with_platform.
End ForecastCache.

(** ** Sample data, for the examples *)

Module Samples.
Import ForecastCache.
Local Open Scope string_scope.

(** The forecast of [test_cache_manager.py], cut to one day. *)
Definition sample_forecast : ForecastResult (P := text_platform) :=
  mkForecastResult
    (mkLocation (JFloat (185 # 10)) (JFloat (738 # 10)) (JStr "Pune, Maharashtra"))
    [mkForecastDay (P := text_platform) "2025-06-01T09:00:00"
       (JFloat 30) (JFloat 20) (JFloat 60) (JFloat (95 # 100))
       (mkRawWeatherData (JFloat 10) (JFloat 32) (JFloat 22) (JFloat 27)
          (JFloat 65) (JFloat (35 # 10)))]
    (mkForecastMetadata (P := text_platform) (JStr "v0.1") "2025-06-01T09:00:00"
       (JBool false) (JInt 5000) (Era5Other JNull)).

(** An empty cache directory on a medium with room, and one on a medium
    that is full. *)
Definition empty_fs : filesystem := mkFilesystem ∅ ∅ false.
Definition full_fs : filesystem := mkFilesystem ∅ ∅ true.

(** A cache directory with one file for the request (18.5, 73.8, 10), in the
    bucket of day [d], written at [mtime]. *)
Definition one_file (d : Z) (c : file_content) (mtime : Z) (full : bool) : filesystem :=
  mkFilesystem {[d]}
    {[(d, cache_file (P := text_platform) (185 # 10) (738 # 10) 10) := mkFile c mtime]}
    full.

Definition second : Z := 1000000.
End Samples.

(** * Further parts of the program

    The rest of [request_queue.py] and [cache_manager.py], and the
    scheduler of [ai-backend/graphcast/precompute_forecasts.py], which
    calls the cache:
    - [get_queue_stats] (module [QueueStats]),
    - [invalidate_forecast] and [invalidate_old_forecasts] (module
      [CacheMaintenance]),
    - [precompute_city_forecast] and [precompute_all_forecasts] (module
      [Precompute]).

    The cache directory holds date directories only, each named by its
    day, and the files in them; time readings are as before. *)

(** ** Notions used to state further properties of the admission queue *)

Module QueueNotions.
Import RequestQueue.
Local Open Scope Z_scope.

Definition is_reset (ev : event) : bool :=
  match ev with EvResetMetrics => true | _ => false end.

(** The requests that were accepted and whose task has not been started, in
    the order in which they will be started. *)
Definition waiting (s : state) : list QueuedRequest :=
  sem_granted s ++ sem_waiters s ++ ready s ++ pop_order (queue s).

(** A task that ends with a [CancelledError], and the number of such
    tasks in a run. *)
Definition is_cancelled_task (ev : event) : bool :=
  match ev with EvTaskDone _ ThrowsCancelled _ => true | _ => false end.

Definition cancelled_tasks (evs : list event) : nat :=
  length (filter (fun ev => is_cancelled_task ev = true) evs).

(** The counters add up: every submission was rejected or got a future of
    its own, and every request that got one is held by the manager, was
    counted as completed or as failed, or is one of the [lost] requests
    whose task ended with a [CancelledError]. *)
Definition accounted (lost : nat) (s : state) : Prop :=
  total_requests s = rejected_requests s + Z.of_nat (next_future s)
  /\ Z.of_nat (next_future s)
     = Z.of_nat (length (pipeline s)) + completed_requests s + failed_requests s
       + Z.of_nat lost
  /\ 0 <= rejected_requests s /\ 0 <= completed_requests s
  /\ 0 <= failed_requests s.

(** No slot is free while an executor waits for one, unless an executor
    that was handed a slot has not run yet; it wakes the waiters when it
    does. *)
Definition no_idle_slot (s : state) : Prop :=
  sem_waiters s <> [] -> sem_value s = 0 \/ sem_granted s <> [].

(** Some run without submissions starts the task of one more request. *)
Definition starts_next (s : state) : Prop :=
  exists evs s1 x,
    forallb (fun ev => negb (is_enqueue ev)) evs = true
    /\ run evs s = Some s1
    /\ log_started s1 = log_started s ++ [x] /\ x ∈ executing s1
    /\ _running s1 = _running s.

End QueueNotions.

(** ** Monitoring: [get_queue_stats] *)

Module QueueStats.
Import RequestQueue.
Local Open Scope string_scope.

(** A value of the dictionary that [get_queue_stats] returns: a counter, or
    a float rounded to two decimals. *)
Inductive stat :=
| StatInt (n : Z)
| StatFloat (x : ForecastCache.float2).

(** [get_queue_stats].  The divisions by the counters are guarded; the
    estimate of the wait is the last value computed and can raise. *)
Definition get_queue_stats (s : state) : outcome (list (string * stat)) :=
  let avg_wait_time :=
    if (0 <? completed_requests s)%Z
    then (total_wait_time_ms s / inject_Z (completed_requests s))%Q else 0%Q in
  let avg_execution_time :=
    if (0 <? completed_requests s)%Z
    then (total_execution_time_ms s / inject_Z (completed_requests s))%Q else 0%Q in
  let success_rate :=
    if (0 <? total_requests s)%Z
    then (inject_Z (completed_requests s) / inject_Z (total_requests s) * 100)%Q
    else 0%Q in
  estimated_wait ← get_estimated_wait_time s;
  mret [("queue_size", StatInt (qsize s));
        ("active_requests", StatInt (active_requests s));
        ("max_concurrent", StatInt (max_concurrent s));
        ("total_requests", StatInt (total_requests s));
        ("completed_requests", StatInt (completed_requests s));
        ("failed_requests", StatInt (failed_requests s));
        ("timeout_requests", StatInt (timeout_requests s));
        ("rejected_requests", StatInt (rejected_requests s));
        ("success_rate_percent", StatFloat (ForecastCache.round2 success_rate));
        ("avg_wait_time_ms", StatFloat (ForecastCache.round2 avg_wait_time));
        ("avg_execution_time_ms", StatFloat (ForecastCache.round2 avg_execution_time));
        ("estimated_wait_time_ms", StatFloat (ForecastCache.round2 estimated_wait))].

(** [stats[k]] *)
Fixpoint stats_get (k : string) (d : list (string * stat)) : option stat :=
  match d with
  | [] => None
  | (k', v) :: d' => if decide (k = k') then Some v else stats_get k d'
  end.

End QueueStats.

(** ** Text *)

Module Text.

(** Every character of a string passes a test. *)
Fixpoint all_chars (p : Ascii.ascii -> bool) (s : string) : bool :=
  match s with
  | EmptyString => true
  | String c s' => p c && all_chars p s'
  end.

Definition is_digit (c : Ascii.ascii) : bool :=
  bool_decide (c ∈ String.list_ascii_of_string "0123456789").

Definition is_not (sep c : Ascii.ascii) : bool := negb (Ascii.eqb c sep).

(** The digits after the point that [repr] prints for [cents] hundredths. *)
Definition fraction_digits (cents : Z) : string :=
  (if (cents mod 10 =? 0)%Z then pretty (cents / 10)%Z
   else if (cents <? 10)%Z then "0" ++ pretty cents
   else pretty cents)%string.

End Text.

(** ** Cache maintenance: [invalidate_forecast], [invalidate_old_forecasts] *)

Module CacheMaintenance.
Import ForecastCache.
Section with_platform.
Context {P : Platform}.
Local Open Scope string_scope.
Local Open Scope Z_scope.

(** [Path.exists] *)
Definition path_exists (p : Z * string) (fs : filesystem) : bool :=
  bool_decide (is_Some (files fs !! p)).

(** [Path.unlink] on a medium that refuses to remove the files [refused]
    (a directory that may not be written, a file held open on Windows): for
    them it raises. *)
Definition unlink_on (refused : gset (Z * string)) (p : Z * string)
    (fs : filesystem) : outcome filesystem :=
  if bool_decide (p ∈ refused) then Raise OSError else Ret (unlink p fs).

(** [invalidate_forecast] on such a medium: the file of the request is
    looked for in the directory of today and in that of yesterday, and an
    [unlink] that raises is logged and passed over. *)
Definition invalidate_forecast_on (refused : gset (Z * string))
    (self : ForecastCacheManager) (lat lon : Q)
    (forecast_days : Z) (now : Z) (fs : filesystem) : outcome bool * filesystem :=
  let cache_key := _generate_cache_key lat lon forecast_days in
  match _get_cache_path cache_key now fs with
  | Raise e => (Raise e, fs)
  | Ret (cache_path, fs) =>
      let paths_to_check :=
        [cache_path; (strftime_date (now - day_us), cache_key ++ ".json")] in
      let '(deleted, fs) :=
        foldl (fun '(deleted, fs) cache_path =>
                 if path_exists cache_path fs then
                   match unlink_on refused cache_path fs with
                   | Ret fs => (true, fs)
                   | Raise _ => (deleted, fs)
                   end
                 else (deleted, fs))
              (false, fs) paths_to_check in
      (Ret deleted, fs)
  end.

(** [invalidate_forecast] on a medium that refuses nothing. *)
Definition invalidate_forecast (self : ForecastCacheManager) (lat lon : Q)
    (forecast_days : Z) (now : Z) (fs : filesystem) : outcome bool * filesystem :=
  invalidate_forecast_on ∅ self lat lon forecast_days now fs.

(** [name.endswith(suffix)] *)
Fixpoint ends_with (suffix s : string) : bool :=
  String.eqb s suffix
  || match s with
     | EmptyString => false
     | String _ s' => ends_with suffix s'
     end.

(** [date_dir.glob("*.json")]: the files of a date directory whose name
    ends in [.json]. *)
Definition glob (date_dir : Z) (fs : filesystem) : list (Z * string) :=
  filter (fun p => p.1 = date_dir /\ ends_with ".json" p.2 = true)
    (map_to_list (files fs)).*1.

(** What a date directory holds. *)
Definition listdir (date_dir : Z) (fs : filesystem) : list (Z * string) :=
  filter (fun p => p.1 = date_dir) (map_to_list (files fs)).*1.

(** [Path.rmdir] removes a directory that holds nothing. *)
Definition rmdir (date_dir : Z) (fs : filesystem) : outcome filesystem :=
  if bool_decide (listdir date_dir fs = []) then
    Ret (mkFilesystem (directories fs ∖ {[date_dir]}) (files fs) (disk_full fs))
  else Raise OSError.

(** [datetime.strptime(date_dir.name, "%Y-%m-%d")]: midnight of the day. *)
Definition strptime_date (date_dir : Z) : Z := date_dir * day_us.

(** The body of the loop of [invalidate_old_forecasts], for one date
    directory (every entry of the cache directory is one, and its name is a
    date): a directory older than the time to live loses its [*.json] files
    and is removed if nothing is left in it; in a younger one the [*.json]
    files that are no longer valid go. *)
Definition sweep_directory (self : ForecastCacheManager) (now : Z)
    (acc : nat * filesystem) (date_dir : Z) : nat * filesystem :=
  let '(deleted_count, fs) := acc in
  let age_us := now - strptime_date date_dir in
  if ttl_seconds self * 1000000 <? age_us then
    let '(deleted_count, fs) :=
      foldl (fun '(n, fs) p => (S n, unlink p fs))
            (deleted_count, fs) (glob date_dir fs) in
    match rmdir date_dir fs with
    | Ret fs' => (deleted_count, fs')
    | Raise _ => (deleted_count, fs)
    end
  else
    foldl (fun '(n, fs) p =>
             if negb (_is_cache_valid self p now fs) then (S n, unlink p fs)
             else (n, fs))
          (deleted_count, fs) (glob date_dir fs).

(** [invalidate_old_forecasts] returns the number of files it deleted. *)
Definition invalidate_old_forecasts (self : ForecastCacheManager) (now : Z)
    (fs : filesystem) : nat * filesystem :=
  foldl (sweep_directory self now) (0%nat, fs) (elements (directories fs)).

(** *** Notions used to state the properties *)

(** The test of [invalidate_old_forecasts] on a date directory. *)
Definition directory_expired (self : ForecastCacheManager) (now : Z)
    (date_dir : Z) : bool :=
  ttl_seconds self * 1000000 <? now - strptime_date date_dir.

(** A date directory holds cache files only. *)
Definition only_json (date_dir : Z) (fs : filesystem) : Prop :=
  forall p, p.1 = date_dir -> is_Some (files fs !! p) ->
            ends_with ".json" p.2 = true.

(** The cache directory as the cache manager leaves it: every file lies in
    a date directory that exists, and its name ends in [.json]. *)
Definition consistent (fs : filesystem) : Prop :=
  map_Forall (fun p _ => p.1 ∈ directories fs /\ ends_with ".json" p.2 = true)
    (files fs).

End with_platform.
End CacheMaintenance.

(** ** Pre-computation: [precompute_forecasts.py] *)

Module Precompute.
Import ForecastCache.
Section with_platform.
Context {P : Platform}.
Local Open Scope string_scope.

(** A city of the list: a dictionary with the keys [name], [lat], [lon]. *)
Record City := mkCity {
  name : string;
  lat : Q;
  lon : Q;
}.

(** The coordinates are the decimals of the source; the floats nearest to
    them round to the same two decimals. *)
Definition MAHARASHTRA_CITIES : list City :=
  [mkCity "Pune" (1852 # 100) (7386 # 100);
   mkCity "Mumbai" (1908 # 100) (7288 # 100);
   mkCity "Nagpur" (2115 # 100) (7909 # 100);
   mkCity "Nashik" (1999 # 100) (7379 # 100);
   mkCity "Aurangabad" (1988 # 100) (7532 # 100);
   mkCity "Solapur" (1768 # 100) (7591 # 100);
   mkCity "Kolhapur" (1670 # 100) (7422 # 100);
   mkCity "Amravati" (2093 # 100) (7775 # 100);
   mkCity "Sangli" (1685 # 100) (7456 # 100);
   mkCity "Ahmednagar" (1909 # 100) (7474 # 100)].

(** [needle in hay], on strings. *)
Fixpoint contains (needle hay : string) : bool :=
  String.prefix needle hay
  || match hay with
     | EmptyString => false
     | String _ hay' => contains needle hay'
     end.

(** The inference pipeline is a task that returns a forecast or raises. *)
Record ForecastPrecomputeScheduler := mkForecastPrecomputeScheduler {
  cache_manager : ForecastCacheManager;
  inference_pipeline : option (Q -> Q -> Z -> outcome ForecastResult);
  cities : list City;
}.

(** [__init__]: [cities or MAHARASHTRA_CITIES]. *)
Definition __init__ (cache_manager : ForecastCacheManager)
    (inference_pipeline : option (Q -> Q -> Z -> outcome ForecastResult))
    (cities : list City) : ForecastPrecomputeScheduler :=
  mkForecastPrecomputeScheduler cache_manager inference_pipeline
    (match cities with [] => MAHARASHTRA_CITIES | _ => cities end).

(** What one call of [precompute_city_forecast] reads off the clock: the
    time of the look-up, the time of the write, and the text that
    [{elapsed:.1f}] prints. *)
Record Readings := mkReadings {
  now_get : Z;
  now_set : Z;
  elapsed : string;
}.

(** [precompute_city_forecast]; [str] gives the text of an exception. *)
Definition precompute_city_forecast (self : ForecastPrecomputeScheduler)
    (str : exn -> string) (city : City) (forecast_days : Z) (r : Readings)
    (fs : filesystem) : (bool * string) * filesystem :=
  let city_name := name city in
  match get_forecast (cache_manager self) (lat city) (lon city) forecast_days
          (now_get r) fs with
  | (Raise e, fs) => ((false, city_name ++ ": Error - " ++ str e), fs)
  | (Ret (Some cached), fs) => ((true, city_name ++ ": Already cached"), fs)
  | (Ret None, fs) =>
      match inference_pipeline self with
      | Some pipeline =>
          match pipeline (lat city) (lon city) forecast_days with
          | Raise e => ((false, city_name ++ ": Error - " ++ str e), fs)
          | Ret forecast =>
              match set_forecast (cache_manager self) (lat city) (lon city)
                      forecast_days forecast (now_set r) fs with
              | (Raise e, fs) => ((false, city_name ++ ": Error - " ++ str e), fs)
              | (Ret _, fs) =>
                  ((true, city_name ++ ": Generated in " ++ elapsed r ++ "s"), fs)
              end
          end
      | None => ((false, city_name ++ ": No inference pipeline"), fs)
      end
  end.

(** The counts and the details of the dictionary that
    [precompute_all_forecasts] returns. *)
Record Results := mkResults {
  total_cities : nat;
  successful : nat;
  failed : nat;
  skipped : nat;
  details : list (string * bool * string);
}.

(** The body of the loop over the cities; the cities are numbered to give
    each call its clock readings. *)
Definition precompute_step (self : ForecastPrecomputeScheduler)
    (str : exn -> string) (forecast_days : Z) (clock : nat -> Readings)
    (acc : Results * filesystem * nat) (city : City)
    : Results * filesystem * nat :=
  let '(results, fs, i) := acc in
  let '((success, message), fs) :=
    precompute_city_forecast self str city forecast_days (clock i) fs in
  let results :=
    if success then
      if contains "Already cached" message then
        mkResults (total_cities results) (successful results) (failed results)
          (S (skipped results)) (details results)
      else
        mkResults (total_cities results) (S (successful results)) (failed results)
          (skipped results) (details results)
    else
      mkResults (total_cities results) (successful results) (S (failed results))
        (skipped results) (details results) in
  (mkResults (total_cities results) (successful results) (failed results)
     (skipped results) (details results ++ [(name city, success, message)]),
   fs, S i).

(** [precompute_all_forecasts] *)
Definition precompute_all_forecasts (self : ForecastPrecomputeScheduler)
    (str : exn -> string) (forecast_days : Z) (clock : nat -> Readings)
    (fs : filesystem) : Results * filesystem :=
  let results := mkResults (length (cities self)) 0 0 0 [] in
  let '(results, fs, _) :=
    foldl (precompute_step self str forecast_days clock) (results, fs, 0%nat)
      (cities self) in
  (results, fs).

End with_platform.
End Precompute.

(** * Properties of the heap operations *)

Module HeapProps.
Import heapq.
Section perm.
Context {A : Type} (lt : A -> A -> bool).
Implicit Types (heap h : list A) (x y : A).

Lemma insert_delete_perm heap (i : nat) x :
  (i < length heap)%nat -> <[i := x]> heap ≡ₚ x :: delete i heap.
Proof.
  revert i. induction heap as [|a heap IH]; intros [|i] Hi; simpl in *;
    try lia; [done|].
  rewrite IH by lia. apply Permutation_swap.
Qed.

(** Writing [y] where [x] was and [x] where [y] is exchanges them. *)
Lemma insert_exchange heap (i j : nat) x y :
  i <> j -> heap !! i = Some x -> (j < length heap)%nat ->
  <[i := y]> (<[j := x]> heap) ≡ₚ <[j := y]> heap.
Proof.
  revert i j. induction heap as [|a heap IH]; intros i j Hij Hi Hj;
    [simpl in Hj; lia|].
  destruct i as [|i], j as [|j]; simpl in *; try congruence.
  - injection Hi as ->.
    rewrite !insert_delete_perm by lia. apply Permutation_swap.
  - apply lookup_lt_Some in Hi as Hi'.
    rewrite insert_delete_perm by lia.
    rewrite (delete_Permutation heap i x) at 2 by done.
    apply Permutation_swap.
  - constructor. apply IH; [congruence | done | lia].
Qed.

Lemma _siftdown_loop_perm fuel heap startpos pos newitem h p :
  _siftdown_loop lt fuel heap startpos pos newitem = (h, p) ->
  (pos < length heap)%nat ->
  <[p := newitem]> h ≡ₚ <[pos := newitem]> heap /\ (p < length h)%nat.
Proof.
  revert heap pos. induction fuel as [|fuel IH]; intros heap pos; simpl.
  - intros [= <- <-]. done.
  - destruct (decide (startpos < pos)%nat) as [Hlt|]; [|by intros [= <- <-]].
    destruct (heap !! Nat.div2 (pos - 1)) as [parent|] eqn:Hp;
      [|by intros [= <- <-]].
    destruct (lt newitem parent); [|by intros [= <- <-]].
    intros Hloop Hpos.
    assert (Hne : Nat.div2 (pos - 1) <> pos).
    { pose proof (Nat.div2_decr (pos - 1) (pos - 1)). lia. }
    apply IH in Hloop as [Hperm Hlen].
    + split; [|done]. rewrite Hperm.
      apply insert_exchange; [done | done | done].
    + rewrite length_insert. eauto using lookup_lt_Some.
Qed.

Lemma _siftdown_perm heap startpos pos : _siftdown lt heap startpos pos ≡ₚ heap.
Proof.
  unfold _siftdown. destruct (heap !! pos) as [newitem|] eqn:Hpos; [|done].
  destruct (_siftdown_loop _ _ _ _ _ _) as [h p] eqn:Hloop.
  destruct (_siftdown_loop_perm _ _ _ _ _ _ _ Hloop) as [Hperm _];
    [eauto using lookup_lt_Some|].
  rewrite Hperm. by rewrite list_insert_id.
Qed.

Lemma _siftup_loop_perm fuel heap endpos pos newitem h p :
  _siftup_loop lt fuel heap endpos pos = (h, p) ->
  (pos < length heap)%nat ->
  <[p := newitem]> h ≡ₚ <[pos := newitem]> heap /\ (p < length h)%nat.
Proof.
  revert heap pos. induction fuel as [|fuel IH]; intros heap pos;
    cbn [_siftup_loop].
  - intros [= <- <-]. done.
  - destruct (decide (2 * pos + 1 < endpos)%nat) as [Hlt|];
      [|by intros [= <- <-]].
    set (childpos := if decide (2 * pos + 1 + 1 < endpos)%nat then _ else _).
    assert (Hc : (pos < childpos)%nat).
    { subst childpos. destruct (decide _); [|lia].
      destruct (heap !! _); [|lia]. destruct (heap !! _); [|lia].
      destruct (negb _); lia. }
    clearbody childpos.
    destruct (heap !! childpos) as [c|] eqn:Hchild; [|by intros [= <- <-]].
    intros Hloop Hpos.
    apply IH in Hloop as [Hperm Hlen].
    + split; [|done]. rewrite Hperm.
      apply insert_exchange; [lia | done | done].
    + rewrite length_insert. eauto using lookup_lt_Some.
Qed.

Lemma _siftup_perm heap pos : _siftup lt heap pos ≡ₚ heap.
Proof.
  unfold _siftup. destruct (heap !! pos) as [newitem|] eqn:Hpos; [|done].
  destruct (_siftup_loop _ _ _ _ _) as [h p] eqn:Hloop.
  destruct (_siftup_loop_perm _ _ _ _ newitem _ _ Hloop) as [Hperm _];
    [eauto using lookup_lt_Some|].
  rewrite _siftdown_perm, Hperm. by rewrite list_insert_id.
Qed.

(** Pushing adds the item and nothing else. *)
Lemma heappush_perm heap x : heappush lt heap x ≡ₚ x :: heap.
Proof.
  unfold heappush. rewrite _siftdown_perm. by rewrite Permutation_app_comm.
Qed.

(** Popping takes one item out and nothing else. *)
Lemma heappop_perm heap x h :
  heappop lt heap = Ret (x, h) -> heap ≡ₚ x :: h.
Proof.
  unfold heappop.
  destruct (last heap) as [lastelt|] eqn:Hlast; [|discriminate].
  apply last_Some in Hlast as [front ->].
  rewrite removelast_last.
  destruct front as [|returnitem front]; intros [= <- <-]; [done|].
  rewrite _siftup_perm. simpl. constructor.
  symmetry. apply Permutation_cons_append.
Qed.

Lemma heappop_nonempty heap :
  heap <> [] -> exists x h, heappop lt heap = Ret (x, h).
Proof.
  intros Hne. unfold heappop.
  destruct (last heap) as [lastelt|] eqn:Hlast.
  - destruct (removelast heap); eauto.
  - apply last_None in Hlast. done.
Qed.

Lemma heappop_empty : heappop lt [] = Raise IndexError.
Proof. reflexivity. Qed.
End perm.
End HeapProps.

(** * The heap property *)

Module HeapOrder.
Import heapq.
Section order.
Context {A : Type} (lt : A -> A -> bool).
Hypothesis lt_irrefl : forall x, lt x x = false.
Hypothesis lt_trans : forall x y z, lt x y = true -> lt y z = true -> lt x z = true.
Hypothesis lt_negtrans :
  forall x y z, lt x y = false -> lt y z = false -> lt x z = false.
Implicit Types (heap h : list A) (x y : A) (i pos : nat).

Lemma lt_asym x y : lt x y = true -> lt y x = false.
Proof.
  intros H. destruct (lt y x) eqn:E; [|done].
  pose proof (lt_irrefl x) as I. by rewrite (lt_trans x y x H E) in I.
Qed.

Lemma div2_spec (n : nat) : n = 2 * Nat.div2 n \/ n = 2 * Nat.div2 n + 1.
Proof.
  destruct (Nat.Even_or_Odd n) as [[k ->]|[k ->]].
  - left. rewrite Nat.div2_double. lia.
  - right. replace (2 * k + 1) with (S (2 * k)) by lia.
    rewrite Nat.div2_succ_double. lia.
Qed.

Lemma parent_lt i : 0 < i -> parent i < i.
Proof. unfold parent. pose proof (div2_spec (i - 1)). lia. Qed.

Lemma parent_children i pos :
  0 < i -> parent i = pos -> i = 2 * pos + 1 \/ i = 2 * pos + 2.
Proof. unfold parent. pose proof (div2_spec (i - 1)). lia. Qed.

Lemma parent_left pos : parent (2 * pos + 1) = pos.
Proof. unfold parent. pose proof (div2_spec (2 * pos + 1 - 1)). lia. Qed.

Lemma parent_right pos : parent (2 * pos + 1 + 1) = pos.
Proof. unfold parent. pose proof (div2_spec (2 * pos + 1 + 1 - 1)). lia. Qed.

(** Putting [x] at [pos] gives a heap when the rest is in order and [x]
    fits between the parent and the children of [pos]. *)
Lemma is_heap_place heap pos x :
  pos < length heap ->
  (forall i, 0 < i -> i <> pos -> parent i <> pos -> ordered_at lt heap i) ->
  (forall i c, 0 < i -> parent i = pos -> heap !! i = Some c -> lt c x = false) ->
  (forall g, 0 < pos -> heap !! parent pos = Some g -> lt x g = false) ->
  is_heap lt (<[pos := x]> heap).
Proof.
  intros Hlen Ha Hb Hc i Hi c p Hci Hpi.
  destruct (decide (i = pos)) as [->|Hne].
  - rewrite list_lookup_insert_eq in Hci by done. injection Hci as <-.
    pose proof (parent_lt pos Hi).
    rewrite list_lookup_insert_ne in Hpi by lia. by apply Hc.
  - rewrite list_lookup_insert_ne in Hci by done.
    destruct (decide (parent i = pos)) as [E|E].
    + rewrite E, list_lookup_insert_eq in Hpi by done. injection Hpi as <-.
      by apply (Hb i).
    + rewrite list_lookup_insert_ne in Hpi by done. by apply (Ha i).
Qed.

Lemma _siftdown_loop_heap fuel heap pos newitem h p :
  _siftdown_loop lt fuel heap 0 pos newitem = (h, p) ->
  pos <= fuel -> pos < length heap ->
  (forall i, 0 < i -> i <> pos -> ordered_at lt heap i) ->
  (forall i c, 0 < i -> parent i = pos -> heap !! i = Some c ->
     lt c newitem = false) ->
  (forall i c g, 0 < i -> parent i = pos -> 0 < pos -> heap !! i = Some c ->
     heap !! parent pos = Some g -> lt c g = false) ->
  is_heap lt (<[p := newitem]> h).
Proof.
  revert heap pos.
  induction fuel as [|fuel IH]; intros heap pos Hloop Hfuel Hlen Ha Hb Hc;
    cbn [_siftdown_loop] in Hloop.
  - injection Hloop as <- <-.
    apply is_heap_place; [done | by intros; apply Ha | exact Hb | intros; lia].
  - destruct (decide (0 < pos)) as [Hpos|Hpos].
    2:{ injection Hloop as <- <-.
        apply is_heap_place; [done | by intros; apply Ha | exact Hb | intros; lia]. }
    fold (parent pos) in Hloop. pose proof (parent_lt pos Hpos) as Hpp.
    destruct (heap !! parent pos) as [par|] eqn:Hpar.
    2:{ injection Hloop as <- <-.
        apply is_heap_place; [done | by intros; apply Ha | exact Hb |].
        intros g _ Hg. congruence. }
    destruct (lt newitem par) eqn:Hlt.
    2:{ injection Hloop as <- <-.
        apply is_heap_place; [done | by intros; apply Ha | exact Hb |].
        intros g _ Hg. congruence. }
    apply IH in Hloop; [done | lia | rewrite length_insert; lia | | | ].
    + intros i Hi Hne c p0 Hci Hpi.
      destruct (decide (i = pos)) as [->|Hip].
      * rewrite list_lookup_insert_eq in Hci by done. injection Hci as <-.
        rewrite list_lookup_insert_ne in Hpi by lia.
        rewrite Hpar in Hpi. injection Hpi as <-. apply lt_irrefl.
      * rewrite list_lookup_insert_ne in Hci by done.
        destruct (decide (parent i = pos)) as [E|E].
        -- rewrite E, list_lookup_insert_eq in Hpi by done. injection Hpi as <-.
           by apply (Hc i c par).
        -- rewrite list_lookup_insert_ne in Hpi by done. by apply (Ha i).
    + intros i c Hi Hpi Hci.
      destruct (decide (i = pos)) as [->|Hip].
      * rewrite list_lookup_insert_eq in Hci by done. injection Hci as <-.
        by apply lt_asym.
      * rewrite list_lookup_insert_ne in Hci by done.
        assert (Hcp : lt c par = false).
        { apply (Ha i Hi Hip c par Hci). by rewrite Hpi. }
        destruct (lt c newitem) eqn:E; [|done].
        by rewrite (lt_trans c newitem par E Hlt) in Hcp.
    + intros i c g Hi Hpi Hpos' Hci Hg.
      pose proof (parent_lt _ Hpos') as Hgp.
      rewrite list_lookup_insert_ne in Hg by lia.
      assert (Hpg : lt par g = false).
      { apply (Ha (parent pos)); [done | lia | done | done]. }
      destruct (decide (i = pos)) as [->|Hip].
      * rewrite list_lookup_insert_eq in Hci by done. by injection Hci as <-.
      * rewrite list_lookup_insert_ne in Hci by done.
        apply (lt_negtrans c par g); [|done].
        apply (Ha i Hi Hip c par Hci). by rewrite Hpi.
Qed.

Lemma _siftup_loop_heap fuel heap pos h p :
  _siftup_loop lt fuel heap (length heap) pos = (h, p) ->
  length heap <= pos + fuel -> pos < length heap ->
  (forall i, 0 < i -> i <> pos -> parent i <> pos -> ordered_at lt heap i) ->
  (forall i c g, 0 < i -> parent i = pos -> 0 < pos -> heap !! i = Some c ->
     heap !! parent pos = Some g -> lt c g = false) ->
  length h = length heap /\ p < length h /\ length h <= 2 * p + 1
  /\ (forall i, 0 < i -> i <> p -> parent i <> p -> ordered_at lt h i).
Proof.
  revert heap pos.
  induction fuel as [|fuel IH]; intros heap pos Hloop Hfuel Hlen Ha Hb;
    cbn [_siftup_loop] in Hloop.
  - lia.
  - destruct (decide (2 * pos + 1 < length heap)) as [Hleft|Hleaf].
    2:{ injection Hloop as <- <-. repeat split; auto; lia. }
    destruct (lookup_lt_is_Some_2 heap (2 * pos + 1) Hleft) as [l Hl].
    set (cp := if decide (2 * pos + 1 + 1 < length heap) then _ else _) in Hloop.
    assert (Hcp : exists c, heap !! cp = Some c
              /\ (cp = 2 * pos + 1 \/ cp = 2 * pos + 1 + 1)
              /\ forall i c', 0 < i -> parent i = pos -> heap !! i = Some c' ->
                   lt c' c = false).
    { subst cp. destruct (decide (2 * pos + 1 + 1 < length heap)) as [Hright|Hright].
      - destruct (lookup_lt_is_Some_2 heap _ Hright) as [r Hr].
        rewrite Hl, Hr. destruct (lt l r) eqn:Hlr; simpl.
        + exists l. split; [done|]. split; [by left|].
          intros i c' Hi Hpi Hci.
          destruct (parent_children i pos Hi Hpi) as [->| ->].
          * rewrite Hl in Hci. injection Hci as <-. apply lt_irrefl.
          * replace (2 * pos + 2) with (2 * pos + 1 + 1) in Hci by lia.
            rewrite Hr in Hci. injection Hci as <-. by apply lt_asym.
        + exists r. split; [done|]. split; [by right|].
          intros i c' Hi Hpi Hci.
          destruct (parent_children i pos Hi Hpi) as [->| ->].
          * rewrite Hl in Hci. by injection Hci as <-.
          * replace (2 * pos + 2) with (2 * pos + 1 + 1) in Hci by lia.
            rewrite Hr in Hci. injection Hci as <-. apply lt_irrefl.
      - exists l. split; [done|]. split; [by left|].
        intros i c' Hi Hpi Hci.
        destruct (parent_children i pos Hi Hpi) as [->| ->].
        + rewrite Hl in Hci. injection Hci as <-. apply lt_irrefl.
        + apply lookup_lt_Some in Hci. lia. }
    clearbody cp. destruct Hcp as (c & Hc & Hcpos & Hmin). rewrite Hc in Hloop.
    assert (Hpc : parent cp = pos).
    { destruct Hcpos as [->| ->]; [apply parent_left | apply parent_right]. }
    assert (Hclt : cp < length heap) by eauto using lookup_lt_Some.
    rewrite <- (length_insert heap pos c) in Hloop.
    apply IH in Hloop; rewrite ?length_insert in *; [done | lia | lia | | ].
    + intros i Hi Hne Hpne c0 p0 Hci Hpi.
      destruct (decide (i = pos)) as [->|Hip].
      * rewrite list_lookup_insert_eq in Hci by done. injection Hci as <-.
        pose proof (parent_lt pos Hi).
        rewrite list_lookup_insert_ne in Hpi by lia.
        apply (Hb cp c p0); auto. lia.
      * rewrite list_lookup_insert_ne in Hci by done.
        destruct (decide (parent i = pos)) as [E|E].
        -- rewrite E, list_lookup_insert_eq in Hpi by done. injection Hpi as <-.
           by apply (Hmin i).
        -- rewrite list_lookup_insert_ne in Hpi by done. by apply (Ha i).
    + intros i c0 g Hi Hpi _ Hci Hg.
      rewrite Hpc, list_lookup_insert_eq in Hg by done. injection Hg as <-.
      pose proof (parent_lt i Hi).
      rewrite list_lookup_insert_ne in Hci by lia.
      apply (Ha i Hi); [lia | lia | done | by rewrite Hpi].
Qed.

Lemma _siftdown_heap heap pos :
  pos < length heap ->
  (forall i, 0 < i -> i <> pos -> ordered_at lt heap i) ->
  length heap <= 2 * pos + 1 ->
  is_heap lt (_siftdown lt heap 0 pos).
Proof.
  intros Hlen Ha Hleaf. unfold _siftdown.
  destruct (lookup_lt_is_Some_2 heap pos Hlen) as [newitem Hn]. rewrite Hn.
  destruct (_siftdown_loop _ _ _ _ _ _) as [h p] eqn:Hloop.
  apply (_siftdown_loop_heap _ _ _ _ _ _ Hloop); auto.
  - intros i c Hi Hpi Hci. apply lookup_lt_Some in Hci.
    destruct (parent_children i pos Hi Hpi); lia.
  - intros i c g Hi Hpi _ Hci _. apply lookup_lt_Some in Hci.
    destruct (parent_children i pos Hi Hpi); lia.
Qed.

Lemma _siftup_heap heap :
  (forall i, 0 < i -> parent i <> 0 -> ordered_at lt heap i) ->
  is_heap lt (_siftup lt heap 0).
Proof.
  intros Ha. unfold _siftup.
  destruct (heap !! 0) as [newitem|] eqn:Hn.
  2:{ apply lookup_ge_None in Hn. intros i Hi c p Hci.
      apply lookup_lt_Some in Hci. lia. }
  destruct (_siftup_loop _ _ _ _ _) as [h p] eqn:Hloop.
  apply _siftup_loop_heap in Hloop as (Hlen & Hp & Hleaf & Hh);
    [| lia | eauto using lookup_lt_Some | intros i Hi Hne; by apply Ha
     | intros i c g _ _ Hpos; lia].
  apply _siftdown_heap; rewrite ?length_insert; [done | | done].
  intros i Hi Hne c0 p0 Hci Hpi.
  rewrite list_lookup_insert_ne in Hci by done.
  destruct (decide (parent i = p)) as [E|E].
  - apply lookup_lt_Some in Hci. destruct (parent_children i p Hi E); lia.
  - rewrite list_lookup_insert_ne in Hpi by done. by apply (Hh i).
Qed.

Lemma is_heap_nil : is_heap lt [].
Proof. intros i Hi c p Hc. done. Qed.

(** [heappush] keeps the heap property. *)
Lemma heappush_heap heap x : is_heap lt heap -> is_heap lt (heappush lt heap x).
Proof.
  intros Hh. unfold heappush. apply _siftdown_heap.
  - rewrite length_app. simpl. lia.
  - intros i Hi Hne c p Hci Hpi. pose proof (parent_lt i Hi).
    assert (i < length heap).
    { apply lookup_lt_Some in Hci. rewrite length_app in Hci. simpl in Hci. lia. }
    rewrite lookup_app_l in Hci, Hpi by lia. by apply (Hh i).
  - rewrite length_app. simpl. lia.
Qed.

(** The root of a heap is a least item. *)
Lemma is_heap_root heap r :
  is_heap lt heap -> heap !! 0 = Some r ->
  forall i y, heap !! i = Some y -> lt y r = false.
Proof.
  intros Hh Hr i. induction (lt_wf i) as [i _ IH]. intros y Hy.
  destruct (decide (i = 0)) as [->|Hi].
  - rewrite Hr in Hy. injection Hy as <-. apply lt_irrefl.
  - assert (Hpos : 0 < i) by lia. pose proof (parent_lt i Hpos) as Hp.
    destruct (lookup_lt_is_Some_2 heap (parent i)) as [p Hpi].
    { apply lookup_lt_Some in Hy. lia. }
    apply (lt_negtrans y p r); [by apply (Hh i Hpos) | by apply (IH (parent i))].
Qed.

(** [heappop] returns a least item and keeps the heap property. *)
Lemma heappop_heap heap x h :
  is_heap lt heap -> heappop lt heap = Ret (x, h) ->
  is_heap lt h /\ forall y, y ∈ h -> lt y x = false.
Proof.
  intros Hh Hpop. split.
  - revert Hpop. unfold heappop.
    destruct (last heap) as [lastelt|] eqn:Hlast; [|discriminate].
    apply last_Some in Hlast as [front ->]. rewrite removelast_last.
    destruct front as [|r front]; intros [= <- <-]; [apply is_heap_nil|].
    apply _siftup_heap. intros i Hi Hpi c p Hci Hp.
    destruct i as [|i]; [lia|]. simpl in Hci.
    destruct (parent (S i)) as [|k] eqn:Ek; [done|]. simpl in Hp.
    pose proof (parent_lt (S i) Hi).
    apply (Hh (S i) Hi).
    + simpl. rewrite lookup_app_l; [done | eauto using lookup_lt_Some].
    + rewrite Ek. simpl. rewrite lookup_app_l; [done | eauto using lookup_lt_Some].
  - assert (Hroot : heap !! 0 = Some x).
    { revert Hpop. unfold heappop.
      destruct (last heap) as [lastelt|] eqn:Hlast; [|discriminate].
      apply last_Some in Hlast as [front ->]. rewrite removelast_last.
      by destruct front as [|r front]; intros [= <- <-]. }
    intros y Hy.
    assert (Hin : y ∈ heap).
    { rewrite (HeapProps.heappop_perm lt heap x h Hpop). by right. }
    apply list_elem_of_lookup in Hin as [i Hi].
    by apply (is_heap_root heap x Hh Hroot i).
Qed.
End order.
End HeapOrder.

(** * Properties of the admission queue *)

Module QueueProps.
Import RequestQueue QueueSamples.
Local Open Scope Z_scope.

(** ** The slots of the semaphore *)

Lemma slots_inv_initial mc mq : 0 <= mc -> slots_inv (initial mc mq).
Proof. intros H. unfold slots_inv; simpl. lia. Qed.

Lemma __init___inv mc mq s0 :
  __init__ mc mq = Ret s0 -> 0 <= mc /\ s0 = initial mc mq.
Proof.
  unfold __init__. destruct (mc <? 0) eqn:E; [discriminate|].
  intros [= <-]. split; [lia | reflexivity].
Qed.

(** The transitions of the worker, taken apart. *)
Ltac case_running :=
  cbv zeta; cbn [_running set_ready set_queue set_workers_resuming];
  try match goal with
      | |- context [if _running ?s then _ else _] => destruct (_running s) eqn:?
      | H : context [if _running ?s then _ else _] |- _ => destruct (_running s) eqn:?
      end.

Ltac inv_get H q rest Hpop :=
  unfold _process_queue in H;
  destruct (workers_waiting _); [discriminate|];
  destruct (heapq.heappop _ _) as [[q rest]|] eqn:Hpop; [|discriminate];
  injection H as <-; case_running.

Ltac inv_resume H :=
  unfold _process_queue_resume in H;
  destruct (workers_resuming _); [discriminate|];
  injection H as <-; case_running.

Ltac inv_exit H :=
  unfold _process_queue_exit in H;
  destruct (workers_waiting _); [discriminate|];
  destruct (_running _ && _); [discriminate|];
  injection H as <-.

Lemma enqueue_request_frame id p now s :
  let s' := snd (enqueue_request id p now s) in
  max_concurrent s' = max_concurrent s /\ max_queue_size s' = max_queue_size s
  /\ active_requests s' = active_requests s /\ sem_value s' = sem_value s
  /\ sem_waiters s' = sem_waiters s /\ sem_granted s' = sem_granted s
  /\ ready s' = ready s /\ executing s' = executing s
  /\ _running s' = _running s /\ log_started s' = log_started s
  /\ workers_waiting s' = workers_waiting s
  /\ workers_resuming s' = workers_resuming s.
Proof.
  unfold enqueue_request.
  destruct (full _); simpl; [tauto|].
  destruct (get_estimated_wait_time _); simpl; tauto.
Qed.

Lemma wake_up_allowed_slots fuel s :
  0 <= sem_value s ->
  let s' := wake_up_allowed fuel s in
  0 <= sem_value s'
  /\ sem_value s' + Z.of_nat (length (sem_granted s'))
     = sem_value s + Z.of_nat (length (sem_granted s))
  /\ active_requests s' = active_requests s /\ executing s' = executing s
  /\ max_concurrent s' = max_concurrent s.
Proof.
  revert s. induction fuel as [|fuel IH]; intros s Hv; simpl; [tauto|].
  destruct (0 <? sem_value s) eqn:E; [|tauto].
  unfold _wake_up_next. destruct (sem_waiters s) as [|w ws]; [tauto|].
  match goal with |- context [wake_up_allowed fuel ?t] => specialize (IH t) end.
  simpl in IH. destruct IH as (H1 & H2 & H3 & H4 & H5); [lia|].
  rewrite length_app in H2. simpl in H2. repeat split; try assumption; lia.
Qed.

Lemma release_slots s :
  0 <= sem_value s ->
  let s' := release s in
  0 <= sem_value s'
  /\ sem_value s' + Z.of_nat (length (sem_granted s'))
     = sem_value s + Z.of_nat (length (sem_granted s)) + 1
  /\ active_requests s' = active_requests s /\ executing s' = executing s
  /\ max_concurrent s' = max_concurrent s.
Proof.
  intros Hv. unfold release, _wake_up_next; simpl.
  destruct (sem_waiters s) as [|w ws]; simpl.
  - repeat split; lia.
  - rewrite length_app; simpl. repeat split; lia.
Qed.

Lemma on_exception_frame q e s :
  let s' := on_exception q e s in
  max_concurrent s' = max_concurrent s /\ max_queue_size s' = max_queue_size s
  /\ queue s' = queue s
  /\ active_requests s' = active_requests s /\ sem_value s' = sem_value s
  /\ sem_waiters s' = sem_waiters s /\ sem_granted s' = sem_granted s
  /\ ready s' = ready s /\ executing s' = executing s
  /\ _running s' = _running s /\ log_started s' = log_started s
  /\ next_future s' = next_future s
  /\ workers_waiting s' = workers_waiting s
  /\ workers_resuming s' = workers_resuming s.
Proof.
  unfold on_exception.
  destruct (negb _); [destruct (set_exception _ _)|]; simpl; tauto.
Qed.

Lemma _execute_request_try_frame q o t s :
  let s' := _execute_request_try q o t s in
  max_concurrent s' = max_concurrent s /\ max_queue_size s' = max_queue_size s
  /\ queue s' = queue s
  /\ active_requests s' = active_requests s /\ sem_value s' = sem_value s
  /\ sem_waiters s' = sem_waiters s /\ sem_granted s' = sem_granted s
  /\ ready s' = ready s /\ executing s' = executing s
  /\ _running s' = _running s /\ log_started s' = log_started s
  /\ next_future s' = next_future s
  /\ workers_waiting s' = workers_waiting s
  /\ workers_resuming s' = workers_resuming s.
Proof.
  unfold _execute_request_try. destruct o as [result|msg|].
  - destruct (negb _); [destruct (set_result _ _)|]; [simpl; tauto| |simpl; tauto].
    match goal with |- context [on_exception q ?e ?u] =>
      pose proof (on_exception_frame q e u) as F end.
    simpl in F. exact F.
  - apply on_exception_frame.
  - simpl. tauto.
Qed.

Lemma step_slots_inv ev s s' :
  step ev s = Some s' -> slots_inv s -> slots_inv s'.
Proof.
  unfold slots_inv. intros Hstep (Hv & Hact & Hsum).
  destruct ev as [| |rid prio now|fid| |now| |i o t| | |]; simpl in Hstep.
  - injection Hstep as <-. unfold start. destruct (_running s); simpl; auto.
  - injection Hstep as <-. simpl; auto.
  - injection Hstep as <-.
    destruct (enqueue_request_frame rid prio now s)
      as (E1 & _ & E2 & E3 & _ & E4 & _ & E5 & _).
    rewrite E1, E2, E3, E4, E5. auto.
  - unfold enqueue_request_timeout in Hstep.
    destruct (futures s !! fid) as [f|]; [|discriminate].
    destruct (done f); [discriminate|]. injection Hstep as <-. simpl; auto.
  - inv_get Hstep q rest Hpop; simpl; auto.
  - unfold _execute_request_begin in Hstep.
    destruct (ready s) as [|q rest]; [discriminate|].
    unfold locked in Hstep; simpl in Hstep.
    destruct (sem_value s =? 0) eqn:E0; simpl in Hstep.
    + injection Hstep as <-. simpl; auto.
    + destruct (bool_decide _); simpl in Hstep; injection Hstep as <-; simpl; auto.
      rewrite length_app; simpl. repeat split; lia.
  - unfold _execute_request_resume in Hstep.
    destruct (sem_granted s) as [|q rest] eqn:Eg; [discriminate|].
    injection Hstep as <-.
    match goal with |- context [wake_up_allowed ?n ?t] =>
      destruct (wake_up_allowed_slots n t) as (H1 & H2 & H3 & H4 & H5) end;
      [simpl; lia|].
    simpl in *. rewrite H4, H3, H5, length_app. simpl. repeat split; lia.
  - unfold _execute_request_finish in Hstep.
    destruct (executing s !! i) as [q|] eqn:Ei; [|discriminate].
    injection Hstep as <-.
    match goal with |- context [_execute_request_try q o t ?u] =>
      destruct (_execute_request_try_frame q o t u)
        as (F1 & _ & _ & F2 & F3 & _ & F4 & _ & F5 & _) end.
    simpl in F1, F2, F3, F4, F5.
    match goal with |- context [release ?u] =>
      destruct (release_slots u) as (H1 & H2 & H3 & H4 & H5) end;
      [simpl; lia|].
    match goal with |- context [release ?u] => set (r := release u) in * end.
    simpl in H2, H3, H4, H5.
    rewrite F3, F4 in H2. rewrite H4, H3, H5, F1, F2, F5.
    rewrite length_delete by eauto.
    apply lookup_lt_Some in Ei. repeat split; lia.
  - injection Hstep as <-. simpl; auto.
  - inv_resume Hstep; simpl; auto.
  - inv_exit Hstep. simpl; auto.
Qed.

(** Permutations between concatenations that differ by the place of one item. *)
Ltac solve_perm :=
  rewrite <- ?app_assoc; simpl;
  rewrite ?app_assoc; rewrite <- ?Permutation_cons_append;
  rewrite <- ?app_assoc; simpl;
  rewrite <- ?Permutation_middle; done.

Lemma run_invariant (I : state -> Prop) :
  (forall ev s s', step ev s = Some s' -> I s -> I s') ->
  forall evs s s', run evs s = Some s' -> I s -> I s'.
Proof.
  intros Hstep evs. induction evs as [|ev evs IH]; intros s s' Hrun Hs; simpl in Hrun.
  - by injection Hrun as <-.
  - destruct (step ev s) as [s1|] eqn:E; [|discriminate]. eauto.
Qed.

Lemma run_app evs1 evs2 s :
  run (evs1 ++ evs2) s = s1 ← run evs1 s; run evs2 s1.
Proof.
  revert s. induction evs1 as [|ev evs1 IH]; intros s; simpl; [done|].
  destruct (step ev s); simpl; [apply IH | done].
Qed.

Lemma reachable_step mc mq ev s s' :
  reachable mc mq s -> step ev s = Some s' -> reachable mc mq s'.
Proof.
  intros (s0 & evs & Hinit & Hrun) Hstep. exists s0, (evs ++ [ev]).
  split; [done|]. rewrite run_app, Hrun. simpl. by rewrite Hstep.
Qed.

Lemma reachable_run mc mq evs s s' :
  reachable mc mq s -> run evs s = Some s' -> reachable mc mq s'.
Proof.
  intros (s0 & evs0 & Hinit & Hrun0) Hrun. exists s0, (evs0 ++ evs).
  split; [done|]. rewrite run_app, Hrun0. done.
Qed.

Lemma reachable_invariant (I : state -> Prop) mc mq :
  (0 <= mc -> I (initial mc mq)) ->
  (forall ev s s', step ev s = Some s' -> I s -> I s') ->
  forall s, reachable mc mq s -> I s.
Proof.
  intros Hinit Hstep s (s0 & evs & H0 & Hrun).
  apply __init___inv in H0 as [Hmc ->].
  eapply run_invariant; eauto.
Qed.

(** ** What the semaphore operations leave alone *)

Lemma sem_only_refl s : sem_only s s.
Proof. unfold sem_only. tauto. Qed.

Lemma sem_only_trans s1 s2 s3 : sem_only s1 s2 -> sem_only s2 s3 -> sem_only s1 s3.
Proof. unfold sem_only. intuition congruence. Qed.

Lemma _wake_up_next_sem_only s s' : _wake_up_next s = Some s' -> sem_only s s'.
Proof.
  unfold _wake_up_next, sem_only.
  destruct (sem_waiters s) as [|w ws]; [discriminate|]. intros [= <-]. simpl.
  rewrite <- app_assoc. tauto.
Qed.

Lemma wake_up_allowed_sem_only fuel s : sem_only s (wake_up_allowed fuel s).
Proof.
  revert s. induction fuel as [|fuel IH]; intros s; simpl; [apply sem_only_refl|].
  destruct (0 <? sem_value s); [|apply sem_only_refl].
  destruct (_wake_up_next s) as [s'|] eqn:E; [|apply sem_only_refl].
  eapply sem_only_trans; [by apply _wake_up_next_sem_only | apply IH].
Qed.

Lemma release_sem_only s : sem_only s (release s).
Proof.
  unfold release.
  destruct (_wake_up_next _) as [s'|] eqn:E.
  - apply _wake_up_next_sem_only in E. unfold sem_only in *. simpl in E. tauto.
  - unfold sem_only. simpl. tauto.
Qed.

(** ** Requests and their futures *)

Lemma wf_initial mc mq : wf (initial mc mq).
Proof.
  split; simpl.
  - intros. apply lookup_empty.
  - intros fid f. by rewrite lookup_empty.
  - constructor.
  - intros q Hq. by apply elem_of_nil in Hq.
Qed.

Lemma wf_transfer s s' :
  futures s' = futures s -> next_future s' = next_future s ->
  pipeline s' ≡ₚ pipeline s -> wf s -> wf s'.
Proof.
  intros Hf Hn Hp [H1 H2 H3 H4]. split; rewrite ?Hf, ?Hn; auto.
  - by rewrite Hp.
  - intros q Hq. rewrite Hp in Hq. auto.
Qed.

Lemma sem_only_pipeline s s' : sem_only s s' -> pipeline s' = pipeline s.
Proof.
  unfold sem_only, pipeline. intros (-> & -> & -> & -> & _). done.
Qed.

Lemma sem_only_wf s s' : sem_only s s' -> wf s -> wf s'.
Proof.
  intros H. apply wf_transfer; [apply H | apply H |].
  by rewrite (sem_only_pipeline s s').
Qed.

Lemma wf_future_lt s q f :
  wf s -> futures s !! future q = Some f -> (future q < next_future s)%nat.
Proof.
  intros Hwf Hf. destruct (decide (future q < next_future s)%nat); [done|].
  rewrite (wf_fresh s Hwf (future q)) in Hf by lia. done.
Qed.

(** ** The effect of each operation *)

Lemma enqueue_request_full id p now s :
  full s = true ->
  enqueue_request id p now s
  = (Raise QueueFull,
     set_rejected_requests (rejected_requests s + 1)
       (set_total_requests (total_requests s + 1) s)).
Proof.
  intros Hfull. unfold enqueue_request.
  change (full (set_total_requests (total_requests s + 1) s)) with (full s).
  by rewrite Hfull.
Qed.

Lemma enqueue_request_not_full id p now s :
  full s = false ->
  snd (enqueue_request id p now s) = enqueued id p now s
  /\ (max_concurrent s <> 0 ->
      fst (enqueue_request id p now s) = Ret (next_future s)).
Proof.
  intros Hfull. unfold enqueue_request.
  change (full (set_total_requests (total_requests s + 1) s)) with (full s).
  rewrite Hfull. cbv zeta.
  fold (enqueued id p now s).
  split.
  - by destruct (get_estimated_wait_time _).
  - intros Hmc. unfold get_estimated_wait_time.
    destruct (qsize _ =? 0); [done|].
    destruct (max_concurrent _ =? 0) eqn:E; [|done].
    simpl in E. lia.
Qed.

Lemma on_exception_futures q e s :
  futures (on_exception q e s)
  = if done (the_future q s) then futures s
    else <[future q := mkFuture (FAILED e) (S (fut_sets (the_future q s)))]> (futures s).
Proof.
  unfold on_exception, set_exception.
  destruct (done (the_future q s)); reflexivity.
Qed.

Lemma _execute_request_try_futures q o t s :
  futures (_execute_request_try q o t s)
  = match stored o with
    | Some st =>
        if done (the_future q s) then futures s
        else <[future q := mkFuture st (S (fut_sets (the_future q s)))]> (futures s)
    | None => futures s
    end.
Proof.
  destruct o as [result|msg|]; simpl.
  - unfold _execute_request_try, set_result.
    change (the_future q (set_recent_execution_times _ _)) with (the_future q s).
    destruct (done (the_future q s)); reflexivity.
  - apply on_exception_futures.
  - reflexivity.
Qed.

Lemma elem_of_pipeline s q :
  q ∈ pipeline s <->
  q ∈ queue s \/ q ∈ ready s \/ q ∈ sem_granted s \/ q ∈ sem_waiters s
  \/ q ∈ executing s.
Proof. unfold pipeline. rewrite !elem_of_app. tauto. Qed.

Lemma step_wf ev s s' : step ev s = Some s' -> wf s -> wf s'.
Proof.
  intros Hstep Hwf.
  destruct ev as [| |rid prio now|fid| |now| |i o t| | |]; simpl in Hstep.
  - injection Hstep as <-. revert Hwf. apply wf_transfer; try done;
      unfold start; destruct (_running s); done.
  - injection Hstep as <-. revert Hwf. by apply wf_transfer.
  - injection Hstep as <-.
    destruct (full s) eqn:Hfull.
    + rewrite enqueue_request_full by done. simpl.
      revert Hwf. by apply wf_transfer.
    + destruct (enqueue_request_not_full rid prio now s Hfull) as [-> _].
      assert (Hp : pipeline (enqueued rid prio now s)
                   ≡ₚ mkQueuedRequest rid prio now (next_future s) :: pipeline s).
      { unfold pipeline; simpl. by rewrite HeapProps.heappush_perm. }
      destruct Hwf as [H1 H2 H3 H4]. split; simpl.
      * intros fid Hfid. rewrite lookup_insert_ne by lia. apply H1. lia.
      * intros fid f. rewrite lookup_insert. case_decide as E.
        -- by intros [= <-].
        -- apply H2.
      * rewrite Hp. simpl. constructor; [|done].
        intros Hin. apply list_elem_of_fmap in Hin as (q & Hq & Hin).
        destruct (H4 q Hin) as (f & Hf & _).
        rewrite <- Hq, H1 in Hf by lia. done.
      * intros q Hq. rewrite Hp in Hq. apply elem_of_cons in Hq as [->|Hq].
        -- simpl. rewrite lookup_insert_eq. by eexists.
        -- destruct (H4 q Hq) as (f & Hf & Hs). exists f. split; [|done].
           rewrite lookup_insert_ne; [done|].
           intros E. rewrite <- E, H1 in Hf by lia. done.
  - unfold enqueue_request_timeout in Hstep.
    destruct (futures s !! fid) as [f|] eqn:Hf; [|discriminate].
    destruct (done f) eqn:Hd; [discriminate|]. injection Hstep as <-.
    assert (Hc : cancel f = mkFuture CANCELLED 0).
    { unfold cancel. rewrite Hd. f_equal.
      rewrite (wf_sets s Hwf fid f Hf). unfold done in Hd.
      by destruct (fut_state f). }
    destruct Hwf as [H1 H2 H3 H4]. split; simpl.
    + intros fid' Hfid. rewrite lookup_insert_ne; [by apply H1|].
      intros ->. rewrite H1 in Hf by done. done.
    + intros fid' f'. rewrite lookup_insert. case_decide as E.
      * rewrite Hc. by intros [= <-].
      * apply H2.
    + done.
    + intros q Hq. change (pipeline _) with (pipeline s) in Hq.
      destruct (H4 q Hq) as (f' & Hf' & Hs).
      rewrite lookup_insert. case_decide as E.
      * rewrite Hc. by eexists.
      * by exists f'.
  - inv_get Hstep q rest Hpop; revert Hwf; apply wf_transfer; try done;
      unfold pipeline; simpl; apply HeapProps.heappop_perm in Hpop;
      rewrite Hpop; solve_perm.
  - unfold _execute_request_begin in Hstep.
    destruct (ready s) as [|q rest] eqn:Hr; [discriminate|].
    destruct (locked _); injection Hstep as <-; revert Hwf;
      apply wf_transfer; try done; unfold pipeline; simpl; rewrite Hr.
    + solve_perm.
    + solve_perm.
  - unfold _execute_request_resume in Hstep.
    destruct (sem_granted s) as [|q rest] eqn:Hg; [discriminate|].
    injection Hstep as <-.
    match goal with |- context [wake_up_allowed ?n ?u] =>
      pose proof (wake_up_allowed_sem_only n u) as Hs end.
    pose proof (sem_only_pipeline _ _ Hs) as Hp.
    destruct Hs as (S1 & S2 & S3 & S4 & S5 & S6 & _).
    revert Hwf. apply wf_transfer; [done | done |].
    unfold pipeline in *. simpl in *. rewrite S1, S2, S3, S4, Hg.
    solve_perm.
  - unfold _execute_request_finish in Hstep.
    destruct (executing s !! i) as [q|] eqn:Hi; [|discriminate].
    injection Hstep as <-.
    eapply sem_only_wf; [apply release_sem_only|].
    set (u := set_executing (delete i (executing s)) s).
    pose proof (_execute_request_try_frame q o t u)
      as (_ & _ & F1 & _ & _ & F2 & F3 & F4 & F5 & _ & _ & F6 & _).
    pose proof (_execute_request_try_futures q o t u) as Hfut.
    set (v := _execute_request_try q o t u) in *.
    assert (Hp : pipeline s ≡ₚ q :: pipeline v).
    { unfold pipeline. rewrite F1, F2, F3, F4, F5. subst u; simpl.
      rewrite (delete_Permutation _ _ _ Hi) at 1. solve_perm. }
    assert (Hq : q ∈ pipeline s) by (rewrite Hp; left).
    destruct Hwf as [H1 H2 H3 H4].
    destruct (H4 q Hq) as (f & Hf & Hs).
    assert (Hthe : the_future q u = f) by (unfold the_future; simpl; by rewrite Hf).
    rewrite Hthe in Hfut. change (futures u) with (futures s) in Hfut.
    rewrite Hp in H3. simpl in H3. apply NoDup_cons in H3 as [Hnotin H3].
    split; simpl; rewrite ?F6; change (next_future u) with (next_future s).
    + intros fid Hfid. rewrite Hfut.
      destruct (stored o) as [st|]; [|by apply H1].
      destruct (done f); [by apply H1|].
      rewrite lookup_insert_ne; [by apply H1|].
      intros E. rewrite E, H1 in Hf by done. done.
    + intros fid f'. rewrite Hfut.
      destruct (stored o) as [st|] eqn:Hst; [|apply H2].
      destruct (done f) eqn:Hd; [apply H2|].
      rewrite lookup_insert. case_decide as E; [|apply H2].
      intros [= <-]. simpl. rewrite Hs. by destruct o; simplify_eq/=.
    + done.
    + intros q' Hq'. change (pipeline _) with (pipeline v) in Hq'.
      assert (Hne : future q <> future q').
      { intros E. apply Hnotin. rewrite E. by apply list_elem_of_fmap_2. }
      destruct (H4 q') as (f' & Hf' & Hs'); [rewrite Hp; by right|].
      exists f'. split; [|done]. rewrite Hfut.
      destruct (stored o) as [st|]; [|done].
      destruct (done f); [done|]. by rewrite lookup_insert_ne.
  - injection Hstep as <-. revert Hwf. by apply wf_transfer.
  - inv_resume Hstep; revert Hwf; by apply wf_transfer.
  - inv_exit Hstep. revert Hwf. by apply wf_transfer.
Qed.

(** ** Configuration *)

Lemma step_config ev s s' :
  step ev s = Some s' ->
  max_concurrent s' = max_concurrent s /\ max_queue_size s' = max_queue_size s.
Proof.
  intros Hstep.
  destruct ev as [| |rid prio now|fid| |now| |i o t| | |]; simpl in Hstep.
  - injection Hstep as <-. unfold start. by destruct (_running s).
  - by injection Hstep as <-.
  - injection Hstep as <-.
    pose proof (enqueue_request_frame rid prio now s) as F. simpl in F. tauto.
  - unfold enqueue_request_timeout in Hstep.
    destruct (futures s !! fid) as [f|]; [|discriminate].
    destruct (done f); [discriminate|]. by injection Hstep as <-.
  - inv_get Hstep q rest Hpop; done.
  - unfold _execute_request_begin in Hstep.
    destruct (ready s) as [|q rest]; [discriminate|].
    destruct (locked _); by injection Hstep as <-.
  - unfold _execute_request_resume in Hstep.
    destruct (sem_granted s) as [|q rest]; [discriminate|].
    injection Hstep as <-.
    match goal with |- context [wake_up_allowed ?n ?u] =>
      pose proof (wake_up_allowed_sem_only n u) as Hs end.
    unfold sem_only in Hs. simpl in *. tauto.
  - unfold _execute_request_finish in Hstep.
    destruct (executing s !! i) as [q|]; [|discriminate].
    injection Hstep as <-.
    match goal with |- context [release ?u] =>
      pose proof (release_sem_only u) as Hs end.
    match goal with |- context [_execute_request_try q o t ?u] =>
      pose proof (_execute_request_try_frame q o t u) as F end.
    unfold sem_only in Hs. simpl in *.
    destruct Hs as (_ & _ & _ & _ & _ & _ & -> & -> & _). tauto.
  - by injection Hstep as <-.
  - inv_resume Hstep; done.
  - by inv_exit Hstep.
Qed.

Lemma reachable_config mc mq s :
  reachable mc mq s -> max_concurrent s = mc /\ max_queue_size s = mq.
Proof.
  apply (reachable_invariant
           (fun s => max_concurrent s = mc /\ max_queue_size s = mq)).
  - done.
  - intros ev s1 s2 Hstep [<- <-]. by apply step_config in Hstep.
Qed.

Lemma reachable_slots mc mq s : reachable mc mq s -> slots_inv s.
Proof.
  apply (reachable_invariant slots_inv).
  - apply slots_inv_initial.
  - apply step_slots_inv.
Qed.

Lemma reachable_wf mc mq s : reachable mc mq s -> wf s.
Proof.
  apply (reachable_invariant wf).
  - intros _. apply wf_initial.
  - apply step_wf.
Qed.

(** ** The concurrency bound *)

(** C1.  In every state the manager can reach, [active_requests] is the
    number of requests whose task is being awaited, it is never negative and
    it never exceeds [max_concurrent]. *)
Theorem C1_in_flight_bounded mc mq s :
  reachable mc mq s ->
  0 <= active_requests s <= mc
  /\ active_requests s = Z.of_nat (length (executing s)).
Proof.
  intros Hr.
  destruct (reachable_slots _ _ _ Hr) as (Hv & Hact & Hsum).
  destruct (reachable_config _ _ _ Hr) as [Hmc _].
  split; [|done]. lia.
Qed.

Lemma C1_in_flight_bounded_witness :
  exists s, run C1_events (initial 2 5) = Some s
            /\ 0 <= active_requests s <= 2
            /\ active_requests s = Z.of_nat (length (executing s)).
Proof.
  destruct (run C1_events (initial 2 5)) as [s|] eqn:E; [|by vm_compute in E].
  exists s. split; [done|].
  apply (C1_in_flight_bounded 2 5 s).
  exists (initial 2 5), C1_events. split; [reflexivity | exact E].
Defined.

(** ** Futures are written once *)

Lemma step_done_stable ev s s' fid f :
  wf s -> step ev s = Some s' ->
  futures s !! fid = Some f -> done f = true -> futures s' !! fid = Some f.
Proof.
  intros Hwf Hstep Hf Hd.
  destruct ev as [| |rid prio now|fid'| |now| |i o t| | |]; simpl in Hstep.
  - injection Hstep as <-. unfold start. by destruct (_running s).
  - by injection Hstep as <-.
  - injection Hstep as <-. destruct (full s) eqn:Hfull.
    + by rewrite enqueue_request_full.
    + destruct (enqueue_request_not_full rid prio now s Hfull) as [-> _].
      simpl. rewrite lookup_insert_ne; [done|].
      intros E. rewrite <- E, (wf_fresh s Hwf) in Hf by done. done.
  - unfold enqueue_request_timeout in Hstep.
    destruct (futures s !! fid') as [f'|] eqn:Hf'; [|discriminate].
    destruct (done f') eqn:Hd'; [discriminate|]. injection Hstep as <-.
    simpl. rewrite lookup_insert_ne; [done|]. congruence.
  - inv_get Hstep q rest Hpop; done.
  - unfold _execute_request_begin in Hstep.
    destruct (ready s) as [|q rest]; [discriminate|].
    destruct (locked _); by injection Hstep as <-.
  - unfold _execute_request_resume in Hstep.
    destruct (sem_granted s) as [|q rest]; [discriminate|].
    injection Hstep as <-.
    match goal with |- context [wake_up_allowed ?n ?u] =>
      pose proof (wake_up_allowed_sem_only n u) as Hs end.
    unfold sem_only in Hs. simpl in *.
    destruct Hs as (_ & _ & _ & _ & -> & _). done.
  - unfold _execute_request_finish in Hstep.
    destruct (executing s !! i) as [q|]; [|discriminate].
    injection Hstep as <-.
    match goal with |- context [release ?u] =>
      pose proof (release_sem_only u) as Hs end.
    unfold sem_only in Hs. simpl in Hs.
    destruct Hs as (_ & _ & _ & _ & -> & _).
    rewrite _execute_request_try_futures. simpl.
    destruct (stored o) as [st|]; [|done].
    destruct (done (the_future q _)) eqn:Hq; [done|].
    rewrite lookup_insert_ne; [done|].
    intros E. unfold the_future in Hq. simpl in Hq. rewrite E, Hf in Hq.
    simpl in Hq. congruence.
  - by injection Hstep as <-.
  - inv_resume Hstep; done.
  - by inv_exit Hstep.
Qed.

Lemma run_done_stable evs s s' fid f :
  wf s -> run evs s = Some s' ->
  futures s !! fid = Some f -> done f = true -> futures s' !! fid = Some f.
Proof.
  revert s. induction evs as [|ev evs IH]; intros s Hwf Hrun Hf Hd; simpl in Hrun.
  - by injection Hrun as <-.
  - destruct (step ev s) as [s1|] eqn:E; [|discriminate].
    apply (IH s1); [by eapply step_wf | done | by eapply step_done_stable | done].
Qed.

Lemma timeout_cancels s s' fid :
  wf s -> step (EvTimeout fid) s = Some s' ->
  futures s' !! fid = Some (mkFuture CANCELLED 0)
  /\ timeout_requests s' = timeout_requests s + 1.
Proof.
  intros Hwf Hstep. simpl in Hstep. unfold enqueue_request_timeout in Hstep.
  destruct (futures s !! fid) as [f|] eqn:Hf; [|discriminate].
  destruct (done f) eqn:Hd; [discriminate|]. injection Hstep as <-. simpl.
  rewrite lookup_insert_eq. split; [|done]. f_equal.
  unfold cancel. rewrite Hd. f_equal.
  rewrite (wf_sets s Hwf fid f Hf). unfold done in Hd. by destruct (fut_state f).
Qed.

Lemma release_sum s :
  sem_value (release s) + Z.of_nat (length (sem_granted (release s)))
  = sem_value s + Z.of_nat (length (sem_granted s)) + 1.
Proof.
  unfold release, _wake_up_next; simpl.
  destruct (sem_waiters s) as [|w ws]; simpl; [lia|].
  rewrite length_app; simpl. lia.
Qed.

Lemma finish_releases s i q o t :
  executing s !! i = Some q ->
  exists s', step (EvTaskDone i o t) s = Some s'
    /\ executing s' = delete i (executing s)
    /\ active_requests s' = active_requests s - 1
    /\ sem_value s' + Z.of_nat (length (sem_granted s'))
       = sem_value s + Z.of_nat (length (sem_granted s)) + 1.
Proof.
  intros Hi. simpl. unfold _execute_request_finish. rewrite Hi.
  eexists. split; [reflexivity|].
  match goal with |- context [_execute_request_try q o t ?u] =>
    pose proof (_execute_request_try_frame q o t u)
      as (_ & _ & _ & F2 & F3 & _ & F4 & _ & F5 & _) end.
  match goal with |- context [release ?u] =>
    pose proof (release_sem_only u) as (_ & _ & _ & S1 & _ & _ & _ & _ & _ & _ & S2 & _);
    pose proof (release_sum u) as S3;
    set (r := release u) in * end.
  simpl in S1, S2, S3, F2, F3, F4, F5.
  rewrite S1, S2, S3, F5, F2, F3, F4. done.
Qed.

(** C3.  In every reachable state: a future has been set at most once, and
    exactly when it holds a result or an exception; a future that is done
    (set, or cancelled by the caller's timeout) is never changed again, so
    after a timeout the future stays cancelled and unset whatever the task
    does later; and the end of the task of any executing request, whatever
    the state of its future, takes it out of the executing requests, lowers
    [active_requests] and gives its slot back to the semaphore. *)
Theorem C3_single_write mc mq s :
  reachable mc mq s ->
  (forall fid f, futures s !! fid = Some f ->
     (fut_sets f <= 1)%nat /\ fut_sets f = written (fut_state f))
  /\ (forall fid f evs s', futures s !! fid = Some f -> done f = true ->
        run evs s = Some s' -> futures s' !! fid = Some f)
  /\ (forall fid s1 evs s2, step (EvTimeout fid) s = Some s1 ->
        run evs s1 = Some s2 ->
        futures s2 !! fid = Some (mkFuture CANCELLED 0))
  /\ (forall i q o t, executing s !! i = Some q ->
        exists s', step (EvTaskDone i o t) s = Some s'
          /\ executing s' = delete i (executing s)
          /\ active_requests s' = active_requests s - 1
          /\ sem_value s' + Z.of_nat (length (sem_granted s'))
             = sem_value s + Z.of_nat (length (sem_granted s)) + 1).
Proof.
  intros Hr. pose proof (reachable_wf _ _ _ Hr) as Hwf.
  split; [|split; [|split]].
  - intros fid f Hf. pose proof (wf_sets s Hwf fid f Hf) as E.
    split; [|done]. rewrite E. destruct (fut_state f); simpl; lia.
  - intros fid f evs s' Hf Hd Hrun. eapply run_done_stable; eauto.
  - intros fid s1 evs s2 Hstep Hrun.
    destruct (timeout_cancels s s1 fid Hwf Hstep) as [Hc _].
    apply (run_done_stable evs s1 s2 fid _ (step_wf _ _ _ Hstep Hwf) Hrun Hc).
    reflexivity.
  - intros i q o t Hi. exact (finish_releases s i q o t Hi).
Qed.

Lemma C3_single_write_witness :
  exists s, run C3_events (initial 1 5) = Some s
    /\ (forall evs s', run evs s = Some s' ->
          futures s' !! 0%nat = Some (mkFuture CANCELLED 0))
    /\ (exists s', step (EvTaskDone 0 (Returns "late") 700) s = Some s'
          /\ executing s' = [] /\ active_requests s' = 0).
Proof.
  destruct (run C3_events (initial 1 5)) as [s|] eqn:E; [|by vm_compute in E].
  exists s. split; [done|].
  assert (Hr : reachable 1 5 s).
  { exists (initial 1 5), C3_events. split; [reflexivity | exact E]. }
  destruct (C3_single_write 1 5 s Hr) as (_ & Hstable & _ & Hfree).
  assert (Es : futures s !! 0%nat = Some (mkFuture CANCELLED 0)
               /\ executing s !! 0%nat = Some (mkQueuedRequest "slow" NORMAL 10 0)
               /\ length (executing s) = 1%nat /\ active_requests s = 1).
  { vm_compute in E. injection E as <-. vm_compute. done. }
  destruct Es as (Ef & Ex & El & Ea).
  split.
  - intros evs s' Hrun. by apply (Hstable 0%nat _ evs s' Ef).
  - destruct (Hfree 0%nat _ (Returns "late") 700%Q Ex) as (s' & Hs' & He & Hact & _).
    exists s'. split; [done|]. split; [|lia].
    rewrite He. destruct (executing s) as [|x [|y l]]; simpl in *; congruence.
Defined.

(** ** Rejection at capacity *)

Lemma heappush_length (heap : list QueuedRequest) x :
  length (heapq.heappush QueuedRequest_lt heap x) = S (length heap).
Proof.
  by rewrite (Permutation_length (HeapProps.heappush_perm QueuedRequest_lt heap x)).
Qed.

Lemma full_iff s :
  full s = true <-> 1 <= max_queue_size s /\ max_queue_size s <= qsize s.
Proof.
  unfold full. destruct (max_queue_size s <=? 0) eqn:E.
  - split; [done | lia].
  - rewrite Z.leb_le. lia.
Qed.

Lemma submit_below reqs s :
  max_concurrent s <> 0 -> 1 <= max_queue_size s ->
  qsize s + Z.of_nat (length reqs) <= max_queue_size s ->
  let s' := snd (submit reqs s) in
  fst (submit reqs s) = Ret <$> seq (next_future s) (length reqs)
  /\ qsize s' = qsize s + Z.of_nat (length reqs)
  /\ rejected_requests s' = rejected_requests s
  /\ total_requests s' = total_requests s + Z.of_nat (length reqs)
  /\ next_future s' = (next_future s + length reqs)%nat
  /\ max_concurrent s' = max_concurrent s /\ max_queue_size s' = max_queue_size s.
Proof.
  revert s. induction reqs as [|[[id p] now] reqs IH]; intros s Hmc Hmq Hroom; simpl.
  - repeat split; lia.
  - cbn [length] in Hroom.
    assert (Hfull : full s = false).
    { destruct (full s) eqn:E; [|done]. apply full_iff in E. lia. }
    destruct (enqueue_request_not_full id p now s Hfull) as [Hs Ho].
    specialize (Ho Hmc).
    destruct (enqueue_request id p now s) as [o s1]. simpl in Hs, Ho. subst o s1.
    specialize (IH (enqueued id p now s)).
    assert (Hq : qsize (enqueued id p now s) = qsize s + 1).
    { unfold qsize; simpl. rewrite heappush_length. lia. }
    destruct IH as (I1 & I2 & I3 & I4 & I5 & I6 & I7);
      [done | done
       | change (max_queue_size (enqueued id p now s)) with (max_queue_size s); lia |].
    destruct (submit reqs (enqueued id p now s)) as [os s2]. simpl in *.
    rewrite I1, I2, I3, I4, I5, I6, I7, Hq. repeat split; try done; lia.
Qed.

(** C4, as the code has it.  With a capacity of at least one: when the
    buffer holds as many requests as the capacity, [enqueue_request] raises
    [QueueFull] before it creates a future or touches the buffer, and counts
    one more submission and one more rejection; and, with a concurrency limit
    that is not zero, submitting capacity + 1 requests to an empty buffer
    gives capacity callers that wait for their futures, then one
    [QueueFull], and the rejection counter goes up by exactly one. *)
Theorem C4_capacity_rejection s :
  1 <= max_queue_size s ->
  (qsize s = max_queue_size s ->
   forall id p now,
     enqueue_request id p now s
     = (Raise QueueFull,
        set_rejected_requests (rejected_requests s + 1)
          (set_total_requests (total_requests s + 1) s)))
  /\ (max_concurrent s <> 0 -> queue s = [] ->
      forall reqs,
        length reqs = S (Z.to_nat (max_queue_size s)) ->
        fst (submit reqs s)
        = (Ret <$> seq (next_future s) (Z.to_nat (max_queue_size s)))
            ++ [Raise QueueFull]
        /\ rejected_requests (snd (submit reqs s)) = rejected_requests s + 1
        /\ qsize (snd (submit reqs s)) = max_queue_size s).
Proof.
  intros Hcap. split.
  - intros Hq id p now. apply enqueue_request_full. apply full_iff. lia.
  - intros Hmc Hempty reqs Hlen.
    destruct (exists_last (l := reqs)) as (front & [[id p] now] & ->).
    { intros ->. discriminate. }
    rewrite length_app in Hlen. simpl in Hlen.
    assert (Hfront : length front = Z.to_nat (max_queue_size s)) by lia.
    assert (Hsub : forall l1 l2 u,
               submit (l1 ++ l2) u
               = (fst (submit l1 u) ++ fst (submit l2 (snd (submit l1 u))),
                  snd (submit l2 (snd (submit l1 u))))).
    { induction l1 as [|[[i1 p1] n1] l1 IH]; intros l2 u; simpl.
      - by destruct (submit l2 u).
      - destruct (enqueue_request i1 p1 n1 u) as [o u1]. rewrite IH.
        destruct (submit l1 u1) as [os u2]. simpl.
        by destruct (submit l2 u2). }
    rewrite Hsub. simpl.
    destruct (submit_below front s) as (I1 & I2 & I3 & _ & _ & I6 & I7);
      [done | done | unfold qsize; rewrite Hempty; simpl; lia |].
    set (s1 := snd (submit front s)) in *.
    assert (Hfull : full s1 = true).
    { apply full_iff. rewrite I7, I2. unfold qsize at 1. rewrite Hempty. simpl. lia. }
    rewrite (enqueue_request_full id p now s1 Hfull). simpl.
    rewrite I1, Hfront, I3. repeat split.
    change (qsize _) with (qsize s1). rewrite I2. unfold qsize. rewrite Hempty. simpl. lia.
Qed.

Lemma C4_capacity_rejection_witness :
  fst (submit [("r1", NORMAL, 1); ("r2", HIGH, 2); ("r3", LOW, 3)] (initial 2 2))
  = [Ret 0%nat; Ret 1%nat; Raise QueueFull]
  /\ rejected_requests
       (snd (submit [("r1", NORMAL, 1); ("r2", HIGH, 2); ("r3", LOW, 3)] (initial 2 2)))
     = 1.
Proof.
  assert (Hcap : 1 <= max_queue_size (initial 2 2)) by (simpl; lia).
  destruct (C4_capacity_rejection (initial 2 2) Hcap) as [_ H].
  destruct (H ltac:(simpl; lia) eq_refl
              [("r1", NORMAL, 1); ("r2", HIGH, 2); ("r3", LOW, 3)] eq_refl)
    as (H1 & H2 & _).
  split; [exact H1 | exact H2].
Defined.

(** C4, as stated, fails for a capacity of zero, which [asyncio] takes as
    "no bound": the buffer holds as many requests as the capacity, none, and
    the submission is accepted. *)
Lemma C4_counterexample :
  qsize (initial 1 0) = max_queue_size (initial 1 0)
  /\ fst (enqueue_request "r1" NORMAL 0 (initial 1 0)) = Ret 0%nat
  /\ rejected_requests (snd (enqueue_request "r1" NORMAL 0 (initial 1 0))) = 0
  /\ fst (submit [("r1", NORMAL, 0)] (initial 1 0)) = [Ret 0%nat].
Proof. vm_compute. done. Qed.

(** ** Stopping *)

Lemma step_buffer_frame ev s s' :
  step ev s = Some s' ->
  match ev with
  | EvTimeout _ | EvExecuteBegin _ | EvExecuteResume | EvTaskDone _ _ _
  | EvResetMetrics | EvWorkerResume | EvWorkerExit =>
      queue s' = queue s /\ _running s' = _running s
  | _ => True
  end.
Proof.
  intros Hstep.
  destruct ev as [| |rid prio now|fid| |now| |i o t| | |]; simpl in Hstep; try done.
  - unfold enqueue_request_timeout in Hstep.
    destruct (futures s !! fid) as [f|]; [|discriminate].
    destruct (done f); [discriminate|]. by injection Hstep as <-.
  - unfold _execute_request_begin in Hstep.
    destruct (ready s) as [|q rest]; [discriminate|].
    destruct (locked _); by injection Hstep as <-.
  - unfold _execute_request_resume in Hstep.
    destruct (sem_granted s) as [|q rest]; [discriminate|].
    injection Hstep as <-.
    match goal with |- context [wake_up_allowed ?n ?u] =>
      pose proof (wake_up_allowed_sem_only n u) as Hs end.
    unfold sem_only in Hs. simpl in *. tauto.
  - unfold _execute_request_finish in Hstep.
    destruct (executing s !! i) as [q|]; [|discriminate].
    injection Hstep as <-.
    match goal with |- context [release ?u] =>
      pose proof (release_sem_only u) as Hs end.
    match goal with |- context [_execute_request_try q o t ?u] =>
      pose proof (_execute_request_try_frame q o t u) as F end.
    unfold sem_only in Hs. simpl in *.
    destruct Hs as (_ & -> & _ & _ & _ & _ & _ & _ & -> & _). tauto.
  - by injection Hstep as <-.
  - inv_resume Hstep; done.
  - by inv_exit Hstep.
Qed.

(** The workers in the transitions that are not theirs. *)
Lemma step_workers_frame ev s s' :
  step ev s = Some s' ->
  match ev with
  | EvStart | EvWorkerGet | EvWorkerResume | EvWorkerExit => True
  | _ => workers_waiting s' = workers_waiting s
         /\ workers_resuming s' = workers_resuming s
  end.
Proof.
  intros Hstep.
  destruct ev as [| |rid prio now|fid| |now| |i o t| | |]; simpl in Hstep; try done.
  - by injection Hstep as <-.
  - injection Hstep as <-.
    pose proof (enqueue_request_frame rid prio now s) as F. simpl in F. tauto.
  - unfold enqueue_request_timeout in Hstep.
    destruct (futures s !! fid) as [f|]; [|discriminate].
    destruct (done f); [discriminate|]. by injection Hstep as <-.
  - unfold _execute_request_begin in Hstep.
    destruct (ready s) as [|q rest]; [discriminate|].
    destruct (locked _); by injection Hstep as <-.
  - unfold _execute_request_resume in Hstep.
    destruct (sem_granted s) as [|q rest]; [discriminate|].
    injection Hstep as <-.
    match goal with |- context [wake_up_allowed ?n ?u] =>
      pose proof (wake_up_allowed_sem_only n u) as Hs end.
    unfold sem_only in Hs. simpl in *. tauto.
  - unfold _execute_request_finish in Hstep.
    destruct (executing s !! i) as [q|]; [|discriminate].
    injection Hstep as <-.
    match goal with |- context [release ?u] =>
      pose proof (release_sem_only u) as Hs end.
    match goal with |- context [_execute_request_try q o t ?u] =>
      pose proof (_execute_request_try_frame q o t u) as F end.
    unfold sem_only in Hs. simpl in *.
    destruct Hs as (_ & _ & _ & _ & _ & _ & _ & _ & _ & _ & _ & _ & _ & _ & -> & ->).
    tauto.
  - by injection Hstep as <-.
Qed.

Lemma step_worker_alive ev s s' :
  step ev s = Some s' -> worker_alive s -> worker_alive s'.
Proof.
  unfold worker_alive. intros Hstep Hs.
  pose proof (step_buffer_frame ev s s' Hstep) as F.
  pose proof (step_workers_frame ev s s' Hstep) as W.
  destruct ev as [| |rid prio now|fid| |now| |i o t| | |]; simpl in Hstep.
  - injection Hstep as <-. unfold start.
    destruct (_running s) eqn:E; [auto|]. simpl. lia.
  - injection Hstep as <-. simpl. by intros [=].
  - injection Hstep as <-. destruct W as [-> ->].
    by destruct (enqueue_request_frame rid prio now s)
      as (_ & _ & _ & _ & _ & _ & _ & _ & -> & _).
  - destruct F as [_ ->]. by destruct W as [-> ->].
  - unfold _process_queue in Hstep.
    destruct (workers_waiting s) as [|n] eqn:Hw; [discriminate|].
    destruct (heapq.heappop _ _) as [[q rest]|]; [|discriminate].
    injection Hstep as <-. cbv zeta. cbn [_running set_ready set_queue].
    destruct (_running s) eqn:E; simpl; intros H; [rewrite Hw; lia | congruence].
  - destruct F as [_ ->]. by destruct W as [-> ->].
  - destruct F as [_ ->]. by destruct W as [-> ->].
  - destruct F as [_ ->]. by destruct W as [-> ->].
  - destruct F as [_ ->]. by destruct W as [-> ->].
  - unfold _process_queue_resume in Hstep.
    destruct (workers_resuming s) as [|n] eqn:Hw; [discriminate|].
    injection Hstep as <-. cbv zeta. cbn [_running set_workers_resuming].
    destruct (_running s) eqn:E; simpl; intros H; [lia | congruence].
  - unfold _process_queue_exit in Hstep.
    destruct (workers_waiting s) as [|n] eqn:Hw; [discriminate|].
    destruct (_running s) eqn:E; simpl in Hstep.
    + case_bool_decide as Hn; [discriminate|]. injection Hstep as <-. simpl. lia.
    + injection Hstep as <-. simpl. intros H. congruence.
Qed.

Lemma reachable_worker_alive mc mq s : reachable mc mq s -> worker_alive s.
Proof.
  apply (reachable_invariant worker_alive).
  - by intros _ H.
  - apply step_worker_alive.
Qed.

(** A request that was handed to an executor stays so. *)
Lemma step_handed_over ev s s' x :
  step ev s = Some s' -> x ∈ handed_over s -> x ∈ handed_over s'.
Proof.
  unfold handed_over. intros Hstep.
  destruct ev as [| |rid prio now|fid| |now| |i o t| | |]; simpl in Hstep.
  - injection Hstep as <-. unfold start. by destruct (_running s).
  - by injection Hstep as <-.
  - injection Hstep as <-.
    destruct (enqueue_request_frame rid prio now s)
      as (_ & _ & _ & _ & -> & -> & -> & _ & _ & -> & _). done.
  - unfold enqueue_request_timeout in Hstep.
    destruct (futures s !! fid) as [f|]; [|discriminate].
    destruct (done f); [discriminate|]. by injection Hstep as <-.
  - inv_get Hstep q rest Hpop; simpl; rewrite !elem_of_app; tauto.
  - unfold _execute_request_begin in Hstep.
    destruct (ready s) as [|q rest] eqn:Hr; [discriminate|].
    destruct (locked _); injection Hstep as <-; simpl;
      rewrite !elem_of_app, !elem_of_cons, ?elem_of_app, ?list_elem_of_singleton;
      tauto.
  - unfold _execute_request_resume in Hstep.
    destruct (sem_granted s) as [|q rest] eqn:Hg; [discriminate|].
    injection Hstep as <-.
    match goal with |- context [wake_up_allowed ?n ?u] =>
      pose proof (wake_up_allowed_sem_only n u)
        as (S1 & _ & S3 & _ & _ & _ & _ & _ & _ & S4 & _);
      set (w := wake_up_allowed n u) in * end.
    simpl in *.
    assert (Hsem : forall y, y ∈ sem_granted w \/ y ∈ sem_waiters w
                             <-> y ∈ rest \/ y ∈ sem_waiters s).
    { intros y. rewrite <- !elem_of_app. by rewrite S1. }
    rewrite S3, S4.
    rewrite !elem_of_app, !elem_of_cons, ?elem_of_app, ?list_elem_of_singleton.
    specialize (Hsem x). tauto.
  - unfold _execute_request_finish in Hstep.
    destruct (executing s !! i) as [q|]; [|discriminate].
    injection Hstep as <-.
    match goal with |- context [release ?u] =>
      pose proof (release_sem_only u)
        as (S1 & _ & S3 & _ & _ & _ & _ & _ & _ & S4 & _) end.
    match goal with |- context [_execute_request_try q o t ?u] =>
      pose proof (_execute_request_try_frame q o t u)
        as (_ & _ & _ & _ & _ & F2 & F3 & F4 & _ & _ & F5 & _) end.
    match goal with |- context [release ?u] => set (r := release u) in * end.
    simpl in *. rewrite F2, F3 in S1. rewrite F4 in S3. rewrite F5 in S4.
    assert (Hsem : forall y, y ∈ sem_granted r \/ y ∈ sem_waiters r
                             <-> y ∈ sem_granted s \/ y ∈ sem_waiters s).
    { intros y. rewrite <- !elem_of_app. by rewrite S1. }
    rewrite S3, S4. rewrite !elem_of_app. specialize (Hsem x). tauto.
  - by injection Hstep as <-.
  - inv_resume Hstep; done.
  - by inv_exit Hstep.
Qed.

Lemma run_handed_over evs s s' x :
  run evs s = Some s' -> x ∈ handed_over s -> x ∈ handed_over s'.
Proof.
  revert s. induction evs as [|ev evs IH]; intros s Hrun Hx; simpl in Hrun.
  - by injection Hrun as <-.
  - destruct (step ev s) as [s1|] eqn:E; [|discriminate].
    apply (IH s1 Hrun). by apply (step_handed_over ev s).
Qed.

(** Once [_running] is cleared and until [start] is called, a worker takes
    a request at most once: the request leaves the buffer for an executor
    and one worker fewer waits; every other transition leaves the buffered
    requests in the buffer and makes no worker wait. *)
Lemma step_stopped ev s s' :
  is_start ev = false -> step ev s = Some s' -> _running s = false ->
  _running s' = false
  /\ if is_worker_get ev
     then exists x, queue s ≡ₚ x :: queue s'
            /\ workers_waiting s = S (workers_waiting s')
            /\ x ∈ handed_over s'
     else (forall q, q ∈ queue s -> q ∈ queue s')
          /\ (workers_waiting s' <= workers_waiting s)%nat.
Proof.
  intros Hev Hstep Hrun.
  pose proof (step_buffer_frame ev s s' Hstep) as F.
  pose proof (step_workers_frame ev s s' Hstep) as W.
  destruct ev as [| |rid prio now|fid| |now| |i o t| | |]; try discriminate;
    simpl in Hstep; cbn [is_worker_get].
  - by injection Hstep as <-.
  - injection Hstep as <-. destruct W as [-> _].
    destruct (enqueue_request_frame rid prio now s)
      as (_ & _ & _ & _ & _ & _ & _ & _ & -> & _).
    split; [done|]. split; [|done]. intros q Hq. destruct (full s) eqn:Hfull.
    + by rewrite enqueue_request_full.
    + destruct (enqueue_request_not_full rid prio now s Hfull) as [-> _].
      simpl. rewrite HeapProps.heappush_perm. by right.
  - destruct F as [-> ->]. destruct W as [-> _]. by split.
  - unfold _process_queue in Hstep.
    destruct (workers_waiting s) as [|n] eqn:Hw; [discriminate|].
    destruct (heapq.heappop _ _) as [[x rest]|] eqn:Hpop; [|discriminate].
    injection Hstep as <-. cbv zeta. cbn [_running set_ready set_queue].
    rewrite Hrun. simpl. split; [done|]. exists x.
    split; [by apply HeapProps.heappop_perm in Hpop|]. split; [done|].
    unfold handed_over. simpl. rewrite !elem_of_app, list_elem_of_singleton. tauto.
  - destruct F as [-> ->]. destruct W as [-> _]. by split.
  - destruct F as [-> ->]. destruct W as [-> _]. by split.
  - destruct F as [-> ->]. destruct W as [-> _]. by split.
  - destruct F as [-> ->]. destruct W as [-> _]. by split.
  - unfold _process_queue_resume in Hstep.
    destruct (workers_resuming s) as [|n]; [discriminate|].
    injection Hstep as <-. cbv zeta. cbn [_running set_workers_resuming].
    rewrite Hrun. by simpl.
  - unfold _process_queue_exit in Hstep.
    destruct (workers_waiting s) as [|n]; [discriminate|].
    rewrite Hrun in Hstep. simpl in Hstep. injection Hstep as <-. simpl.
    split; [done|]. split; [done|lia].
Qed.

Lemma run_stopped evs s s' :
  forallb (fun ev => negb (is_start ev)) evs = true -> run evs s = Some s' ->
  _running s = false ->
  exists taken,
    length taken = worker_gets evs
    /\ (length taken + workers_waiting s' <= workers_waiting s)%nat
    /\ (forall x, x ∈ taken -> x ∈ handed_over s')
    /\ forall q, q ∈ queue s -> q ∈ taken \/ q ∈ queue s'.
Proof.
  revert s. induction evs as [|ev evs IH]; intros s Hevs Hrun Hr; simpl in *.
  - injection Hrun as <-. exists []. split; [done|]. split; [simpl; lia|].
    split; [|auto]. intros x Hx. by apply elem_of_nil in Hx.
  - apply andb_true_iff in Hevs as [Hev Hevs]. apply negb_true_iff in Hev.
    destruct (step ev s) as [s1|] eqn:E; [|discriminate].
    destruct (step_stopped ev s s1 Hev E Hr) as [Hr1 Hs1].
    destruct (IH s1 Hevs Hrun Hr1) as (taken & Hlen & Hw & Hh & Hq).
    unfold worker_gets in *. destruct (is_worker_get ev) eqn:Hg.
    + destruct Hs1 as (x & Hperm & Hwx & Hx). exists (x :: taken).
      rewrite filter_cons_True by done. simpl. split; [by rewrite Hlen|].
      split; [lia|]. split.
      * intros y Hy. apply elem_of_cons in Hy as [->|Hy]; [|by apply Hh].
        by apply (run_handed_over evs s1).
      * intros q Hin. rewrite Hperm in Hin.
        apply elem_of_cons in Hin as [->|Hin]; [left; left|].
        destruct (Hq q Hin); [left; by right | by right].
    + destruct Hs1 as [Hkeep Hwx]. exists taken.
      rewrite filter_cons_False by (by rewrite Hg). split; [done|].
      split; [lia|]. split; [done|]. intros q Hin. apply Hq, Hkeep, Hin.
Qed.

(** C5, as the code has it.  [stop] writes to no future and leaves the
    buffer as it is.  As long as the manager is not started again, a worker
    task that waits for a request when [stop] is called takes at most one
    more request off the buffer and hands it to an executor, as it does
    with any other; every request that is not taken this way stays in the
    buffer and its future stays unset: the caller keeps waiting, and the
    only way out is its own timeout, which cancels the future.  With no
    worker task waiting, this is so for every buffered request. *)
Theorem C5_stop_leaves_buffered mc mq s :
  reachable mc mq s ->
  queue (stop s) = queue s /\ futures (stop s) = futures s
  /\ forall evs s',
       forallb (fun ev => negb (is_start ev)) evs = true ->
       run evs (stop s) = Some s' ->
       exists taken,
         length taken = worker_gets evs
         /\ (length taken + workers_waiting s' <= workers_waiting s)%nat
         /\ (forall x, x ∈ taken -> x ∈ handed_over s')
         /\ (forall q, q ∈ queue s ->
               q ∈ taken
               \/ (q ∈ queue s'
                   /\ exists f, futures s' !! future q = Some f
                        /\ fut_sets f = 0%nat
                        /\ (fut_state f = PENDING \/ fut_state f = CANCELLED)))
         /\ (workers_waiting s = 0%nat -> taken = []).
Proof.
  intros Hr. split; [done|]. split; [done|].
  intros evs s' Hevs Hrun.
  destruct (run_stopped evs (stop s) s' Hevs Hrun eq_refl)
    as (taken & Hlen & Hw & Hh & Hq).
  exists taken. split; [done|]. split; [done|]. split; [done|]. split.
  - intros q Hin. destruct (Hq q Hin) as [Ht|Hq']; [by left|]. right.
    split; [done|].
    assert (Hwf : wf s').
    { eapply reachable_wf, reachable_run; [|exact Hrun].
      exact (reachable_step mc mq EvStop s (stop s) Hr eq_refl). }
    destruct (wf_live s' Hwf q) as (f & Hf & Hs).
    { apply elem_of_pipeline. by left. }
    exists f. split; [done|]. split; [done|].
    pose proof (wf_sets s' Hwf _ _ Hf) as E. rewrite Hs in E.
    destruct (fut_state f); simpl in E; auto; discriminate.
  - intros H0. simpl in Hw. rewrite H0 in Hw. destruct taken; [done|simpl in Hw; lia].
Qed.

(** Two requests are buffered when [stop] is called.  The worker takes one
    of them and ends; a third request arrives and the caller of the second
    gives up: the second request is still in the buffer. *)
Lemma C5_stop_leaves_buffered_witness :
  exists s, run C5_two_buffered (initial 1 5) = Some s
    /\ queue (stop s) = queue s
    /\ forall s',
         run [EvWorkerGet; EvWorkerResume; EvEnqueue "r3" HIGH 9; EvTimeout 1%nat]
           (stop s) = Some s' ->
         exists taken,
           length taken = 1%nat
           /\ (length taken + workers_waiting s' <= workers_waiting s)%nat
           /\ (forall x, x ∈ taken -> x ∈ handed_over s')
           /\ forall q, q ∈ queue s ->
                q ∈ taken
                \/ (q ∈ queue s'
                    /\ exists f, futures s' !! future q = Some f
                         /\ fut_sets f = 0%nat
                         /\ (fut_state f = PENDING \/ fut_state f = CANCELLED)).
Proof.
  destruct (run C5_two_buffered (initial 1 5)) as [s|] eqn:E; [|by vm_compute in E].
  exists s. split; [done|].
  assert (Hr : reachable 1 5 s).
  { exists (initial 1 5), C5_two_buffered. split; [reflexivity | exact E]. }
  destruct (C5_stop_leaves_buffered 1 5 s Hr) as (H1 & _ & H3).
  split; [exact H1|].
  intros s' Hrun.
  destruct (H3 [EvWorkerGet; EvWorkerResume; EvEnqueue "r3" HIGH 9; EvTimeout 1%nat]
              s' eq_refl Hrun) as (taken & T1 & T2 & T3 & T4 & _).
  exists taken. split; [exact T1|]. split; [exact T2|]. split; [exact T3 | exact T4].
Defined.

(** C5, as stated, fails.  A request is submitted, [stop] is called and the
    worker ends without having taken the request: the request is still in
    the buffer, no completion is written to its future, no error of any
    kind, and no worker is left to serve it; its caller waits until its own
    timeout cancels the future. *)
Lemma C5_counterexample :
  exists s s',
    run [EvStart; EvEnqueue "r1" NORMAL 7; EvStop; EvWorkerExit] (initial 1 5) = Some s
    /\ queue s = [mkQueuedRequest "r1" NORMAL 7 0]
    /\ futures s !! 0%nat = Some (mkFuture PENDING 0)
    /\ workers_waiting s = 0%nat /\ workers_resuming s = 0%nat
    /\ step EvWorkerGet s = None
    /\ step (EvTimeout 0) s = Some s'
    /\ queue s' = [mkQueuedRequest "r1" NORMAL 7 0]
    /\ futures s' !! 0%nat = Some (mkFuture CANCELLED 0)
    /\ timeout_requests s' = 1.
Proof.
  destruct (run [EvStart; EvEnqueue "r1" NORMAL 7; EvStop; EvWorkerExit] (initial 1 5))
    as [s|] eqn:E; [|by vm_compute in E].
  destruct (step (EvTimeout 0) s) as [s'|] eqn:E'.
  2:{ vm_compute in E. injection E as <-. by vm_compute in E'. }
  exists s, s'. vm_compute in E. injection E as <-.
  vm_compute in E'. injection E' as <-.
  repeat split; vm_compute; reflexivity.
Qed.

(** ** Work that the buffer does not count *)

Lemma one_more_in_progress mc mq s (id : string) (p : RequestPriority) (now : Z) :
  reachable mc mq s -> mc <> 0 ->
  queue s = [] -> ready s = [] -> sem_granted s = [] -> _running s = true ->
  (0 < workers_waiting s)%nat ->
  exists s', reachable mc mq s'
    /\ queue s' = [] /\ ready s' = [] /\ sem_granted s' = [] /\ _running s' = true
    /\ (0 < workers_waiting s')%nat
    /\ in_progress s' = S (in_progress s).
Proof.
  intros Hr Hmc Hq Hrd Hg Hrun Hw.
  destruct (reachable_config _ _ _ Hr) as [Emc Emq].
  assert (Hfull : full s = false).
  { unfold full, qsize. rewrite Hq. simpl. destruct (max_queue_size s <=? 0) eqn:E; [done|].
    apply Z.leb_gt. lia. }
  destruct (enqueue_request_not_full id p now s Hfull) as [Hs _].
  set (q := mkQueuedRequest id p now (next_future s)).
  set (s1 := enqueued id p now s).
  assert (H1 : step (EvEnqueue id p now) s = Some s1) by (simpl; by rewrite Hs).
  assert (Hq1 : queue s1 = [q]) by (subst s1; simpl; by rewrite Hq).
  set (s2 := set_ready (ready s1 ++ [q]) (set_queue [] s1)).
  assert (H2 : step EvWorkerGet s1 = Some s2).
  { simpl. unfold _process_queue.
    change (workers_waiting s1) with (workers_waiting s).
    destruct (workers_waiting s) as [|n]; [lia|].
    rewrite Hq1. cbv zeta. cbn [_running set_ready set_queue].
    change (_running s1) with (_running s). rewrite Hrun. reflexivity. }
  assert (Hr2 : ready s2 = [q]) by (subst s2 s1; simpl; by rewrite Hrd).
  destruct (step (EvExecuteBegin now) s2) as [s3|] eqn:H3.
  2:{ simpl in H3. unfold _execute_request_begin in H3. rewrite Hr2 in H3.
      by destruct (locked _). }
  exists s3. split.
  { eapply reachable_step; [|exact H3].
    eapply reachable_step; [|exact H2]. eapply reachable_step; eauto. }
  simpl in H3. unfold _execute_request_begin in H3. rewrite Hr2 in H3.
  unfold in_progress.
  destruct (locked _); injection H3 as <-; simpl; rewrite ?Hrd, ?Hg, ?Hrun;
    repeat split; try done; rewrite !length_app; simpl; lia.
Qed.

(** C10.  The buffered count, which [full] and [get_estimated_wait_time]
    read, is the length of the heap, and the worker takes a request off the
    heap without looking at the semaphore.  So, with any capacity and a
    concurrency limit of at least one, for every number [n] the manager can
    reach a state with an empty buffer and [n] admitted requests that have
    not finished, at most [max_concurrent] of them executing; there the
    estimated wait is zero and a further submission is accepted. *)
Theorem C10_pending_beyond_capacity mc mq (n : nat) :
  1 <= mc ->
  exists s, reachable mc mq s
    /\ queue s = []
    /\ in_progress s = n
    /\ Z.of_nat (length (executing s)) <= mc
    /\ get_estimated_wait_time s = Ret 0%Q
    /\ forall id p now, fst (enqueue_request id p now s) = Ret (next_future s).
Proof.
  intros Hmc.
  assert (H : exists s, reachable mc mq s /\ queue s = [] /\ ready s = []
                        /\ sem_granted s = [] /\ _running s = true
                        /\ (0 < workers_waiting s)%nat
                        /\ in_progress s = n).
  { induction n as [|n (s & Hr & Hq & Hrd & Hg & Hrun & Hw & Hn)].
    - exists (start (initial mc mq)). repeat split; try done; [|simpl; lia].
      exists (initial mc mq), [EvStart]. split; [|done].
      unfold __init__. destruct (mc <? 0) eqn:E; [lia | done].
    - destruct (one_more_in_progress mc mq s "r" NORMAL 0 Hr) as (s' & H'); try done; [lia|].
      exists s'. rewrite <- Hn. tauto. }
  destruct H as (s & Hr & Hq & Hrd & Hg & Hrun & _ & Hn).
  exists s. split; [done|]. split; [done|]. split; [done|].
  destruct (reachable_slots _ _ _ Hr) as (Hv & Hact & Hsum).
  destruct (reachable_config _ _ _ Hr) as [Emc Emq].
  split; [lia|]. split.
  - unfold get_estimated_wait_time, qsize. by rewrite Hq.
  - intros id p now. apply enqueue_request_not_full; [|lia].
    unfold full, qsize. rewrite Hq. simpl.
    destruct (max_queue_size s <=? 0) eqn:E; [done|]. apply Z.leb_gt. lia.
Qed.

Lemma C10_pending_beyond_capacity_witness :
  exists s, reachable 2 3 s
    /\ queue s = [] /\ in_progress s = 7%nat
    /\ get_estimated_wait_time s = Ret 0%Q.
Proof.
  destruct (C10_pending_beyond_capacity 2 3 7 ltac:(lia))
    as (s & H1 & H2 & H3 & _ & H5 & _).
  exists s. tauto.
Defined.

(** ** The order in which tasks are started *)

Lemma pop_order_cons heap x rest :
  heapq.heappop QueuedRequest_lt heap = Ret (x, rest) ->
  pop_order heap = x :: pop_order rest.
Proof.
  intros Hpop. unfold pop_order.
  rewrite (Permutation_length (HeapProps.heappop_perm _ _ _ _ Hpop)).
  simpl. by rewrite Hpop.
Qed.

(** Executors are created in the order of the pops, they reach the
    semaphore in the order of their creation, and the semaphore serves them
    in the order of their arrival: whatever the concurrency limit, no
    transition but a submission changes the order in which the requests at
    hand are started. *)
Lemma step_dispatch_order ev s s' :
  is_enqueue ev = false -> step ev s = Some s' ->
  dispatch_order s' = dispatch_order s.
Proof.
  intros Hev Hstep. unfold dispatch_order.
  destruct ev as [| |rid prio now|fid| |now| |i o t| | |]; try discriminate;
    simpl in Hstep.
  - injection Hstep as <-. unfold start. by destruct (_running s).
  - by injection Hstep as <-.
  - unfold enqueue_request_timeout in Hstep.
    destruct (futures s !! fid) as [f|]; [|discriminate].
    destruct (done f); [discriminate|]. by injection Hstep as <-.
  - inv_get Hstep q rest Hpop; simpl; rewrite (pop_order_cons _ _ _ Hpop);
      by rewrite <- !app_assoc.
  - unfold _execute_request_begin in Hstep.
    destruct (ready s) as [|q rest] eqn:Hr; [discriminate|].
    unfold locked in Hstep. simpl in Hstep.
    destruct (sem_value s =? 0); simpl in Hstep.
    + injection Hstep as <-. simpl. by rewrite <- !app_assoc.
    + case_bool_decide as Hw; simpl in Hstep; injection Hstep as <-; simpl.
      * apply app_eq_nil in Hw as [-> ->]. by rewrite <- !app_assoc.
      * by rewrite <- !app_assoc.
  - unfold _execute_request_resume in Hstep.
    destruct (sem_granted s) as [|q rest] eqn:Hg; [discriminate|].
    injection Hstep as <-.
    match goal with |- context [wake_up_allowed ?n ?u] =>
      pose proof (wake_up_allowed_sem_only n u)
        as (S1 & S2 & S3 & _ & _ & _ & _ & _ & _ & S4 & _) end.
    simpl in *. rewrite S2, S3, S4.
    rewrite (app_assoc (sem_granted _) (sem_waiters _) _), S1.
    by rewrite <- !app_assoc.
  - unfold _execute_request_finish in Hstep.
    destruct (executing s !! i) as [q|]; [|discriminate].
    injection Hstep as <-.
    match goal with |- context [release ?u] =>
      pose proof (release_sem_only u)
        as (S1 & S2 & S3 & _ & _ & _ & _ & _ & _ & S4 & _) end.
    match goal with |- context [_execute_request_try q o t ?u] =>
      pose proof (_execute_request_try_frame q o t u)
        as (_ & _ & F1 & _ & _ & F2 & F3 & F4 & _ & _ & F5 & _) end.
    simpl in *. rewrite S2, S3, S4, F1, F4, F5.
    rewrite (app_assoc (sem_granted _) (sem_waiters _) _), S1, F2, F3.
    by rewrite <- !app_assoc.
  - by injection Hstep as <-.
  - inv_resume Hstep; done.
  - by inv_exit Hstep.
Qed.

Lemma run_dispatch_order evs s s' :
  forallb (fun ev => negb (is_enqueue ev)) evs = true -> run evs s = Some s' ->
  dispatch_order s' = dispatch_order s.
Proof.
  revert s. induction evs as [|ev evs IH]; intros s Hevs Hrun; simpl in *.
  - by injection Hrun as <-.
  - apply andb_true_iff in Hevs as [Hev Hevs]. apply negb_true_iff in Hev.
    destruct (step ev s) as [s1|] eqn:E; [|discriminate].
    rewrite (IH s1 Hevs Hrun). by apply (step_dispatch_order ev).
Qed.

(** Once the submissions are over, the tasks are started in the order in
    which [heappop] empties the buffer. *)
Lemma started_in_pop_order evs s s' :
  forallb (fun ev => negb (is_enqueue ev)) evs = true -> run evs s = Some s' ->
  log_started s' `prefix_of` dispatch_order s.
Proof.
  intros Hevs Hrun. rewrite <- (run_dispatch_order evs s s' Hevs Hrun).
  unfold dispatch_order. by eexists.
Qed.

(** C2 at four requests of one priority submitted at one clock reading, with
    a concurrency limit of one and room for all four: all four are accepted,
    the stable sort leaves them in the order of submission, a, b, c, d, and
    the tasks are started in the order a, c, b, d. *)
Theorem C2_equal_keys_start_order :
  fst (submit C2_submissions (start (initial 1 10)))
  = [Ret 0%nat; Ret 1%nat; Ret 2%nat; Ret 3%nat]
  /\ stable_sort C2_requests = C2_requests
  /\ request_id <$> dispatch_order (snd (submit C2_submissions (start (initial 1 10))))
     = ["a"; "c"; "b"; "d"]
  /\ (log_started <$> run C2_schedule (snd (submit C2_submissions (start (initial 1 10)))))
     = Some [mkQueuedRequest "a" NORMAL 5 0; mkQueuedRequest "c" NORMAL 5 2;
             mkQueuedRequest "b" NORMAL 5 1; mkQueuedRequest "d" NORMAL 5 3].
Proof. repeat split; vm_compute; reflexivity. Qed.

Lemma C2_dispatch_order :
  request_id <$> dispatch_order (snd (submit C2_submissions (start (initial 1 10))))
  = ["a"; "c"; "b"; "d"].
Proof. vm_compute. reflexivity. Qed.

(** The order a, c, b, d does not depend on the schedule: in every run
    without further submissions, the tasks started so far are the first ones
    of a, c, b, d. *)
Lemma C2_equal_keys_every_schedule evs s :
  forallb (fun ev => negb (is_enqueue ev)) evs = true ->
  run evs (snd (submit C2_submissions (start (initial 1 10)))) = Some s ->
  request_id <$> log_started s `prefix_of` ["a"; "c"; "b"; "d"].
Proof.
  intros Hevs Hrun.
  destruct (started_in_pop_order evs _ s Hevs Hrun) as [k Hk].
  pose proof C2_dispatch_order as E. rewrite Hk, fmap_app in E.
  rewrite <- E. by eexists.
Qed.

(** ** Distinct keys are served in sorted order *)

Lemma QueuedRequest_lt_spec a b :
  QueuedRequest_lt a b = true
  <-> priority_value (priority a) < priority_value (priority b)
      \/ (priority_value (priority a) = priority_value (priority b)
          /\ queued_at a < queued_at b).
Proof.
  unfold QueuedRequest_lt.
  destruct (priority_value (priority a) =? priority_value (priority b)) eqn:E; simpl.
  - apply Z.eqb_eq in E. rewrite Z.ltb_lt. lia.
  - apply Z.eqb_neq in E. rewrite Z.ltb_lt. lia.
Qed.

Lemma QueuedRequest_lt_false a b :
  QueuedRequest_lt a b = false
  <-> priority_value (priority b) < priority_value (priority a)
      \/ (priority_value (priority a) = priority_value (priority b)
          /\ queued_at b <= queued_at a).
Proof.
  rewrite <- not_true_iff_false, QueuedRequest_lt_spec. lia.
Qed.

Lemma QueuedRequest_lt_irrefl x : QueuedRequest_lt x x = false.
Proof. apply QueuedRequest_lt_false. lia. Qed.

Lemma QueuedRequest_lt_trans x y z :
  QueuedRequest_lt x y = true -> QueuedRequest_lt y z = true ->
  QueuedRequest_lt x z = true.
Proof. rewrite !QueuedRequest_lt_spec. lia. Qed.

Lemma QueuedRequest_lt_negtrans x y z :
  QueuedRequest_lt x y = false -> QueuedRequest_lt y z = false ->
  QueuedRequest_lt x z = false.
Proof. rewrite !QueuedRequest_lt_false. lia. Qed.

Ltac lt_laws :=
  first [exact QueuedRequest_lt_irrefl | exact QueuedRequest_lt_trans
        | exact QueuedRequest_lt_negtrans].

#[local] Instance key_rel_trans : Transitive key_rel.
Proof.
  intros x y z. unfold key_rel, key_le. rewrite !negb_true_iff.
  intros H1 H2. by apply (QueuedRequest_lt_negtrans z y x).
Qed.

Lemma key_rel_total a b : key_rel a b \/ key_rel b a.
Proof.
  unfold key_rel, key_le. rewrite !negb_true_iff, !QueuedRequest_lt_false. lia.
Qed.

Lemma key_rel_antisym a b : key_rel a b -> key_rel b a -> key a = key b.
Proof.
  unfold key_rel, key_le, key. rewrite !negb_true_iff, !QueuedRequest_lt_false.
  intros H1 H2. f_equal; lia.
Qed.

(** The heap of the buffer is a heap in every reachable state. *)
Lemma step_is_heap ev s s' :
  step ev s = Some s' ->
  heapq.is_heap QueuedRequest_lt (queue s) -> heapq.is_heap QueuedRequest_lt (queue s').
Proof.
  intros Hstep Hh.
  pose proof (step_buffer_frame ev s s' Hstep) as F.
  destruct ev as [| |rid prio now|fid| |now| |i o t| | |]; simpl in Hstep;
    [| | | by rewrite (proj1 F) | | by rewrite (proj1 F) | by rewrite (proj1 F)
     | by rewrite (proj1 F) | by rewrite (proj1 F) | by rewrite (proj1 F)
     | by rewrite (proj1 F)].
  - injection Hstep as <-. unfold start. by destruct (_running s).
  - by injection Hstep as <-.
  - injection Hstep as <-. destruct (full s) eqn:Hfull.
    + by rewrite enqueue_request_full.
    + destruct (enqueue_request_not_full rid prio now s Hfull) as [-> _]. simpl.
      apply HeapOrder.heappush_heap; first [lt_laws | done].
  - inv_get Hstep q rest Hpop; simpl;
      by destruct (HeapOrder.heappop_heap QueuedRequest_lt QueuedRequest_lt_irrefl
                     QueuedRequest_lt_trans QueuedRequest_lt_negtrans
                     (queue s) q rest Hh Hpop).
Qed.

Lemma reachable_is_heap mc mq s :
  reachable mc mq s -> heapq.is_heap QueuedRequest_lt (queue s).
Proof.
  apply (reachable_invariant (fun s => heapq.is_heap QueuedRequest_lt (queue s))).
  - intros _. apply HeapOrder.is_heap_nil.
  - apply step_is_heap.
Qed.

Lemma drain_sorted fuel heap :
  heapq.is_heap QueuedRequest_lt heap -> (length heap <= fuel)%nat ->
  StronglySorted key_rel (drain fuel heap) /\ drain fuel heap ≡ₚ heap.
Proof.
  revert heap. induction fuel as [|fuel IH]; intros heap Hh Hlen; simpl.
  - destruct heap; [|simpl in Hlen; lia]. split; [constructor | done].
  - destruct (heapq.heappop QueuedRequest_lt heap) as [[x rest]|e] eqn:Hpop.
    + pose proof (HeapProps.heappop_perm _ _ _ _ Hpop) as Hperm.
      destruct (HeapOrder.heappop_heap QueuedRequest_lt QueuedRequest_lt_irrefl
                  QueuedRequest_lt_trans QueuedRequest_lt_negtrans heap x rest Hh Hpop)
        as [Hrest Hmin].
      destruct (IH rest Hrest) as [Hs Hp].
      { apply Permutation_length in Hperm. simpl in Hperm. lia. }
      split; [|by rewrite Hp, Hperm].
      constructor; [done|]. apply Forall_forall. intros y Hy.
      rewrite Hp in Hy. unfold key_rel, key_le. by rewrite (Hmin y Hy).
    + destruct heap as [|a heap]; [split; [constructor | done]|].
      destruct (HeapProps.heappop_nonempty QueuedRequest_lt (a :: heap)) as (x & h & E);
        [done | congruence].
Qed.

Lemma pop_order_sorted heap :
  heapq.is_heap QueuedRequest_lt heap ->
  StronglySorted key_rel (pop_order heap) /\ pop_order heap ≡ₚ heap.
Proof. intros Hh. by apply drain_sorted. Qed.

Lemma insert_sorted_perm x l : insert_sorted x l ≡ₚ x :: l.
Proof.
  induction l as [|y l IH]; simpl; [done|].
  destruct (key_le x y); [done|]. rewrite IH. apply Permutation_swap.
Qed.

Lemma insert_sorted_sorted x l :
  StronglySorted key_rel l -> StronglySorted key_rel (insert_sorted x l).
Proof.
  induction 1 as [|y l Hl IH Hy]; simpl; [repeat constructor|].
  destruct (key_le x y) eqn:E.
  - constructor; [by constructor|]. constructor; [done|].
    eapply Forall_impl; [exact Hy|]. intros z Hz. by trans y.
  - constructor; [done|]. rewrite insert_sorted_perm. constructor; [|done].
    destruct (key_rel_total x y) as [H|H]; [|done].
    unfold key_rel in H. congruence.
Qed.

Lemma stable_sort_sorted l :
  StronglySorted key_rel (stable_sort l) /\ stable_sort l ≡ₚ l.
Proof.
  induction l as [|x l [IH1 IH2]]; simpl; [split; [constructor | done]|].
  split; [by apply insert_sorted_sorted|].
  by rewrite insert_sorted_perm, IH2.
Qed.

Lemma NoDup_fmap_eq {A B : Type} (f : A -> B) (l : list A) a b :
  NoDup (f <$> l) -> a ∈ l -> b ∈ l -> f a = f b -> a = b.
Proof.
  induction l as [|x l IH]; simpl; intros Hnd Ha Hb Hf; [by apply elem_of_nil in Ha|].
  apply NoDup_cons in Hnd as [Hx Hnd].
  apply elem_of_cons in Ha as [->|Ha], Hb as [->|Hb]; auto.
  - destruct Hx. rewrite Hf. by apply list_elem_of_fmap_2.
  - destruct Hx. rewrite <- Hf. by apply list_elem_of_fmap_2.
Qed.

(** Two buffers with the same requests, whose keys are pairwise distinct,
    are emptied in the same order, the sorted one. *)
Lemma pop_order_stable_sort heap l :
  heapq.is_heap QueuedRequest_lt heap -> heap ≡ₚ l -> NoDup (key <$> l) ->
  pop_order heap = stable_sort l.
Proof.
  intros Hh Hperm Hnd.
  destruct (pop_order_sorted heap Hh) as [Hs1 Hp1].
  destruct (stable_sort_sorted l) as [Hs2 Hp2].
  apply (StronglySorted_unique_strong key_rel); [|done|done|by rewrite Hp1, Hp2].
  intros a b Ha Hb Hab Hba.
  rewrite Hp1, Hperm in Ha. rewrite Hp2 in Hb.
  apply (NoDup_fmap_eq key l); auto using key_rel_antisym.
Qed.

Lemma submit_accepted reqs s :
  max_concurrent s <> 0 ->
  max_queue_size s <= 0 \/ qsize s + Z.of_nat (length reqs) <= max_queue_size s ->
  let s' := snd (submit reqs s) in
  queue s' ≡ₚ requests_of (next_future s) reqs ++ queue s
  /\ (heapq.is_heap QueuedRequest_lt (queue s) -> heapq.is_heap QueuedRequest_lt (queue s'))
  /\ log_started s' = log_started s /\ sem_granted s' = sem_granted s
  /\ sem_waiters s' = sem_waiters s /\ ready s' = ready s.
Proof.
  revert s. induction reqs as [|[[id p] now] reqs IH]; intros s Hmc Hroom; simpl.
  - repeat split; done.
  - cbn [length] in Hroom.
    assert (Hfull : full s = false).
    { destruct (full s) eqn:E; [|done]. apply full_iff in E. lia. }
    destruct (enqueue_request_not_full id p now s Hfull) as [Hs _].
    destruct (enqueue_request id p now s) as [o s1]. simpl in Hs. subst s1.
    specialize (IH (enqueued id p now s)).
    assert (Hq : qsize (enqueued id p now s) = qsize s + 1).
    { unfold qsize; simpl. rewrite heappush_length. lia. }
    destruct IH as (I1 & I2 & I3 & I4 & I5 & I6); [done | |].
    { change (max_queue_size (enqueued id p now s)) with (max_queue_size s). lia. }
    destruct (submit reqs (enqueued id p now s)) as [os s2]. simpl in *.
    rewrite I3, I4, I5, I6. repeat split; try done.
    + rewrite I1, HeapProps.heappush_perm. solve_perm.
    + intros Hh. apply I2.
      apply HeapOrder.heappush_heap; first [lt_laws | done].
Qed.

Lemma key_requests_of n reqs :
  key <$> requests_of n reqs
  = (fun r => (priority_value r.1.2, r.2)) <$> reqs.
Proof.
  revert n. induction reqs as [|[[id p] now] reqs IH]; intros n; simpl; [done|].
  by rewrite IH.
Qed.

(** When the submissions have pairwise distinct keys, fit in the buffer and
    arrive before the worker pops, the tasks are started in the order of the
    stable sort by (priority, queued_at): in every later run without further
    submissions, and for every concurrency limit, the tasks started so far
    are the first ones of that order. *)
Lemma distinct_keys_start_sorted reqs s evs s' :
  max_concurrent s <> 0 ->
  max_queue_size s <= 0 \/ Z.of_nat (length reqs) <= max_queue_size s ->
  queue s = [] -> ready s = [] -> sem_granted s = [] -> sem_waiters s = [] ->
  log_started s = [] ->
  NoDup ((fun r => (priority_value r.1.2, r.2)) <$> reqs) ->
  forallb (fun ev => negb (is_enqueue ev)) evs = true ->
  run evs (snd (submit reqs s)) = Some s' ->
  log_started s' `prefix_of` stable_sort (requests_of (next_future s) reqs).
Proof.
  intros Hmc Hroom Hq Hr Hg Hw Hl Hnd Hevs Hrun.
  destruct (submit_accepted reqs s Hmc) as (S1 & S2 & S3 & S4 & S5 & S6).
  { unfold qsize. rewrite Hq. simpl. lia. }
  pose proof (started_in_pop_order evs _ s' Hevs Hrun) as Hpre.
  unfold dispatch_order in Hpre.
  rewrite S3, S4, S5, S6, Hl, Hg, Hw, Hr in Hpre. simpl in Hpre.
  rewrite Hq, app_nil_r in S1.
  rewrite (pop_order_stable_sort _ (requests_of (next_future s) reqs)) in Hpre;
    [done | | done | by rewrite key_requests_of].
  apply S2. rewrite Hq. apply HeapOrder.is_heap_nil.
Qed.

End QueueProps.

(** * Properties of the forecast cache *)

Module CacheProps.
Import ForecastCache.
Local Open Scope Z_scope.

Section round_trip.
Context {P : Platform} {L : PlatformLaws P}.

Lemma Location_round_trip l : Location_new (Location_asdict l) = Ret l.
Proof. destruct l. reflexivity. Qed.

Lemma RawWeatherData_round_trip r :
  RawWeatherData_new (RawWeatherData_asdict r) = Ret r.
Proof. destruct r. reflexivity. Qed.

Lemma ForecastDay_round_trip d :
  ForecastDay_from_dict (ForecastDay_to_dict d) = Ret d.
Proof.
  destruct d as [dt rr te sm cs [r1 r2 r3 r4 r5 r6]].
  cbv -[isoformat fromisoformat]. rewrite fromisoformat_isoformat.
  reflexivity.
Qed.

Lemma from_dict_days_round_trip days :
  from_dict_days (ForecastDay_to_dict <$> days) = Ret days.
Proof.
  induction days as [|d days IH]; [done|].
  cbn [fmap list_fmap from_dict_days]. fold (fmap ForecastDay_to_dict days).
  rewrite ForecastDay_round_trip. cbn [mbind outcome_bind].
  rewrite IH. reflexivity.
Qed.

Lemma truthy_isoformat (d : datetime) : truthy (JStr (isoformat d)) = true.
Proof.
  unfold truthy. rewrite bool_decide_false; [done|]. apply isoformat_nonempty.
Qed.

Lemma ForecastMetadata_round_trip m j :
  ForecastMetadata_to_dict m = Ret j -> ForecastMetadata_from_dict j = Ret m.
Proof.
  destruct m as [mv ga ch it [d|j0]]; unfold ForecastMetadata_to_dict;
    cbn [era5_timestamp mbind outcome_bind mret outcome_ret].
  - intros [= <-]. cbv -[isoformat fromisoformat truthy].
    rewrite fromisoformat_isoformat, truthy_isoformat.
    cbv -[isoformat fromisoformat truthy].
    rewrite fromisoformat_isoformat. reflexivity.
  - destruct (truthy j0) eqn:Ht; [discriminate|]. intros [= <-].
    cbv -[isoformat fromisoformat truthy].
    rewrite fromisoformat_isoformat, Ht. reflexivity.
Qed.

(** [from_dict] reads back what [to_dict] writes. *)
Lemma to_dict_from_dict p j : to_dict p = Ret j -> from_dict j = Ret p.
Proof.
  destruct p as [loc days meta]. unfold to_dict.
  cbn [metadata location forecast_days].
  destruct (ForecastMetadata_to_dict meta) as [jm|] eqn:Hm; [|discriminate].
  cbn [mbind outcome_bind mret outcome_ret]. intros [= <-].
  apply ForecastMetadata_round_trip in Hm.
  unfold from_dict.
  change (getitem "location" _) with (@Ret json (Location_asdict loc)).
  cbn [mbind outcome_bind]. rewrite Location_round_trip.
  change (getitem "forecast_days" _)
    with (@Ret json (JList (ForecastDay_to_dict <$> days))).
  cbn [mbind outcome_bind iterate]. rewrite from_dict_days_round_trip.
  change (getitem "metadata" _) with (@Ret json jm).
  cbn [mbind outcome_bind]. rewrite Hm. reflexivity.
Qed.

Lemma valid_payload_to_dict p :
  valid_payload p -> exists j, to_dict p = Ret j /\ from_dict j = Ret p.
Proof.
  intros Hv.
  assert (H : exists j, to_dict p = Ret j).
  { unfold to_dict, ForecastMetadata_to_dict. unfold valid_payload in Hv.
    destruct (era5_timestamp (metadata p)) as [d|j0]; [by eexists|].
    rewrite Hv. by eexists. }
  destruct H as [j Hj]. exists j. split; [done|]. by apply to_dict_from_dict.
Qed.
End round_trip.

(** ** Reading and writing the cache directory *)

Section cache.
Context {P : Platform}.
Implicit Types (self : ForecastCacheManager) (fs : filesystem).

Lemma _is_cache_valid_iff self p now fs :
  _is_cache_valid self p now fs = true
  <-> exists f, files fs !! p = Some f
                /\ now - st_mtime f < ttl_seconds self * 1000000.
Proof.
  unfold _is_cache_valid. destruct (files fs !! p) as [f|].
  - rewrite Z.ltb_lt. split; [by exists f | by intros (f' & [= <-] & H)].
  - split; [done | by intros (f' & [=] & _)].
Qed.

Lemma mkdir_files d fs fs' :
  mkdir d fs = Ret fs' -> files fs' = files fs /\ disk_full fs' = disk_full fs.
Proof.
  unfold mkdir. case_bool_decide; [by intros [= <-]|].
  destruct (disk_full fs); [discriminate | by intros [= <-]].
Qed.

Lemma mkdir_succeeds_Ret d fs :
  mkdir_succeeds d fs -> exists fs', mkdir d fs = Ret fs'.
Proof.
  unfold mkdir, mkdir_succeeds. intros [Hd|Hf].
  - rewrite bool_decide_true by done. by eexists.
  - case_bool_decide; [by eexists|]. rewrite Hf. by eexists.
Qed.

Lemma _is_cache_valid_files self p now fs fs' :
  files fs' = files fs ->
  _is_cache_valid self p now fs' = _is_cache_valid self p now fs.
Proof. unfold _is_cache_valid. by intros ->. Qed.

Lemma read_forecast_files p fs fs' :
  files fs' = files fs -> read_forecast p fs' = read_forecast p fs.
Proof. unfold read_forecast, json_load. by intros ->. Qed.

Lemma strftime_date_yesterday now :
  strftime_date (now - day_us) = strftime_date now - 1.
Proof.
  unfold strftime_date, day_us.
  replace (now - 86400000000) with (now + (-1) * 86400000000) by lia.
  rewrite Z.div_add by lia. lia.
Qed.

(** A forecast in the bucket of the day of the read. *)
Lemma get_forecast_today self lat lon h now fs j m v :
  mkdir_succeeds (strftime_date now) fs ->
  files fs !! (strftime_date now, cache_file lat lon h) = Some (mkFile (JsonText j) m) ->
  now - m < ttl_seconds self * 1000000 ->
  from_dict j = Ret v ->
  fst (get_forecast self lat lon h now fs) = Ret (Some v).
Proof.
  intros Hdir Hfile Hage Hv. unfold get_forecast, _get_cache_path.
  destruct (mkdir_succeeds_Ret _ _ Hdir) as [fs' Hmk]. rewrite Hmk.
  apply mkdir_files in Hmk as [Hf _].
  cbn [mbind outcome_bind mret outcome_ret].
  fold (cache_file lat lon h).
  assert (Hvalid : _is_cache_valid self (strftime_date now, cache_file lat lon h) now fs' = true).
  { apply _is_cache_valid_iff. rewrite Hf. by eexists. }
  rewrite Hvalid. unfold read_forecast, json_load. rewrite Hf, Hfile.
  cbn [mbind outcome_bind]. by rewrite Hv.
Qed.

(** A forecast in the bucket of the day before, when the bucket of the
    day holds nothing valid for the key. *)
Lemma get_forecast_yesterday self lat lon h now fs j m v :
  mkdir_succeeds (strftime_date now) fs ->
  _is_cache_valid self (strftime_date now, cache_file lat lon h) now fs = false ->
  files fs !! (strftime_date now - 1, cache_file lat lon h) = Some (mkFile (JsonText j) m) ->
  now - m < ttl_seconds self * 1000000 ->
  from_dict j = Ret v ->
  fst (get_forecast self lat lon h now fs) = Ret (Some v).
Proof.
  intros Hdir Hnot Hfile Hage Hv. unfold get_forecast, _get_cache_path.
  destruct (mkdir_succeeds_Ret _ _ Hdir) as [fs' Hmk]. rewrite Hmk.
  apply mkdir_files in Hmk as [Hf _].
  cbn [mbind outcome_bind mret outcome_ret].
  fold (cache_file lat lon h).
  rewrite (_is_cache_valid_files self _ now fs fs' Hf), Hnot.
  rewrite strftime_date_yesterday.
  assert (Hvalid : _is_cache_valid self (strftime_date now - 1, cache_file lat lon h) now fs' = true).
  { apply _is_cache_valid_iff. rewrite Hf. by eexists. }
  rewrite Hvalid. unfold read_forecast, json_load. rewrite Hf, Hfile.
  cbn [mbind outcome_bind]. by rewrite Hv.
Qed.

End cache.

Import Samples.
Local Open Scope string_scope.

(** ** Set, then get *)

Lemma set_forecast_stores {P : Platform} self lat lon h payload j t0 fs :
  to_dict payload = Ret j -> disk_full fs = false ->
  fst (set_forecast self lat lon h payload t0 fs) = Ret true
  /\ files (snd (set_forecast self lat lon h payload t0 fs))
     = <[(strftime_date t0, cache_file lat lon h) := mkFile (JsonText j) t0]> (files fs)
  /\ disk_full (snd (set_forecast self lat lon h payload t0 fs)) = false.
Proof.
  intros Hj Hfull. unfold set_forecast, _get_cache_path.
  destruct (mkdir_succeeds_Ret (strftime_date t0) fs) as [fs' Hmk]; [by right|].
  rewrite Hmk. apply mkdir_files in Hmk as [Hf Hd].
  cbn [mbind outcome_bind mret outcome_ret]. rewrite Hj.
  unfold json_dump. rewrite Hd, Hfull. simpl.
  by rewrite Hf.
Qed.

(** C6, as the code has it.  For a payload whose fields hold values of
    JSON, as all values of type [ForecastResult] here do, and that
    [to_dict] accepts, on a medium with room, and for coordinates that round
    to the same two floats (same hundredths, same sign): the keys are
    equal, [from_dict] reads back what [to_dict] writes, [set_forecast]
    returns [True], and a [get_forecast] within the TTL returns the payload,
    provided the read happens on the calendar day of the write or on the
    next day with nothing stored for the key in the bucket of that next
    day. *)
Theorem C6_set_then_get {P : Platform} {L : PlatformLaws P}
    (self : ForecastCacheManager) (lat lon lat' lon' : Q) (h : Z)
    (payload : ForecastResult) (t0 t1 : Z) (fs : filesystem) :
  valid_payload payload ->
  disk_full fs = false ->
  round2 lat = round2 lat' -> round2 lon = round2 lon' ->
  (t1 - t0 < ttl_seconds self * 1000000)%Z ->
  strftime_date t1 = strftime_date t0
  \/ (strftime_date t1 = (strftime_date t0 + 1)%Z
      /\ files fs !! (strftime_date t1, cache_file lat lon h) = None) ->
  _generate_cache_key lat' lon' h = _generate_cache_key lat lon h
  /\ (exists j, to_dict payload = Ret j /\ from_dict j = Ret payload)
  /\ fst (set_forecast self lat lon h payload t0 fs) = Ret true
  /\ fst (get_forecast self lat' lon' h t1
            (snd (set_forecast self lat lon h payload t0 fs)))
     = Ret (Some payload).
Proof.
  intros Hvalid Hfull Hlat Hlon Hage Hday.
  assert (Hkey : _generate_cache_key lat' lon' h = _generate_cache_key lat lon h).
  { unfold _generate_cache_key. by rewrite Hlat, Hlon. }
  assert (Hfile : cache_file lat' lon' h = cache_file lat lon h).
  { unfold cache_file. by rewrite Hkey. }
  destruct (valid_payload_to_dict payload Hvalid) as (j & Hj & Hback).
  destruct (set_forecast_stores self lat lon h payload j t0 fs Hj Hfull)
    as (Hset & Hfiles & Hroom).
  split; [done|]. split; [by exists j|]. split; [done|].
  set (fs1 := snd (set_forecast self lat lon h payload t0 fs)) in *.
  destruct Hday as [Hsame|[Hnext Hnone]].
  - apply (get_forecast_today self lat' lon' h t1 fs1 j t0); try done.
    + by right.
    + rewrite Hfile, Hfiles, Hsame. apply lookup_insert_eq.
  - apply (get_forecast_yesterday self lat' lon' h t1 fs1 j t0); try done.
    + by right.
    + unfold _is_cache_valid. rewrite Hfile, Hfiles.
      rewrite lookup_insert_ne; [by rewrite Hnone|].
      intros [= E]. lia.
    + rewrite Hfile, Hfiles, Hnext.
      replace (strftime_date t0 + 1 - 1)%Z with (strftime_date t0) by lia.
      apply lookup_insert_eq.
Qed.

(** With a TTL of a day at most and a clock that does not go back, a read
    within the TTL happens on the day of the write or on the next one. *)
Lemma one_day_ttl_buckets (ttl t0 t1 : Z) :
  (ttl <= 86400)%Z -> (t0 <= t1)%Z -> (t1 - t0 < ttl * 1000000)%Z ->
  strftime_date t1 = strftime_date t0
  \/ strftime_date t1 = (strftime_date t0 + 1)%Z.
Proof.
  unfold strftime_date, day_us. intros Httl Hle Hage.
  pose proof (Z.div_mod t0 86400000000 ltac:(lia)).
  pose proof (Z.mod_pos_bound t0 86400000000 ltac:(lia)).
  pose proof (Z.div_mod t1 86400000000 ltac:(lia)).
  pose proof (Z.mod_pos_bound t1 86400000000 ltac:(lia)).
  lia.
Qed.

(** The example of the design document: 18.521, 73.857 and 18.519, 73.858.
    The floats nearest to these decimals differ from them by less than
    1e-14, which does not change what they round to. *)
Lemma C6_set_then_get_witness :
  _generate_cache_key (P := text_platform) (18519 # 1000) (73858 # 1000) 10
  = _generate_cache_key (P := text_platform) (18521 # 1000) (73857 # 1000) 10
  /\ fst (get_forecast (__init__ (Some 3600%Z)) (18519 # 1000) (73858 # 1000) 10
            (5 * second)
            (snd (set_forecast (__init__ (Some 3600%Z)) (18521 # 1000) (73857 # 1000)
                    10 sample_forecast 0 empty_fs)))
     = Ret (Some sample_forecast).
Proof.
  destruct (C6_set_then_get (P := text_platform) (__init__ (Some 3600%Z))
              (18521 # 1000) (73857 # 1000) (18519 # 1000) (73858 # 1000) 10
              sample_forecast 0 (5 * second) empty_fs)
    as (H1 & _ & _ & H4).
  - reflexivity.
  - reflexivity.
  - reflexivity.
  - reflexivity.
  - reflexivity.
  - left. reflexivity.
  - split; [exact H1 | exact H4].
Defined.

(** C6, as stated, fails when the TTL is longer than a day: with a TTL of
    three days, a forecast stored at midnight of day 0 is not found one
    second after midnight of day 2, within the TTL. *)
Lemma C6_counterexample :
  fst (set_forecast (P := text_platform) (__init__ (Some 259200%Z))
         (185 # 10) (738 # 10) 10 sample_forecast 0 empty_fs) = Ret true
  /\ ((2 * day_us + second) - 0 < ttl_seconds (__init__ (Some 259200%Z)) * 1000000)%Z
  /\ fst (get_forecast (P := text_platform) (__init__ (Some 259200%Z))
            (185 # 10) (738 # 10) 10 (2 * day_us + second)
            (snd (set_forecast (P := text_platform) (__init__ (Some 259200%Z))
                    (185 # 10) (738 # 10) 10 sample_forecast 0 empty_fs)))
     = Ret None.
Proof. repeat split; vm_compute; reflexivity. Qed.

(** Two coordinates whose rounded values Python finds equal, [-0.0 == 0.0],
    and that do not share a key. *)
Lemma negative_zero_key :
  float2_eqb (round2 (-1 # 1000)) (round2 (1 # 1000)) = true
  /\ _generate_cache_key (P := text_platform) (-1 # 1000) (738 # 10) 10
     = "forecast_-0.0_73.8_10_-0.0_73."
  /\ _generate_cache_key (P := text_platform) (1 # 1000) (738 # 10) 10
     = "forecast_0.0_73.8_10_0.0_73.8".
Proof. repeat split; vm_compute; reflexivity. Qed.

(** ** Expiry *)




(** ** Corrupted files *)

(** A corrupted file in the bucket of the day: the read deletes it and
    returns [None]. *)
Lemma get_forecast_corrupt_today {P : Platform} self lat lon h now fs bytes m :
  mkdir_succeeds (strftime_date now) fs ->
  files fs !! (strftime_date now, cache_file lat lon h) = Some (mkFile (Garbage bytes) m) ->
  (now - m < ttl_seconds self * 1000000)%Z ->
  fst (get_forecast self lat lon h now fs) = Ret None
  /\ files (snd (get_forecast self lat lon h now fs))
     = delete (strftime_date now, cache_file lat lon h) (files fs).
Proof.
  intros Hdir Hfile Hage. unfold get_forecast, _get_cache_path.
  destruct (mkdir_succeeds_Ret _ _ Hdir) as [fs' Hmk]. rewrite Hmk.
  apply mkdir_files in Hmk as [Hf _].
  cbn [mbind outcome_bind mret outcome_ret]. fold (cache_file lat lon h).
  assert (Hvalid : _is_cache_valid self (strftime_date now, cache_file lat lon h) now fs' = true).
  { apply _is_cache_valid_iff. rewrite Hf. by eexists. }
  rewrite Hvalid. unfold read_forecast, json_load. rewrite Hf, Hfile.
  cbn [mbind outcome_bind]. simpl. by rewrite Hf.
Qed.

(** A corrupted file in the bucket of the day before, when the bucket of
    the day holds nothing valid for the key: the read returns [None] and
    deletes nothing. *)
Lemma get_forecast_corrupt_yesterday {P : Platform} self lat lon h now fs bytes m :
  mkdir_succeeds (strftime_date now) fs ->
  _is_cache_valid self (strftime_date now, cache_file lat lon h) now fs = false ->
  files fs !! ((strftime_date now - 1)%Z, cache_file lat lon h)
    = Some (mkFile (Garbage bytes) m) ->
  (now - m < ttl_seconds self * 1000000)%Z ->
  fst (get_forecast self lat lon h now fs) = Ret None
  /\ files (snd (get_forecast self lat lon h now fs)) = files fs.
Proof.
  intros Hdir Hnot Hfile Hage. unfold get_forecast, _get_cache_path.
  destruct (mkdir_succeeds_Ret _ _ Hdir) as [fs' Hmk]. rewrite Hmk.
  apply mkdir_files in Hmk as [Hf _].
  cbn [mbind outcome_bind mret outcome_ret]. fold (cache_file lat lon h).
  rewrite (_is_cache_valid_files self _ now fs fs' Hf), Hnot.
  rewrite strftime_date_yesterday.
  assert (Hvalid : _is_cache_valid self ((strftime_date now - 1)%Z, cache_file lat lon h) now fs' = true).
  { apply _is_cache_valid_iff. rewrite Hf. by eexists. }
  rewrite Hvalid. unfold read_forecast, json_load. rewrite Hf, Hfile.
  cbn [mbind outcome_bind]. done.
Qed.

(** C8 at a corrupted file in the bucket of the day before, for a manager
    with a TTL of an hour and a read ten seconds after midnight: the read
    returns [None] and the file stays, so the statistics count it before and
    after; the same file in the bucket of the day is deleted. *)
Theorem C8_corrupt_yesterday_kept :
  let self := __init__ (Some 3600%Z) in
  let now := (day_us + 10 * second)%Z in
  let mtime := (day_us - 60 * second)%Z in
  let fs := one_file 0 (Garbage "corrupted json data {{{") mtime false in
  let fs_today := one_file 1 (Garbage "corrupted json data {{{") (day_us + second) false in
  _is_cache_valid self (0%Z, cache_file (P := text_platform) (185 # 10) (738 # 10) 10) now fs = true
  /\ fst (get_forecast (P := text_platform) self (185 # 10) (738 # 10) 10 now fs) = Ret None
  /\ files (snd (get_forecast (P := text_platform) self (185 # 10) (738 # 10) 10 now fs))
       !! (0%Z, cache_file (P := text_platform) (185 # 10) (738 # 10) 10)
     = Some (mkFile (Garbage "corrupted json data {{{") mtime)
  /\ total_forecasts (get_cache_stats self now fs) = 1%nat
  /\ total_forecasts
       (get_cache_stats self now
          (snd (get_forecast (P := text_platform) self (185 # 10) (738 # 10) 10 now fs)))
     = 1%nat
  /\ total_forecasts
       (get_cache_stats self now
          (snd (get_forecast (P := text_platform) self (185 # 10) (738 # 10) 10 now fs_today)))
     = 0%nat.
Proof. repeat split; vm_compute; reflexivity. Qed.

(** ** Failures of the medium *)

(** With the date directory in place, neither call raises: a failed write
    makes [set_forecast] return [False]. *)
Lemma no_raise_with_directory {P : Platform} self lat lon h payload now fs :
  strftime_date now ∈ directories fs ->
  (exists b, fst (set_forecast self lat lon h payload now fs) = Ret b)
  /\ (exists r, fst (get_forecast self lat lon h now fs) = Ret r).
Proof.
  intros Hdir. unfold set_forecast, get_forecast, _get_cache_path, mkdir.
  rewrite bool_decide_true by done. cbn [mbind outcome_bind mret outcome_ret].
  split.
  - destruct (to_dict payload) as [j|]; [|by eexists].
    destruct (json_dump _ _ _ _) as [[[]|e] fs']; by eexists.
  - destruct (_is_cache_valid _ _ _ _).
    + destruct (read_forecast _ _); by eexists.
    + destruct (_is_cache_valid _ _ _ _); [|by eexists].
      destruct (read_forecast _ _); by eexists.
Qed.

(** Without the date directory, on a medium that takes no new directory,
    both calls raise. *)
Lemma raise_without_directory {P : Platform} self lat lon h payload now fs :
  strftime_date now ∉ directories fs -> disk_full fs = true ->
  fst (set_forecast self lat lon h payload now fs) = Raise OSError
  /\ fst (get_forecast self lat lon h now fs) = Raise OSError.
Proof.
  intros Hdir Hfull. unfold set_forecast, get_forecast, _get_cache_path, mkdir.
  rewrite bool_decide_false by done. by rewrite Hfull.
Qed.

(** C9 on a medium that is full.  The first call of the day has to create
    the date directory, and the [OSError] of [mkdir] leaves [set_forecast]
    and [get_forecast]; with the date directory in place the failed write
    makes [set_forecast] return [False]. *)
Theorem C9_mkdir_failure_escapes :
  fst (set_forecast (P := text_platform) (__init__ None) (185 # 10) (738 # 10) 10
         sample_forecast 0 full_fs) = Raise OSError
  /\ fst (get_forecast (P := text_platform) (__init__ None) (185 # 10) (738 # 10) 10
            0 full_fs) = Raise OSError
  /\ fst (set_forecast (P := text_platform) (__init__ None) (185 # 10) (738 # 10) 10
            sample_forecast 0 (mkFilesystem {[0%Z]} ∅ true)) = Ret false.
Proof. repeat split; vm_compute; reflexivity. Qed.

End CacheProps.

(** * Further properties of the admission queue *)

Module QueueMore.
Import RequestQueue QueueSamples QueueNotions QueueProps.
Local Open Scope Z_scope.

(** ** What the transitions do to the counters *)

Lemma length_pipeline s :
  length (pipeline s)
  = (length (queue s) + length (ready s) + length (sem_granted s)
     + length (sem_waiters s) + length (executing s))%nat.
Proof. unfold pipeline. rewrite !length_app. lia. Qed.

Lemma _wake_up_next_counters s s' :
  _wake_up_next s = Some s' ->
  total_requests s' = total_requests s /\ rejected_requests s' = rejected_requests s
  /\ completed_requests s' = completed_requests s
  /\ failed_requests s' = failed_requests s
  /\ timeout_requests s' = timeout_requests s.
Proof.
  unfold _wake_up_next. destruct (sem_waiters s); [done|]. by intros [= <-].
Qed.

Lemma wake_up_allowed_counters fuel s :
  let s' := wake_up_allowed fuel s in
  completed_requests s' = completed_requests s
  /\ failed_requests s' = failed_requests s.
Proof.
  revert s. induction fuel as [|fuel IH]; intros s; simpl; [done|].
  destruct (0 <? sem_value s); [|done].
  destruct (_wake_up_next s) as [s1|] eqn:E; [|done].
  apply _wake_up_next_counters in E as (_ & _ & E1 & E2 & _).
  destruct (IH s1) as [I1 I2]. simpl in *. split; congruence.
Qed.

Lemma release_counters s :
  completed_requests (release s) = completed_requests s
  /\ failed_requests (release s) = failed_requests s.
Proof.
  unfold release, _wake_up_next. simpl. by destruct (sem_waiters s).
Qed.

Lemma on_exception_counters q e s :
  let s' := on_exception q e s in
  completed_requests s' = completed_requests s
  /\ failed_requests s' = failed_requests s + 1
  /\ total_requests s' = total_requests s
  /\ rejected_requests s' = rejected_requests s
  /\ recent_execution_times s' = recent_execution_times s.
Proof.
  unfold on_exception.
  destruct (negb _); [destruct (set_exception _ _)|]; simpl; tauto.
Qed.

(** A task that is over is counted once, as completed or as failed, unless
    it ended with a [CancelledError]. *)
Lemma _execute_request_try_counters q o t s :
  let s' := _execute_request_try q o t s in
  completed_requests s' + failed_requests s'
    = completed_requests s + failed_requests s
      + match o with ThrowsCancelled => 0 | _ => 1 end
  /\ completed_requests s <= completed_requests s'
  /\ failed_requests s <= failed_requests s'
  /\ total_requests s' = total_requests s
  /\ rejected_requests s' = rejected_requests s
  /\ (recent_execution_times s' = recent_execution_times s
      \/ recent_execution_times s' = deque_append 10 t (recent_execution_times s)).
Proof.
  unfold _execute_request_try. destruct o as [result|msg|].
  - destruct (negb _); [destruct (set_result _ _)|];
      [simpl; repeat split; try lia; by right | | simpl; repeat split; try lia; by right].
    match goal with |- context [on_exception q ?e ?u] =>
      pose proof (on_exception_counters q e u) as F;
      set (x := on_exception q e u) in * end.
    clearbody x. cbv zeta in F. destruct F as (F1 & F2 & F3 & F4 & F5).
    simpl in F1, F2, F3, F4, F5. cbv zeta. rewrite F1, F2, F3, F4, F5.
    repeat split; try lia. by right.
  - destruct (on_exception_counters q (TaskError msg) s) as (F1 & F2 & F3 & F4 & F5).
    simpl in *. rewrite F1, F2, F3, F4, F5. repeat split; try lia. by left.
  - simpl. repeat split; try lia. by left.
Qed.

Lemma accounted_initial mc mq : accounted 0 (initial mc mq).
Proof. unfold accounted. simpl. lia. Qed.

Lemma step_accounted ev s s' k :
  is_reset ev = false -> step ev s = Some s' -> accounted k s ->
  accounted (if is_cancelled_task ev then S k else k) s'.
Proof.
  unfold accounted. rewrite !length_pipeline.
  intros Hev Hstep (Ht & Hn & Hr & Hc & Hf).
  destruct ev as [| |rid prio now|fid| |now| |i o t| | |]; try discriminate;
    simpl in Hstep.
  - injection Hstep as <-. unfold start. destruct (_running s); simpl; lia.
  - injection Hstep as <-. simpl. lia.
  - injection Hstep as <-. destruct (full s) eqn:Hfull.
    + rewrite enqueue_request_full by done. simpl. lia.
    + destruct (enqueue_request_not_full rid prio now s Hfull) as [-> _]. simpl.
      rewrite heappush_length. lia.
  - unfold enqueue_request_timeout in Hstep.
    destruct (futures s !! fid) as [f|]; [|discriminate].
    destruct (done f); [discriminate|]. injection Hstep as <-. simpl. lia.
  - inv_get Hstep q rest Hpop; simpl;
      apply HeapProps.heappop_perm, Permutation_length in Hpop; simpl in Hpop;
      rewrite length_app; simpl; lia.
  - unfold _execute_request_begin in Hstep.
    destruct (ready s) as [|q rest] eqn:Hrd; [discriminate|].
    destruct (locked _); injection Hstep as <-; simpl in *;
      rewrite length_app; simpl; lia.
  - unfold _execute_request_resume in Hstep.
    destruct (sem_granted s) as [|q rest] eqn:Hg; [discriminate|].
    injection Hstep as <-.
    match goal with |- context [wake_up_allowed ?n ?u] =>
      pose proof (wake_up_allowed_sem_only n u)
        as (S1 & S2 & S3 & S4 & _ & S5 & _ & _ & _ & _ & _ & S6 & S7 & _);
      destruct (wake_up_allowed_counters n u) as [W1 W2];
      set (w := wake_up_allowed n u) in * end.
    apply (f_equal length) in S1. rewrite !length_app in S1.
    simpl in *. rewrite S2, S3, S4, S5, S6, S7, W1, W2, length_app. simpl. lia.
  - unfold _execute_request_finish in Hstep.
    destruct (executing s !! i) as [q|] eqn:Hi; [|discriminate].
    injection Hstep as <-.
    match goal with |- context [release ?u] =>
      pose proof (release_sem_only u)
        as (S1 & S2 & S3 & S4 & _ & S5 & _ & _ & _ & _ & _ & S6 & S7 & _);
      destruct (release_counters u) as [R1 R2];
      set (r := release u) in * end.
    match goal with _ : context [_execute_request_try q o t ?u] |- _ =>
      destruct (_execute_request_try_frame q o t u)
        as (_ & _ & F1 & _ & _ & F2 & F3 & F4 & F5 & _ & _ & F6 & _);
      destruct (_execute_request_try_counters q o t u)
        as (C1 & C2 & C3 & C4 & C5 & _) end.
    apply (f_equal length) in S1. rewrite !length_app in S1.
    simpl in *. rewrite S2, S3, S4, S5, S6, S7, R1, R2.
    rewrite F1, F4, F5, F6, C4, C5. rewrite F2, F3 in S1.
    rewrite length_delete by eauto. apply lookup_lt_Some in Hi.
    destruct o; lia.
  - inv_resume Hstep; simpl; lia.
  - inv_exit Hstep. simpl. lia.
Qed.

Lemma run_accounted evs s s' k :
  forallb (fun ev => negb (is_reset ev)) evs = true -> run evs s = Some s' ->
  accounted k s -> accounted (k + cancelled_tasks evs) s'.
Proof.
  unfold cancelled_tasks.
  revert s k. induction evs as [|ev evs IH]; intros s k Hevs Hrun Hs; simpl in *.
  - injection Hrun as <-. by rewrite Nat.add_0_r.
  - apply andb_true_iff in Hevs as [Hev Hevs]. apply negb_true_iff in Hev.
    destruct (step ev s) as [s1|] eqn:E; [|discriminate].
    pose proof (step_accounted ev s s1 k Hev E Hs) as H1.
    specialize (IH s1 _ Hevs Hrun H1).
    destruct (is_cancelled_task ev) eqn:Hc.
    + rewrite filter_cons_True by done. simpl.
      by replace (k + S (length (filter _ evs)))%nat
        with (S k + length (filter (fun ev => is_cancelled_task ev = true) evs))%nat
        by lia.
    + by rewrite filter_cons_False by (by rewrite Hc).
Qed.

(** X11. In a run in which [reset_metrics] is not called the counters add
    up: every submission was rejected or got a future of its own, and every
    accepted request is held by the manager, or was counted exactly once,
    as completed or as failed, or its task ended with a [CancelledError]:
    [except Exception] does not catch that one, and the request is counted
    neither as completed nor as failed.  So [completed_requests] never
    exceeds [total_requests]. *)
Theorem counters_add_up mc mq s0 evs s :
  __init__ mc mq = Ret s0 ->
  forallb (fun ev => negb (is_reset ev)) evs = true ->
  run evs s0 = Some s ->
  total_requests s = rejected_requests s + Z.of_nat (next_future s)
  /\ Z.of_nat (next_future s)
     = Z.of_nat (length (pipeline s)) + completed_requests s + failed_requests s
       + Z.of_nat (cancelled_tasks evs)
  /\ 0 <= rejected_requests s /\ 0 <= completed_requests s
  /\ 0 <= failed_requests s.
Proof.
  intros Hinit Hevs Hrun. apply __init___inv in Hinit as [_ ->].
  apply (run_accounted evs (initial mc mq) s 0 Hevs Hrun), accounted_initial.
Qed.

(** Three requests are accepted and started with two slots; the task of
    the first ends with a [CancelledError] and that of the second returns:
    one request is held, one is counted as completed, one is counted
    nowhere. *)
Lemma counters_add_up_witness :
  exists s, run cancelled_events (initial 2 5) = Some s
    /\ total_requests s = rejected_requests s + Z.of_nat (next_future s)
    /\ Z.of_nat (next_future s)
       = Z.of_nat (length (pipeline s)) + completed_requests s + failed_requests s + 1
    /\ completed_requests s = 1 /\ failed_requests s = 0.
Proof.
  destruct (run cancelled_events (initial 2 5)) as [s|] eqn:E; [|by vm_compute in E].
  exists s. split; [done|].
  destruct (counters_add_up 2 5 (initial 2 5) cancelled_events s eq_refl eq_refl E)
    as (H1 & H2 & _).
  split; [exact H1|]. split; [exact H2|].
  vm_compute in E. injection E as <-. split; reflexivity.
Defined.

(** ** The buffer stays within its capacity *)

Lemma step_buffer_bound ev s s' :
  step ev s = Some s' ->
  (1 <= max_queue_size s -> qsize s <= max_queue_size s) ->
  1 <= max_queue_size s' -> qsize s' <= max_queue_size s'.
Proof.
  intros Hstep Hs. destruct (step_config ev s s' Hstep) as [_ ->]. intros Hcap.
  specialize (Hs Hcap).
  pose proof (step_buffer_frame ev s s' Hstep) as F. unfold qsize in *.
  destruct ev as [| |rid prio now|fid| |now| |i o t| | |]; simpl in Hstep;
    [| | | by rewrite (proj1 F) | | by rewrite (proj1 F) | by rewrite (proj1 F)
     | by rewrite (proj1 F) | by rewrite (proj1 F) | by rewrite (proj1 F)
     | by rewrite (proj1 F)].
  - injection Hstep as <-. unfold start. by destruct (_running s).
  - by injection Hstep as <-.
  - injection Hstep as <-. destruct (full s) eqn:Hfull.
    + by rewrite enqueue_request_full.
    + destruct (enqueue_request_not_full rid prio now s Hfull) as [-> _]. simpl.
      rewrite heappush_length.
      assert (~ (1 <= max_queue_size s /\ max_queue_size s <= qsize s)) as Hn.
      { rewrite <- full_iff. congruence. }
      unfold qsize in Hn. lia.
  - inv_get Hstep q rest Hpop; simpl;
      apply HeapProps.heappop_perm, Permutation_length in Hpop; simpl in Hpop; lia.
Qed.

(** X12. With a capacity of at least one, the buffer never holds more
    requests than the capacity. *)
Theorem buffer_within_capacity mc mq s :
  reachable mc mq s -> 1 <= mq -> qsize s <= mq.
Proof.
  intros Hr Hcap. destruct (reachable_config mc mq s Hr) as [_ Emq].
  assert (H : 1 <= max_queue_size s -> qsize s <= max_queue_size s).
  { clear Emq Hcap. revert s Hr.
    apply (reachable_invariant
             (fun s => 1 <= max_queue_size s -> qsize s <= max_queue_size s)).
    - intros _ H. unfold qsize. simpl in *. lia.
    - apply step_buffer_bound. }
  rewrite Emq in H. auto.
Qed.

Lemma buffer_within_capacity_witness :
  exists s, run C1_events (initial 2 5) = Some s /\ qsize s <= 5.
Proof.
  destruct (run C1_events (initial 2 5)) as [s|] eqn:E; [|by vm_compute in E].
  exists s. split; [done|].
  apply (buffer_within_capacity 2 5 s); [|lia].
  exists (initial 2 5), C1_events. split; [reflexivity | exact E].
Defined.

(** ** The window of recent execution times *)





(** ** The order of service *)

(** X14. [QueuedRequest.__lt__] is a strict weak order: nothing is below
    itself, the order is transitive, and so is its complement; and a request
    of a more urgent priority is below every request of a less urgent one,
    whatever the times. *)
Theorem QueuedRequest_lt_strict_weak_order :
  (forall x, QueuedRequest_lt x x = false)
  /\ (forall x y z, QueuedRequest_lt x y = true -> QueuedRequest_lt y z = true ->
                    QueuedRequest_lt x z = true)
  /\ (forall x y z, QueuedRequest_lt x y = false -> QueuedRequest_lt y z = false ->
                    QueuedRequest_lt x z = false)
  /\ (forall x y, priority_value (priority x) < priority_value (priority y) ->
                  QueuedRequest_lt x y = true /\ QueuedRequest_lt y x = false).
Proof.
  split_and!.
  - apply QueuedRequest_lt_irrefl.
  - apply QueuedRequest_lt_trans.
  - apply QueuedRequest_lt_negtrans.
  - intros x y H. rewrite QueuedRequest_lt_spec, QueuedRequest_lt_false. lia.
Qed.

(** X15. The worker takes a least request off the buffer: the request it
    hands to a new executor has a priority at least as urgent as every
    request that stays behind and, among those of its priority, a time of
    submission that is not later. *)
Theorem worker_takes_least mc mq s s' :
  reachable mc mq s -> step EvWorkerGet s = Some s' ->
  exists x, ready s' = ready s ++ [x] /\ queue s ≡ₚ x :: queue s'
    /\ forall y, y ∈ queue s' ->
         priority_value (priority x) < priority_value (priority y)
         \/ (priority_value (priority x) = priority_value (priority y)
             /\ queued_at x <= queued_at y).
Proof.
  intros Hr Hstep. pose proof (reachable_is_heap mc mq s Hr) as Hh.
  simpl in Hstep.
  inv_get Hstep x rest Hpop; exists x; simpl; (split; [done|]);
    (split; [by apply HeapProps.heappop_perm in Hpop|]);
    destruct (HeapOrder.heappop_heap QueuedRequest_lt QueuedRequest_lt_irrefl
                QueuedRequest_lt_trans QueuedRequest_lt_negtrans
                (queue s) x rest Hh Hpop) as [_ Hmin];
    intros y Hy; specialize (Hmin y Hy); apply QueuedRequest_lt_false in Hmin; lia.
Qed.

Lemma worker_takes_least_witness :
  exists s s', run [EvStart; EvEnqueue "r1" LOW 10; EvEnqueue "r2" NORMAL 11;
                    EvEnqueue "r3" HIGH 12] (initial 2 5) = Some s
    /\ step EvWorkerGet s = Some s'
    /\ exists x, ready s' = ready s ++ [x] /\ queue s ≡ₚ x :: queue s'.
Proof.
  destruct (run [EvStart; EvEnqueue "r1" LOW 10; EvEnqueue "r2" NORMAL 11;
                 EvEnqueue "r3" HIGH 12] (initial 2 5)) as [s|] eqn:E;
    [|by vm_compute in E].
  destruct (step EvWorkerGet s) as [s'|] eqn:E'.
  2:{ vm_compute in E. injection E as <-. by vm_compute in E'. }
  exists s, s'. split; [done|]. split; [done|].
  destruct (worker_takes_least 2 5 s s') as (x & H1 & H2 & _); [|exact E'|by exists x].
  exists (initial 2 5). eexists. split; [reflexivity | exact E].
Defined.

(** X16. Whatever the concurrency limit and the schedule, as long as
    nothing is submitted the tasks are started in one order, fixed by the
    state: first the executors that were handed a slot, then those that wait
    for one, then those that have not reached the semaphore, then the
    buffered requests in the order in which [heappop] delivers them. *)
Theorem start_order_is_fixed evs s s' :
  forallb (fun ev => negb (is_enqueue ev)) evs = true -> run evs s = Some s' ->
  log_started s'
    `prefix_of` log_started s ++ sem_granted s ++ sem_waiters s ++ ready s
                ++ pop_order (queue s).
Proof. apply started_in_pop_order. Qed.

Lemma start_order_is_fixed_witness :
  exists s', run C2_schedule (snd (submit C2_submissions (start (initial 1 10)))) = Some s'
    /\ request_id <$> log_started s' `prefix_of` ["a"; "c"; "b"; "d"].
Proof.
  destruct (run C2_schedule (snd (submit C2_submissions (start (initial 1 10)))))
    as [s'|] eqn:E; [|by vm_compute in E].
  exists s'. split; [done|].
  assert (G : forall u u', run C2_schedule u = Some u' ->
                request_id <$> dispatch_order u = ["a"; "c"; "b"; "d"] ->
                request_id <$> log_started u' `prefix_of` ["a"; "c"; "b"; "d"]).
  { intros u u' Hrun D.
    destruct (start_order_is_fixed C2_schedule u u' eq_refl Hrun) as [k Hk].
    unfold dispatch_order in D. rewrite Hk, fmap_app in D. rewrite <- D.
    by eexists. }
  exact (G (snd (submit C2_submissions (start (initial 1 10)))) s' E
           C2_dispatch_order).
Defined.

(** X17. When the submissions have pairwise distinct (priority, time)
    keys, fit in the buffer and arrive before the worker pops, the tasks are
    started in the order of these keys, for every concurrency limit and
    every schedule without further submissions. *)
Theorem distinct_keys_served_in_key_order reqs s evs s' :
  max_concurrent s <> 0 ->
  max_queue_size s <= 0 \/ Z.of_nat (length reqs) <= max_queue_size s ->
  queue s = [] -> ready s = [] -> sem_granted s = [] -> sem_waiters s = [] ->
  log_started s = [] ->
  NoDup ((fun r => (priority_value r.1.2, r.2)) <$> reqs) ->
  forallb (fun ev => negb (is_enqueue ev)) evs = true ->
  run evs (snd (submit reqs s)) = Some s' ->
  log_started s' `prefix_of` stable_sort (requests_of (next_future s) reqs).
Proof. apply distinct_keys_start_sorted. Qed.

Lemma distinct_keys_served_in_key_order_witness :
  exists s',
    run [EvWorkerGet; EvWorkerGet; EvWorkerGet;
         EvExecuteBegin 20; EvExecuteBegin 21; EvExecuteBegin 22]
        (snd (submit [("r1", LOW, 10); ("r2", NORMAL, 11); ("r3", HIGH, 12)]
                (start (initial 1 10)))) = Some s'
    /\ log_started s'
        `prefix_of` stable_sort
                      (requests_of 0 [("r1", LOW, 10); ("r2", NORMAL, 11);
                                      ("r3", HIGH, 12)]).
Proof.
  destruct (run [EvWorkerGet; EvWorkerGet; EvWorkerGet;
                 EvExecuteBegin 20; EvExecuteBegin 21; EvExecuteBegin 22]
              (snd (submit [("r1", LOW, 10); ("r2", NORMAL, 11); ("r3", HIGH, 12)]
                      (start (initial 1 10))))) as [s'|] eqn:E;
    [|by vm_compute in E].
  exists s'. split; [done|].
  apply (distinct_keys_served_in_key_order
           [("r1", LOW, 10); ("r2", NORMAL, 11); ("r3", HIGH, 12)]
           (start (initial 1 10))
           [EvWorkerGet; EvWorkerGet; EvWorkerGet;
            EvExecuteBegin 20; EvExecuteBegin 21; EvExecuteBegin 22] s').
  - simpl. lia.
  - right. simpl. lia.
  - reflexivity.
  - reflexivity.
  - reflexivity.
  - reflexivity.
  - reflexivity.
  - apply (bool_decide_unpack _). vm_compute. exact I.
  - reflexivity.
  - exact E.
Defined.

(** ** Futures of the requests at hand *)

(** X18. The requests the manager holds, buffered, on their way or
    executing, have futures of their own: no two of them share one, and
    each future is there and holds neither a result nor an exception. *)
Theorem held_requests_have_own_futures mc mq s :
  reachable mc mq s ->
  NoDup (future <$> pipeline s)
  /\ forall q, q ∈ pipeline s ->
       exists f, futures s !! future q = Some f
                 /\ (fut_state f = PENDING \/ fut_state f = CANCELLED).
Proof.
  intros Hr. pose proof (reachable_wf mc mq s Hr) as Hwf.
  split; [apply (wf_nodup s Hwf)|].
  intros q Hq. destruct (wf_live s Hwf q Hq) as (f & Hf & Hs).
  exists f. split; [done|].
  pose proof (wf_sets s Hwf _ _ Hf) as E. rewrite Hs in E.
  destruct (fut_state f); simpl in E; auto; discriminate.
Qed.

Lemma held_requests_have_own_futures_witness :
  exists s, run C1_events (initial 2 5) = Some s /\ NoDup (future <$> pipeline s).
Proof.
  destruct (run C1_events (initial 2 5)) as [s|] eqn:E; [|by vm_compute in E].
  exists s. split; [done|].
  apply (held_requests_have_own_futures 2 5 s).
  exists (initial 2 5), C1_events. split; [reflexivity | exact E].
Defined.

(** ** A concurrency limit of zero *)

(** X19. With a concurrency limit of zero and room in the buffer,
    [enqueue_request] raises [ZeroDivisionError], from the estimate of the
    wait, after it has created the future and buffered the request: the
    caller gets the exception, the request stays in the buffer, and it is
    not counted as rejected. *)
Theorem enqueue_with_no_slots id p now s :
  max_concurrent s = 0 -> full s = false ->
  fst (enqueue_request id p now s) = Raise ZeroDivisionError
  /\ queue (snd (enqueue_request id p now s))
     ≡ₚ mkQueuedRequest id p now (next_future s) :: queue s
  /\ futures (snd (enqueue_request id p now s)) !! next_future s = Some new_future
  /\ rejected_requests (snd (enqueue_request id p now s)) = rejected_requests s.
Proof.
  intros Hmc Hfull.
  destruct (enqueue_request_not_full id p now s Hfull) as [Hs _].
  rewrite Hs. split; [|split; [|split]].
  - unfold enqueue_request.
    change (full (set_total_requests (total_requests s + 1) s)) with (full s).
    rewrite Hfull. cbv zeta. unfold get_estimated_wait_time, qsize. simpl.
    rewrite heappush_length.
    destruct (Z.of_nat (S (length (queue s))) =? 0) eqn:E; [apply Z.eqb_eq in E; lia|].
    by rewrite Hmc.
  - simpl. apply HeapProps.heappush_perm.
  - simpl. apply lookup_insert_eq.
  - done.
Qed.

Lemma enqueue_with_no_slots_witness :
  fst (enqueue_request "r1" NORMAL 7 (initial 0 5)) = Raise ZeroDivisionError
  /\ queue (snd (enqueue_request "r1" NORMAL 7 (initial 0 5)))
     ≡ₚ [mkQueuedRequest "r1" NORMAL 7 0].
Proof.
  destruct (enqueue_with_no_slots "r1" NORMAL 7 (initial 0 5) eq_refl eq_refl)
    as (H1 & H2 & _).
  split; [exact H1 | exact H2].
Defined.

(** ** No accepted request is stuck *)

Lemma wake_up_allowed_done fuel s :
  0 <= sem_value s -> (length (sem_waiters s) <= fuel)%nat ->
  sem_waiters (wake_up_allowed fuel s) = []
  \/ sem_value (wake_up_allowed fuel s) = 0.
Proof.
  revert s. induction fuel as [|fuel IH]; intros s Hv Hlen; simpl.
  - left. destruct (sem_waiters s); [done|simpl in Hlen; lia].
  - destruct (0 <? sem_value s) eqn:E; [|right; apply Z.ltb_ge in E; lia].
    apply Z.ltb_lt in E. unfold _wake_up_next.
    destruct (sem_waiters s) as [|w ws] eqn:Hw; [by left|].
    apply IH; simpl in *; lia.
Qed.

Lemma release_grants s w ws :
  sem_waiters s = w :: ws ->
  sem_granted (release s) = sem_granted s ++ [w]
  /\ log_started (release s) = log_started s /\ _running (release s) = _running s.
Proof. intros Hw. unfold release, _wake_up_next. simpl. by rewrite Hw. Qed.

Lemma release_no_waiters s :
  sem_waiters s = [] -> sem_waiters (release s) = [].
Proof. intros Hw. unfold release, _wake_up_next. simpl. by rewrite Hw. Qed.

Lemma step_no_idle_slot ev s s' :
  step ev s = Some s' -> slots_inv s -> no_idle_slot s -> no_idle_slot s'.
Proof.
  unfold no_idle_slot. intros Hstep (Hv & _ & _) Hs.
  destruct ev as [| |rid prio now|fid| |now| |i o t| | |]; simpl in Hstep.
  - injection Hstep as <-. unfold start. by destruct (_running s).
  - by injection Hstep as <-.
  - injection Hstep as <-.
    destruct (enqueue_request_frame rid prio now s)
      as (_ & _ & _ & -> & -> & -> & _). done.
  - unfold enqueue_request_timeout in Hstep.
    destruct (futures s !! fid) as [f|]; [|discriminate].
    destruct (done f); [discriminate|]. by injection Hstep as <-.
  - inv_get Hstep q rest Hpop; done.
  - unfold _execute_request_begin in Hstep.
    destruct (ready s) as [|q rest]; [discriminate|].
    unfold locked in Hstep. simpl in Hstep.
    destruct (sem_value s =? 0) eqn:E0; simpl in Hstep.
    + injection Hstep as <-. simpl. intros _. left. by apply Z.eqb_eq.
    + case_bool_decide as Hw; simpl in Hstep; injection Hstep as <-; simpl.
      * apply app_eq_nil in Hw as [Hw _]. by rewrite Hw.
      * intros _. destruct (sem_granted s) as [|g gs] eqn:Hg; [|by right].
        rewrite app_nil_r in Hw. apply Hs, Hw.
  - unfold _execute_request_resume in Hstep.
    destruct (sem_granted s) as [|q rest]; [discriminate|].
    injection Hstep as <-. simpl.
    match goal with |- context [wake_up_allowed ?n ?u] =>
      destruct (wake_up_allowed_done n u) as [Hd|Hd]; [simpl; lia|simpl; lia| |] end.
    + intros Hne. by rewrite Hd in Hne.
    + intros _. by left.
  - unfold _execute_request_finish in Hstep.
    destruct (executing s !! i) as [q|]; [|discriminate].
    injection Hstep as <-.
    match goal with |- context [release ?u] => set (u0 := u) end.
    clearbody u0. destruct (sem_waiters u0) as [|w ws] eqn:Hw.
    + intros Hne. by rewrite (release_no_waiters u0 Hw) in Hne.
    + destruct (release_grants u0 w ws Hw) as (-> & _). intros _. right.
      by destruct (sem_granted u0).
  - by injection Hstep as <-.
  - inv_resume Hstep; done.
  - by inv_exit Hstep.
Qed.

Lemma reachable_no_idle_slot mc mq s : reachable mc mq s -> no_idle_slot s.
Proof.
  intros Hr.
  cut (slots_inv s /\ no_idle_slot s); [tauto|]. revert s Hr.
  apply (reachable_invariant (fun s => slots_inv s /\ no_idle_slot s)).
  - intros Hmc. split; [by apply slots_inv_initial|]. by intros H.
  - intros ev s s' Hstep [H1 H2]. split.
    + by apply (step_slots_inv ev s).
    + by apply (step_no_idle_slot ev s).
Qed.

Lemma run_one ev s s1 : step ev s = Some s1 -> run [ev] s = Some s1.
Proof. intros H. cbn [run]. by rewrite H. Qed.

Lemma starts_next_after ev s s1 :
  is_enqueue ev = false -> step ev s = Some s1 ->
  log_started s1 = log_started s -> _running s1 = _running s ->
  starts_next s1 -> starts_next s.
Proof.
  intros Hev Hstep Hlog Hrun (evs & s2 & x & H1 & H2 & H3 & H4 & H5).
  exists (ev :: evs), s2, x. simpl. rewrite Hev, Hstep. simpl.
  split_and!; try done; congruence.
Qed.

(** An executor that was handed a slot enters the block. *)
Lemma resume_starts s q rest : sem_granted s = q :: rest -> starts_next s.
Proof.
  intros Hg. exists [EvExecuteResume]. simpl. unfold _execute_request_resume.
  rewrite Hg. eexists _, q. split; [done|]. split; [done|].
  match goal with |- context [wake_up_allowed ?n ?u] =>
    pose proof (wake_up_allowed_sem_only n u) as Hs;
    set (w := wake_up_allowed n u) in * end.
  unfold sem_only in Hs. simpl in *.
  destruct Hs as (_ & _ & _ & _ & _ & _ & _ & _ & -> & -> & _).
  split_and!; [done| |done]. apply elem_of_app. right. by left.
Qed.

(** With every slot held by an executing request, the end of one of the
    tasks hands its slot to the first executor that waits. *)
Lemma finish_then_resume mc mq s w ws :
  reachable mc mq s -> 1 <= mc ->
  sem_granted s = [] -> sem_waiters s = w :: ws -> sem_value s = 0 ->
  starts_next s.
Proof.
  intros Hr Hmc Hg Hw Hv.
  destruct (reachable_slots mc mq s Hr) as (_ & Hact & Hsum).
  destruct (reachable_config mc mq s Hr) as [Emc _].
  rewrite Hg, Hv, Emc in Hsum. simpl in Hsum.
  destruct (executing s) as [|e es] eqn:He; [simpl in Hact; lia|].
  assert (Hstep : exists s1, step (EvTaskDone 0 (Throws EmptyString) 0) s = Some s1
            /\ sem_granted s1 = [w] /\ log_started s1 = log_started s
            /\ _running s1 = _running s).
  { simpl. unfold _execute_request_finish. rewrite He. simpl.
    eexists. split; [reflexivity|].
    match goal with |- context [release ?u] => set (u0 := u) end.
    pose proof (on_exception_frame e (TaskError EmptyString)
                  (set_executing es s))
      as (_ & _ & _ & _ & _ & F1 & F2 & _ & _ & F3 & F4 & _).
    simpl in F1, F2, F3, F4.
    assert (Hw0 : sem_waiters u0 = w :: ws) by (subst u0; simpl; congruence).
    destruct (release_grants u0 w ws Hw0) as (-> & -> & ->).
    subst u0. simpl. rewrite F2, F3, F4, Hg. done. }
  destruct Hstep as (s1 & Hstep & Hg1 & Hl1 & Hr1).
  apply (starts_next_after (EvTaskDone 0 (Throws EmptyString) 0) s s1 eq_refl Hstep Hl1 Hr1).
  by apply (resume_starts s1 w []).
Qed.

(** An executor that reaches the semaphore enters the block, or waits
    until the end of an executing task. *)
Lemma begin_starts mc mq s q rest :
  reachable mc mq s -> 1 <= mc ->
  sem_granted s = [] -> sem_waiters s = [] -> ready s = q :: rest ->
  starts_next s.
Proof.
  intros Hr Hmc Hg Hw Hrd.
  destruct (step (EvExecuteBegin 0) s) as [s1|] eqn:Hstep.
  2:{ simpl in Hstep. unfold _execute_request_begin in Hstep. rewrite Hrd in Hstep.
      by destruct (locked _). }
  pose proof (reachable_step mc mq _ s s1 Hr Hstep) as Hr1.
  pose proof Hstep as Hstep0.
  simpl in Hstep. unfold _execute_request_begin in Hstep. rewrite Hrd in Hstep.
  unfold locked in Hstep. simpl in Hstep. rewrite Hg, Hw in Hstep. simpl in Hstep.
  rewrite orb_false_r in Hstep.
  destruct (sem_value s =? 0) eqn:E0; injection Hstep as Hs1.
  - apply Z.eqb_eq in E0.
    apply (starts_next_after (EvExecuteBegin 0) s s1 eq_refl Hstep0);
      [by subst s1|by subst s1|].
    apply (finish_then_resume mc mq s1 q []); try done; by subst s1.
  - exists [EvExecuteBegin 0], s1, q. split; [done|].
    split; [by apply run_one|].
    subst s1. simpl. split_and!; try done.
    apply elem_of_app. right. by left.
Qed.

(** The worker takes a buffered request and creates its executor. *)
Lemma get_starts_waiting mc mq s :
  reachable mc mq s -> 1 <= mc -> _running s = true ->
  (0 < workers_waiting s)%nat ->
  sem_granted s = [] -> sem_waiters s = [] -> ready s = [] -> queue s <> [] ->
  starts_next s.
Proof.
  intros Hr Hmc Hrun Hwk Hg Hw Hrd Hq.
  destruct (HeapProps.heappop_nonempty QueuedRequest_lt (queue s) Hq)
    as (x & rest & Hpop).
  assert (Hstep : step EvWorkerGet s
                  = Some (set_ready (ready s ++ [x]) (set_queue rest s))).
  { simpl. unfold _process_queue. destruct (workers_waiting s); [lia|].
    rewrite Hpop. cbv zeta. cbn [_running set_ready set_queue]. by rewrite Hrun. }
  apply (starts_next_after EvWorkerGet s _ eq_refl Hstep); [done..|].
  apply (begin_starts mc mq _ x []); try done.
  - by apply (reachable_step mc mq _ s _ Hr Hstep).
  - simpl. by rewrite Hrd.
Qed.

(** The worker takes a buffered request and creates its executor; a worker
    that has just taken one reads [_running] first. *)
Lemma get_starts mc mq s :
  reachable mc mq s -> 1 <= mc -> _running s = true ->
  sem_granted s = [] -> sem_waiters s = [] -> ready s = [] -> queue s <> [] ->
  starts_next s.
Proof.
  intros Hr Hmc Hrun Hg Hw Hrd Hq.
  destruct (workers_waiting s) as [|n] eqn:Hwk;
    [|apply (get_starts_waiting mc mq s); try done; lia].
  pose proof (reachable_worker_alive mc mq s Hr Hrun) as Ha. rewrite Hwk in Ha.
  destruct (workers_resuming s) as [|m] eqn:Hrs; [simpl in Ha; lia|].
  assert (Hstep : step EvWorkerResume s
                  = Some (set_workers_waiting 1 (set_workers_resuming m s))).
  { simpl. unfold _process_queue_resume. rewrite Hrs. cbv zeta.
    cbn [_running set_workers_resuming workers_waiting]. by rewrite Hrun, Hwk. }
  apply (starts_next_after EvWorkerResume s _ eq_refl Hstep); [done..|].
  apply (get_starts_waiting mc mq _); try done.
  - by apply (reachable_step mc mq _ s _ Hr Hstep).
  - simpl. lia.
Qed.

Lemma progress mc mq s :
  reachable mc mq s -> 1 <= mc -> _running s = true -> waiting s <> [] ->
  starts_next s.
Proof.
  intros Hr Hmc Hrun Hne. unfold waiting in Hne.
  destruct (sem_granted s) as [|g gs] eqn:Hg; [|by apply (resume_starts s g gs)].
  destruct (sem_waiters s) as [|w ws] eqn:Hw.
  - destruct (ready s) as [|q rest] eqn:Hrd;
      [|by apply (begin_starts mc mq s q rest)].
    apply (get_starts mc mq s); try done. intros Hq. rewrite Hq in Hne. done.
  - destruct (reachable_no_idle_slot mc mq s Hr) as [Hv|Hn];
      [by rewrite Hw| |by rewrite Hg in Hn].
    by apply (finish_then_resume mc mq s w ws).
Qed.

Lemma can_start_at mc mq n :
  forall s q,
    reachable mc mq s -> 1 <= mc -> _running s = true ->
    waiting s !! n = Some q ->
    exists evs s',
      forallb (fun ev => negb (is_enqueue ev)) evs = true
      /\ run evs s = Some s' /\ q ∈ executing s'.
Proof.
  induction n as [|n IH]; intros s q Hr Hmc Hrun Hq.
  - destruct (progress mc mq s Hr Hmc Hrun) as (evs & s1 & x & H1 & H2 & H3 & H4 & H5).
    { intros Hnil. by rewrite Hnil in Hq. }
    pose proof (run_dispatch_order evs s s1 H1 H2) as D.
    change (log_started s1 ++ waiting s1 = log_started s ++ waiting s) in D.
    rewrite H3, <- app_assoc in D. apply app_inv_head in D.
    rewrite <- D in Hq. simpl in Hq. injection Hq as <-.
    by exists evs, s1.
  - destruct (progress mc mq s Hr Hmc Hrun) as (evs & s1 & x & H1 & H2 & H3 & H4 & H5).
    { intros Hnil. by rewrite Hnil in Hq. }
    pose proof (run_dispatch_order evs s s1 H1 H2) as D.
    change (log_started s1 ++ waiting s1 = log_started s ++ waiting s) in D.
    rewrite H3, <- app_assoc in D. apply app_inv_head in D.
    rewrite <- D in Hq. simpl in Hq.
    destruct (IH s1 q) as (evs2 & s2 & I1 & I2 & I3); try done.
    { by apply (reachable_run mc mq evs s s1). }
    { congruence. }
    exists (evs ++ evs2), s2. split_and!; [|by rewrite run_app, H2|done].
    rewrite forallb_app. by rewrite H1, I1.
Qed.

(** X20. No accepted request is stuck: with a concurrency limit of at least
    one and the worker running, every request that is buffered or on its way
    to the semaphore can have its task started, by a run of the manager in
    which nothing more is submitted. *)
Theorem accepted_request_can_start mc mq s q :
  reachable mc mq s -> 1 <= mc -> _running s = true ->
  q ∈ queue s \/ q ∈ ready s \/ q ∈ sem_waiters s \/ q ∈ sem_granted s ->
  exists evs s',
    forallb (fun ev => negb (is_enqueue ev)) evs = true
    /\ run evs s = Some s' /\ q ∈ executing s'.
Proof.
  intros Hr Hmc Hrun Hq.
  assert (Hw : q ∈ waiting s).
  { unfold waiting. rewrite !elem_of_app.
    destruct (pop_order_sorted (queue s)) as [_ Hp];
      [by apply (reachable_is_heap mc mq)|].
    rewrite Hp. tauto. }
  apply list_elem_of_lookup in Hw as [n Hn].
  by apply (can_start_at mc mq n s q).
Qed.

Lemma accepted_request_can_start_witness :
  exists s evs s', run C5_events (initial 1 5) = Some s
    /\ run evs s = Some s'
    /\ mkQueuedRequest "r1" NORMAL 7 0 ∈ executing s'.
Proof.
  destruct (run C5_events (initial 1 5)) as [s|] eqn:E; [|by vm_compute in E].
  assert (Hr : reachable 1 5 s).
  { exists (initial 1 5), C5_events. split; [reflexivity | exact E]. }
  assert (Eq : queue s = [mkQueuedRequest "r1" NORMAL 7 0] /\ _running s = true).
  { vm_compute in E. injection E as <-. split; reflexivity. }
  destruct Eq as [Eq Erun].
  destruct (accepted_request_can_start 1 5 s (mkQueuedRequest "r1" NORMAL 7 0)
              Hr ltac:(lia) Erun) as (evs & s' & _ & H2 & H3).
  { left. rewrite Eq. left. }
  exists s, evs, s'. split; [done|]. split; [exact H2 | exact H3].
Defined.

(** ** Monitoring *)

Lemma round_half_even_percent n d :
  0 <= n -> 0 < d -> n <= 10000 * d ->
  0 <= ForecastCache.round_half_even n d <= 10000.
Proof.
  intros Hn Hd Hle. unfold ForecastCache.round_half_even.
  pose proof (Z.div_mod n d ltac:(lia)) as Hdm.
  pose proof (Z.mod_pos_bound n d Hd) as Hm.
  pose proof (Z.div_pos n d Hn Hd) as Hq.
  assert (n / d <= 10000) by (apply Z.div_le_upper_bound; lia).
  destruct (decide (n / d = 10000)) as [E|E].
  - assert (n mod d = 0) by nia.
    destruct (2 * (n mod d) <? d) eqn:E1; [lia|]. apply Z.ltb_ge in E1. lia.
  - repeat case_match; lia.
Qed.

Lemma success_rate_percent_bound c t :
  0 <= c <= t ->
  let x := if 0 <? t then (inject_Z c / inject_Z t * 100)%Q else 0%Q in
  ForecastCache.negative (ForecastCache.round2 x) = false
  /\ 0 <= ForecastCache.hundredths (ForecastCache.round2 x) <= 10000.
Proof.
  intros Hc. destruct (0 <? t) eqn:Et; cbv zeta.
  - apply Z.ltb_lt in Et. destruct t as [|p|p]; try lia.
    unfold ForecastCache.round2, Qdiv, Qinv, Qmult, inject_Z. simpl.
    split; [apply Z.ltb_ge; lia|].
    apply round_half_even_percent; [lia|lia|].
    rewrite Z.abs_eq by lia. rewrite Pos.mul_1_r. lia.
  - vm_compute. split; [done|]. split; discriminate.
Qed.

(** X24. With a concurrency limit of at least one, [get_queue_stats]
    returns; and in a run in which [reset_metrics] is not called, the
    success rate it reports lies between 0.0 and 100.0. *)
Theorem queue_stats_success_rate mc mq s0 evs s :
  __init__ mc mq = Ret s0 -> 1 <= mc ->
  forallb (fun ev => negb (is_reset ev)) evs = true ->
  run evs s0 = Some s ->
  exists d x,
    QueueStats.get_queue_stats s = Ret d
    /\ QueueStats.stats_get "success_rate_percent" d = Some (QueueStats.StatFloat x)
    /\ ForecastCache.negative x = false
    /\ 0 <= ForecastCache.hundredths x <= 10000.
Proof.
  intros Hinit Hmc Hevs Hrun.
  assert (Hr : reachable mc mq s) by (by exists s0, evs).
  destruct (reachable_config mc mq s Hr) as [Emc _].
  apply __init___inv in Hinit as [_ ->].
  pose proof (run_accounted evs (initial mc mq) s 0 Hevs Hrun (accounted_initial mc mq))
    as (Ht & Hn & Hrej & Hc & Hf).
  assert (Hest : exists w, get_estimated_wait_time s = Ret w).
  { unfold get_estimated_wait_time. destruct (qsize s =? 0); [by eexists|].
    cbv zeta. destruct (max_concurrent s =? 0) eqn:E; [|by eexists].
    apply Z.eqb_eq in E. lia. }
  destruct Hest as [w Hw]. unfold QueueStats.get_queue_stats. rewrite Hw.
  cbn [mbind outcome_bind mret outcome_ret].
  eexists _, _. split; [reflexivity|]. split; [reflexivity|].
  apply success_rate_percent_bound. lia.
Qed.

Lemma queue_stats_success_rate_witness :
  exists s d x, run C1_events (initial 2 5) = Some s
    /\ QueueStats.get_queue_stats s = Ret d
    /\ QueueStats.stats_get "success_rate_percent" d = Some (QueueStats.StatFloat x)
    /\ 0 <= ForecastCache.hundredths x <= 10000.
Proof.
  destruct (run C1_events (initial 2 5)) as [s|] eqn:E; [|by vm_compute in E].
  destruct (queue_stats_success_rate 2 5 (initial 2 5) C1_events s eq_refl
              ltac:(lia) eq_refl E) as (d & x & H1 & H2 & _ & H4).
  exists s, d, x. split; [done|]. split; [exact H1|]. split; [exact H2 | exact H4].
Defined.

End QueueMore.

(** * Properties of the cache keys *)

Module KeyProps.
Import Stdlib.Strings.Ascii.
Import ForecastCache Text.
Local Open Scope string_scope.

Lemma string_app_assoc (a b c : string) : (a ++ b) ++ c = a ++ b ++ c.
Proof.
  induction a as [|x a IH]; [done|].
  change (String x ((a ++ b) ++ c) = String x (a ++ b ++ c)). by rewrite IH.
Qed.

Lemma string_app_nil_r (a : string) : a ++ "" = a.
Proof.
  induction a as [|x a IH]; [done|].
  change (String x (a ++ "") = String x a). by rewrite IH.
Qed.

Lemma string_app_inv_head (a b c : string) : a ++ b = a ++ c -> b = c.
Proof.
  induction a as [|x a IH]; [done|].
  change (String x (a ++ b) = String x (a ++ c) -> b = c). intros [= H]. auto.
Qed.

Lemma string_length_app (a b : string) :
  String.length (a ++ b) = (String.length a + String.length b)%nat.
Proof.
  induction a as [|x a IH]; [done|].
  change (S (String.length (a ++ b)) = S (String.length a + String.length b)).
  by rewrite IH.
Qed.

Lemma string_app_inv_tail (a b c : string) : a ++ c = b ++ c -> a = b.
Proof.
  revert b. induction a as [|x a IH]; intros [|y b] Heq; [done| | |].
  - apply (f_equal String.length) in Heq. rewrite !string_length_app in Heq.
    change (String.length (String y b)) with (S (String.length b)) in Heq.
    change (String.length "") with 0%nat in Heq. lia.
  - apply (f_equal String.length) in Heq. rewrite !string_length_app in Heq.
    change (String.length (String x a)) with (S (String.length a)) in Heq.
    change (String.length "") with 0%nat in Heq. lia.
  - change (String x (a ++ c) = String y (b ++ c)) in Heq.
    injection Heq as -> Heq. by rewrite (IH b Heq).
Qed.

Lemma all_chars_app p a b :
  all_chars p (a ++ b) = all_chars p a && all_chars p b.
Proof.
  induction a as [|c a IH]; [done|].
  change (p c && all_chars p (a ++ b) = p c && all_chars p a && all_chars p b).
  by rewrite IH, andb_assoc.
Qed.

Lemma all_chars_impl (p q : Ascii.ascii -> bool) s :
  (forall c, p c = true -> q c = true) ->
  all_chars p s = true -> all_chars q s = true.
Proof.
  intros Hpq. induction s as [|c s IH]; simpl; [done|].
  rewrite !andb_true_iff. intros [??]. auto.
Qed.

(** Two texts cut at the first occurrence of a separator are equal only if
    both parts are. *)
Lemma append_sep_inj sep a a' b b' :
  all_chars (is_not sep) a = true -> all_chars (is_not sep) a' = true ->
  a ++ String sep b = a' ++ String sep b' -> a = a' /\ b = b'.
Proof.
  revert a'. induction a as [|c a IH]; intros [|c' a']; simpl;
    rewrite ?andb_true_iff.
  - intros _ _ [= ->]. done.
  - intros _ [Hc _] [= <- _]. unfold is_not in Hc. by rewrite Ascii.eqb_refl in Hc.
  - intros [Hc _] _ [= -> _]. unfold is_not in Hc. by rewrite Ascii.eqb_refl in Hc.
  - intros [_ Ha] [_ Ha'] [= -> Heq].
    destruct (IH a' Ha Ha' Heq) as [-> ->]. done.
Qed.

Lemma pretty_N_char_digit x : is_digit (pretty_N_char x) = true.
Proof. unfold pretty_N_char. by repeat case_match. Qed.

Lemma pretty_N_go_digits x s :
  exists d, pretty_N_go x s = d ++ s /\ all_chars is_digit d = true
            /\ (0 < x -> d <> "")%N.
Proof.
  revert s. induction (N.lt_wf_0 x) as [x _ IH]; intros s.
  destruct (decide (x = 0%N)) as [->|Hx].
  - exists "". rewrite pretty_N_go_0. split_and!; [done..|lia].
  - rewrite pretty_N_go_step by lia.
    destruct (IH (x `div` 10)%N) with (s := String (pretty_N_char (x `mod` 10)) s)
      as (d & -> & Hd & _).
    { apply N.div_lt; lia. }
    exists (d ++ String (pretty_N_char (x `mod` 10)) "").
    split_and!.
    + by rewrite string_app_assoc.
    + rewrite all_chars_app, Hd. simpl. by rewrite pretty_N_char_digit.
    + intros _. by destruct d.
Qed.

Lemma pretty_N_digits (x : N) :
  all_chars is_digit (pretty x) = true /\ pretty x <> "".
Proof.
  unfold pretty, pretty_N. case_decide as Hx; [done|].
  destruct (pretty_N_go_digits x "") as (d & -> & Hd & Hne).
  rewrite string_app_nil_r. split; [done|]. apply Hne. lia.
Qed.

Lemma pretty_Z_digits (z : Z) :
  (0 <= z)%Z -> all_chars is_digit (pretty z) = true /\ pretty z <> "".
Proof.
  intros Hz. destruct z as [|p|p]; [done| |lia].
  apply (pretty_N_digits (N.pos p)).
Qed.

Lemma is_digit_is_not sep c :
  is_digit sep = false -> is_digit c = true -> is_not sep c = true.
Proof.
  unfold is_not. intros Hsep Hc. destruct (Ascii.eqb_spec c sep) as [->|]; [|done].
  congruence.
Qed.

Lemma digits_without sep s :
  is_digit sep = false -> all_chars is_digit s = true ->
  all_chars (is_not sep) s = true.
Proof. intros Hsep. apply all_chars_impl. intros c. by apply is_digit_is_not. Qed.

Lemma pretty_Z_without sep (z : Z) :
  is_digit sep = false -> sep <> "-"%char ->
  all_chars (is_not sep) (pretty z) = true.
Proof.
  intros Hsep Hdash. destruct z as [|p|p].
  - apply digits_without; [done|]. by apply pretty_Z_digits.
  - apply digits_without; [done|]. by apply (pretty_Z_digits (Z.pos p)).
  - change (pretty (Z.neg p)) with (String "-" (pretty (N.pos p))). simpl.
    rewrite andb_true_iff. split.
    + unfold is_not. destruct (Ascii.eqb_spec "-"%char sep); [by subst|done].
    + apply digits_without; [done|]. apply pretty_N_digits.
Qed.

Lemma repr_fraction f :
  repr f = (if negative f then "-" else "")
           ++ pretty (hundredths f / 100)%Z ++ "."
           ++ fraction_digits (hundredths f mod 100)%Z.
Proof. done. Qed.

Lemma fraction_digits_without sep c :
  is_digit sep = false -> sep <> "-"%char ->
  all_chars (is_not sep) (fraction_digits c) = true.
Proof.
  intros Hsep Hdash. unfold fraction_digits. repeat case_match.
  - by apply pretty_Z_without.
  - simpl. rewrite andb_true_iff. split; [by apply is_digit_is_not|].
    by apply pretty_Z_without.
  - by apply pretty_Z_without.
Qed.

(** The text of a rounded coordinate has no underscore. *)
Lemma repr_without_underscore f : all_chars (is_not "_") (repr f) = true.
Proof.
  rewrite repr_fraction, !all_chars_app.
  rewrite pretty_Z_without, fraction_digits_without by done.
  by destruct (negative f).
Qed.

Lemma fraction_digits_inj_bool :
  forallb (fun c => forallb (fun c' =>
      implb (String.eqb (fraction_digits c) (fraction_digits c')) (c =? c')%Z)
    (seqZ 0 100)) (seqZ 0 100) = true.
Proof. vm_compute. reflexivity. Qed.

Lemma fraction_digits_inj c c' :
  (0 <= c < 100)%Z -> (0 <= c' < 100)%Z ->
  fraction_digits c = fraction_digits c' -> c = c'.
Proof.
  intros Hc Hc' Heq. pose proof fraction_digits_inj_bool as H.
  rewrite forallb_forall in H. specialize (H c).
  rewrite <- list_elem_of_In, elem_of_seqZ in H. specialize (H ltac:(lia)).
  rewrite forallb_forall in H. specialize (H c').
  rewrite <- list_elem_of_In, elem_of_seqZ in H. specialize (H ltac:(lia)).
  rewrite Heq, String.eqb_refl in H. simpl in H. by apply Z.eqb_eq.
Qed.

(** The text determines the rounded coordinate. *)
Lemma repr_inj f f' :
  (0 <= hundredths f)%Z -> (0 <= hundredths f')%Z -> repr f = repr f' -> f = f'.
Proof.
  intros Hf Hf'. rewrite !repr_fraction.
  assert (Hdigit : forall h b t, (0 <= h)%Z ->
            String "-" t <> pretty (h / 100)%Z ++ b).
  { intros h b t Hh Heq.
    destruct (pretty_Z_digits (h / 100)%Z) as [Hd Hne]; [by apply Z.div_pos|].
    destruct (pretty (h / 100)%Z) as [|c d]; [done|].
    simpl in Hd, Heq. injection Heq as <- _. done. }
  assert (Hsplit : pretty (hundredths f / 100)%Z ++ "."
                     ++ fraction_digits (hundredths f mod 100)%Z
                   = pretty (hundredths f' / 100)%Z ++ "."
                     ++ fraction_digits (hundredths f' mod 100)%Z ->
                   hundredths f = hundredths f').
  { intros Heq. apply append_sep_inj in Heq as [Hi Hc];
      [|by apply pretty_Z_without..].
    apply (inj pretty) in Hi. apply fraction_digits_inj in Hc;
      [|by apply Z.mod_pos_bound..].
    rewrite (Z.div_mod (hundredths f) 100), (Z.div_mod (hundredths f') 100) by done.
    by rewrite Hi, Hc. }
  destruct f as [[] h], f' as [[] h']; simpl in *; intros Heq.
  - injection Heq as Heq. by rewrite (Hsplit Heq).
  - by apply Hdigit in Heq.
  - symmetry in Heq. by apply Hdigit in Heq.
  - by rewrite (Hsplit Heq).
Qed.

Lemma round_half_even_nonneg n d :
  (0 <= n)%Z -> (0 < d)%Z -> (0 <= round_half_even n d)%Z.
Proof.
  intros Hn Hd. unfold round_half_even.
  pose proof (Z.div_pos n d Hn Hd). repeat case_match; lia.
Qed.

Lemma round2_nonneg x : (0 <= hundredths (round2 x))%Z.
Proof. simpl. apply round_half_even_nonneg; lia. Qed.

Section with_platform.
Context {P : Platform}.

(** X1. Two requests have the same cache key exactly when their latitudes
    round to the same float, sign of zero included, their longitudes do, and
    they ask for the same number of days. *)
Theorem cache_key_determines_request lat lon (forecast_days : Z) lat' lon' forecast_days' :
  _generate_cache_key lat lon forecast_days
    = _generate_cache_key lat' lon' forecast_days'
  <-> round2 lat = round2 lat' /\ round2 lon = round2 lon'
      /\ forecast_days = forecast_days'.
Proof.
  split; [|by intros (Hlat & Hlon & ->); unfold _generate_cache_key; rewrite Hlat, Hlon].
  unfold _generate_cache_key. intros Heq.
  apply (string_app_inv_head "forecast_") in Heq.
  apply append_sep_inj in Heq as [Hlat Heq]; [|apply repr_without_underscore..].
  apply append_sep_inj in Heq as [Hlon Heq]; [|apply repr_without_underscore..].
  apply append_sep_inj in Heq as [Hdays _]; [|by apply pretty_Z_without..].
  apply repr_inj in Hlat; [|apply round2_nonneg..].
  apply repr_inj in Hlon; [|apply round2_nonneg..].
  by apply (inj pretty) in Hdays.
Qed.

Lemma cache_file_inj lat lon (h : Z) lat' lon' h' :
  cache_file lat lon h = cache_file lat' lon' h' ->
  _generate_cache_key lat lon h = _generate_cache_key lat' lon' h'.
Proof. apply string_app_inv_tail. Qed.

End with_platform.
End KeyProps.

(** * Properties of the cache maintenance *)

Module MaintenanceProps.
Import ForecastCache CacheMaintenance.
Local Open Scope Z_scope.

Section with_platform.
Context {P : Platform}.

Lemma elem_of_glob d fs p :
  p ∈ glob d fs
  <-> p.1 = d /\ ends_with ".json" p.2 = true /\ is_Some (files fs !! p).
Proof.
  unfold glob. rewrite list_elem_of_filter, list_elem_of_fmap. split.
  - intros [[Hd Hj] ([q f] & -> & Hin)]. apply elem_of_map_to_list in Hin. eauto.
  - intros (Hd & Hj & [f Hf]). split; [done|]. exists (p, f). split; [done|].
    by apply elem_of_map_to_list.
Qed.

Lemma elem_of_listdir d fs p :
  p ∈ listdir d fs <-> p.1 = d /\ is_Some (files fs !! p).
Proof.
  unfold listdir. rewrite list_elem_of_filter, list_elem_of_fmap. split.
  - intros [Hd ([q f] & -> & Hin)]. apply elem_of_map_to_list in Hin. eauto.
  - intros [Hd [f Hf]]. split; [done|]. exists (p, f). split; [done|].
    by apply elem_of_map_to_list.
Qed.

Lemma NoDup_glob d fs : NoDup (glob d fs).
Proof. apply NoDup_filter, NoDup_fst_map_to_list. Qed.

Lemma ends_with_app suffix a : ends_with suffix (a ++ suffix) = true.
Proof.
  induction a as [|c a IH].
  - change ("" ++ suffix)%string with suffix.
    destruct suffix; simpl; rewrite ?Ascii.eqb_refl, ?String.eqb_refl; done.
  - change (String c a ++ suffix)%string with (String c (a ++ suffix)%string).
    cbn [ends_with]. rewrite IH. apply orb_true_r.
Qed.

Lemma size_delete_present (m : gmap (Z * string) file) p :
  is_Some (m !! p) -> S (size (delete p m)) = size m.
Proof.
  intros [f Hf]. rewrite <- (map_size_insert_None p f (delete p m)).
  - by rewrite insert_delete_id.
  - apply lookup_delete_eq.
Qed.

(** A loop that visits files which are there, each once, and unlinks those
    that pass a test which looks at the file only. *)
Lemma unlink_loop (test : Z * string -> filesystem -> bool) ps :
  (forall p fs1 fs2, files fs1 !! p = files fs2 !! p -> test p fs1 = test p fs2) ->
  forall n fs, NoDup ps -> (forall p, p ∈ ps -> is_Some (files fs !! p)) ->
  exists n' fs',
    foldl (fun '(n, fs) p => if test p fs then (S n, unlink p fs) else (n, fs))
          (n, fs) ps = (n', fs')
    /\ (forall p, files fs' !! p
                  = if decide (p ∈ ps /\ test p fs = true) then None
                    else files fs !! p)
    /\ (n' + size (files fs') = n + size (files fs))%nat
    /\ directories fs' = directories fs /\ disk_full fs' = disk_full fs.
Proof.
  intros Htest. induction ps as [|p0 ps IH]; intros n fs Hnd Hin.
  - exists n, fs. split_and!; try done.
  - apply NoDup_cons in Hnd as [Hp0 Hnd]. cbn [foldl].
    destruct (test p0 fs) eqn:Ht.
    + destruct (IH (S n) (unlink p0 fs) Hnd) as (n' & fs' & Hfold & Hfiles & Hsize & Hdirs & Hfull).
      { intros p Hp. simpl. rewrite lookup_delete_ne by (by intros ->).
        apply Hin. by right. }
      exists n', fs'. split; [done|]. split_and!; [|
        simpl in Hsize; rewrite <- (size_delete_present (files fs) p0) by (apply Hin; left); lia
        | done | done].
      intros p. rewrite Hfiles. simpl. destruct (decide (p = p0)) as [->|Hne].
      * rewrite decide_False by tauto. rewrite lookup_delete_eq.
        rewrite decide_True; [done|]. split; [left|done].
      * rewrite lookup_delete_ne by done.
        rewrite (Htest p (unlink p0 fs) fs) by (simpl; by rewrite lookup_delete_ne).
        destruct (decide (p ∈ ps /\ test p fs = true)) as [[??]|Hn].
        -- rewrite decide_True; [done|]. split; [by right|done].
        -- rewrite decide_False; [done|]. intros [Hp ?]. apply Hn.
           apply elem_of_cons in Hp as [?|?]; done.
    + destruct (IH n fs Hnd) as (n' & fs' & Hfold & Hfiles & Hsize & Hdirs & Hfull).
      { intros p Hp. apply Hin. by right. }
      exists n', fs'. split; [done|]. split_and!; try done.
      intros p. rewrite Hfiles.
      destruct (decide (p ∈ ps /\ test p fs = true)) as [[??]|Hn].
      * rewrite decide_True; [done|]. split; [by right|done].
      * rewrite decide_False; [done|]. intros [Hp ?]. apply Hn.
        apply elem_of_cons in Hp as [->|?]; [congruence|done].
Qed.

Lemma directory_expired_unfold self now d :
  (ttl_seconds self * 1000000 <? now - strptime_date d) = directory_expired self now d.
Proof. done. Qed.

(** One turn of the loop over the date directories. *)
Lemma sweep_directory_spec self now n fs d :
  exists n' fs',
    sweep_directory self now (n, fs) d = (n', fs')
    /\ (forall p, files fs' !! p
          = if decide (p.1 = d /\ ends_with ".json" p.2 = true
                       /\ (directory_expired self now d = true
                           \/ _is_cache_valid self p now fs = false))
            then None else files fs !! p)
    /\ (n' + size (files fs') = n + size (files fs))%nat
    /\ (forall d', d' ∈ directories fs'
          <-> d' ∈ directories fs
              /\ ~ (d' = d /\ directory_expired self now d = true /\ only_json d fs))
    /\ disk_full fs' = disk_full fs.
Proof.
  unfold sweep_directory. cbv zeta. rewrite directory_expired_unfold.
  destruct (directory_expired self now d) eqn:Hexp.
  - destruct (unlink_loop (fun _ _ => true) (glob d fs) (fun _ _ _ _ => eq_refl)
                n fs (NoDup_glob d fs))
      as (n' & fs' & Hfold & Hfiles & Hsize & Hdirs & Hfull).
    { intros p Hp. by apply elem_of_glob in Hp as (_ & _ & ?). }
    cbv beta iota in Hfold. rewrite Hfold.
    assert (Hsame : forall p, files fs' !! p
              = if decide (p.1 = d /\ ends_with ".json" p.2 = true
                           /\ (true = true \/ _is_cache_valid self p now fs = false))
                then None else files fs !! p).
    { intros p. rewrite Hfiles.
      destruct (decide (p ∈ glob d fs /\ true = true)) as [[Hg _]|Hng];
        destruct (decide (p.1 = d /\ ends_with ".json" p.2 = true
                          /\ (true = true
                              \/ _is_cache_valid self p now fs = false)))
          as [(Hd & Hj & _)|Hn2]; try done.
      + exfalso. apply Hn2. apply elem_of_glob in Hg as (? & ? & _).
        split_and!; [done|done|by left].
      + apply eq_None_not_Some. intros Hsome. apply Hng.
        split; [by apply elem_of_glob|done]. }
    assert (Hempty : listdir d fs' = [] <-> only_json d fs).
    { split.
      - intros Hnil p Hd Hsome.
        destruct (ends_with ".json" p.2) eqn:Hj; [done|]. exfalso.
        assert (Hp : p ∈ listdir d fs').
        { apply elem_of_listdir. split; [done|]. rewrite Hsame.
          rewrite decide_False; [done|]. intros (_ & ? & _). congruence. }
        rewrite Hnil in Hp. by apply elem_of_nil in Hp.
      - intros Honly. destruct (listdir d fs') as [|p l] eqn:Hl; [done|]. exfalso.
        assert (Hp : p ∈ listdir d fs') by (rewrite Hl; left).
        apply elem_of_listdir in Hp as [Hd Hsome]. rewrite Hsame in Hsome.
        case_decide as Hdec; [by destruct Hsome|]. apply Hdec.
        split_and!; [done|by apply Honly|by left]. }
    unfold rmdir. case_bool_decide as Hl.
    + exists n', (mkFilesystem (directories fs' ∖ {[d]}) (files fs') (disk_full fs')).
      split; [done|]. simpl. split_and!; [done|done| |done].
      intros d'. rewrite Hdirs, elem_of_difference, elem_of_singleton.
      apply Hempty in Hl. split.
      * intros [Hd Hne]. split; [done|]. by intros (? & _).
      * intros [Hd Hn]. split; [done|]. intros ->. by apply Hn.
    + exists n', fs'. split; [done|]. split_and!; [done|done| |done].
      intros d'. rewrite Hdirs. split; [|tauto].
      intros Hd. split; [done|]. intros (_ & _ & Honly). by apply Hl, Hempty.
  - destruct (unlink_loop (fun p fs => negb (_is_cache_valid self p now fs))
                (glob d fs)) with (n := n) (fs := fs)
      as (n' & fs' & Hfold & Hfiles & Hsize & Hdirs & Hfull).
    { intros p fs1 fs2 Heq. unfold _is_cache_valid. by rewrite Heq. }
    { apply NoDup_glob. }
    { intros p Hp. by apply elem_of_glob in Hp as (_ & _ & ?). }
    exists n', fs'. split; [done|]. split_and!; [|done| |done].
    + intros p. rewrite Hfiles.
      destruct (decide (p.1 = d /\ ends_with ".json" p.2 = true
                        /\ (false = true \/ _is_cache_valid self p now fs = false)))
        as [(Hd & Hj & [?|Hv])|Hn]; [done| |].
      * case_decide as Hdec; [done|].
        destruct (files fs !! p) as [f|] eqn:Hf; [|done].
        exfalso. apply Hdec. split; [|by rewrite Hv]. apply elem_of_glob. eauto.
      * rewrite decide_False; [done|]. intros [Hp Hv]. apply Hn.
        apply elem_of_glob in Hp as (? & ? & _). split_and!; [done|done|]. right.
        by destruct (_is_cache_valid self p now fs).
    + intros d'. rewrite Hdirs. split; [|tauto].
      intros Hd. split; [done|]. by intros (_ & ? & _).
Qed.

Lemma only_json_files d fs fs' :
  (forall p, p.1 = d -> files fs' !! p = files fs !! p) ->
  only_json d fs' <-> only_json d fs.
Proof.
  intros H. unfold only_json.
  split; intros Ho p Hd Hs; apply (Ho p Hd); [by rewrite H|by rewrite <- H].
Qed.

(** The loop over a list of distinct date directories. *)
Lemma sweep_spec self now ds :
  NoDup ds -> forall n fs,
  exists n' fs',
    foldl (sweep_directory self now) (n, fs) ds = (n', fs')
    /\ (forall p, files fs' !! p
          = if decide (p.1 ∈ ds /\ ends_with ".json" p.2 = true
                       /\ (directory_expired self now p.1 = true
                           \/ _is_cache_valid self p now fs = false))
            then None else files fs !! p)
    /\ (n' + size (files fs') = n + size (files fs))%nat
    /\ (forall d, d ∈ directories fs'
          <-> d ∈ directories fs
              /\ ~ (d ∈ ds /\ directory_expired self now d = true /\ only_json d fs))
    /\ disk_full fs' = disk_full fs.
Proof.
  induction ds as [|d0 ds IH]; intros Hnd n fs.
  - exists n, fs. split_and!; try done.
    intros d. split; [|tauto]. intros Hd. split; [done|].
    intros [Hnil _]. by apply elem_of_nil in Hnil.
  - apply NoDup_cons in Hnd as [Hd0 Hnd]. cbn [foldl].
    destruct (sweep_directory_spec self now n fs d0)
      as (n1 & fs1 & -> & Hfiles1 & Hsize1 & Hdirs1 & Hfull1).
    destruct (IH Hnd n1 fs1) as (n' & fs' & Hfold & Hfiles & Hsize & Hdirs & Hfull).
    assert (Hother : forall p, p.1 <> d0 -> files fs1 !! p = files fs !! p).
    { intros p Hp. rewrite Hfiles1. rewrite decide_False; [done|]. tauto. }
    exists n', fs'. split; [done|]. split_and!; [|lia| |congruence].
    + intros p. rewrite Hfiles.
      destruct (decide (p.1 = d0)) as [Hp|Hp].
      * rewrite (decide_False (P := p.1 ∈ ds /\ _)) by (rewrite Hp; tauto).
        rewrite Hfiles1. rewrite Hp.
        destruct (decide (d0 = d0 /\ _)) as [(_ & Hj & Hc)|Hn].
        -- rewrite decide_True; [done|]. split_and!; [left|done|done].
        -- rewrite decide_False; [done|]. intros (_ & Hj & Hc). apply Hn. done.
      * rewrite (Hother p Hp).
        assert (Hv : _is_cache_valid self p now fs1 = _is_cache_valid self p now fs).
        { unfold _is_cache_valid. by rewrite (Hother p Hp). }
        rewrite Hv.
        destruct (decide (p.1 ∈ ds /\ _)) as [(?&?&?)|Hn].
        -- rewrite decide_True; [done|]. split_and!; [by right|done|done].
        -- rewrite decide_False; [done|]. intros (Hin & ? & ?). apply Hn.
           apply elem_of_cons in Hin as [?|?]; done.
    + intros d. rewrite Hdirs, Hdirs1. split.
      * intros [[Hd Hn1] Hn2]. split; [done|].
        intros (Hin & Hexp & Honly). apply elem_of_cons in Hin as [->|Hin].
        -- by apply Hn1.
        -- apply Hn2. split_and!; [done|done|].
           apply (only_json_files d fs fs1); [|done].
           intros p Hp. apply Hother. intros Heq. apply Hd0.
           by rewrite <- Heq, Hp.
      * intros [Hd Hn]. split_and!; [done| |].
        -- intros (-> & ? & ?). apply Hn. split_and!; [left|done|done].
        -- intros (Hin & Hexp & Honly). apply Hn. split_and!; [by right|done|].
           apply (only_json_files d fs fs1); [|done].
           intros p Hp. apply Hother. intros Heq. apply Hd0.
           by rewrite <- Heq, Hp.
Qed.

(** What [invalidate_old_forecasts] leaves. *)
Lemma invalidate_old_forecasts_spec self now fs :
  let r := invalidate_old_forecasts self now fs in
  (forall p, files r.2 !! p
     = if decide (p.1 ∈ directories fs /\ ends_with ".json" p.2 = true
                  /\ (directory_expired self now p.1 = true
                      \/ _is_cache_valid self p now fs = false))
       then None else files fs !! p)
  /\ (r.1 + size (files r.2) = size (files fs))%nat
  /\ (forall d, d ∈ directories r.2
        <-> d ∈ directories fs
            /\ ~ (directory_expired self now d = true /\ only_json d fs))
  /\ disk_full r.2 = disk_full fs.
Proof.
  unfold invalidate_old_forecasts.
  destruct (sweep_spec self now (elements (directories fs)) (NoDup_elements _) 0%nat fs)
    as (n' & fs' & -> & Hfiles & Hsize & Hdirs & Hfull).
  simpl. split_and!; [|done| |done].
  - intros p. rewrite Hfiles.
    destruct (decide (p.1 ∈ directories fs /\ _)) as [(Hin & ? & ?)|Hn].
    + rewrite decide_True; [done|]. split_and!; [by apply elem_of_elements|done|done].
    + rewrite decide_False; [done|]. intros (Hin & ? & ?). apply Hn.
      split_and!; [by apply elem_of_elements in Hin|done|done].
  - intros d. rewrite Hdirs, elem_of_elements. split.
    + intros [Hd Hn]. split; [done|]. intros [? ?]. by apply Hn.
    + intros [Hd Hn]. split; [done|]. intros (_ & ? & ?). by apply Hn.
Qed.

Lemma mkdir_fails d fs : ~ mkdir_succeeds d fs -> mkdir d fs = Raise OSError.
Proof.
  unfold mkdir, mkdir_succeeds. intros H. case_bool_decide; [tauto|].
  destruct (disk_full fs); [done|tauto].
Qed.

Lemma mkdir_Ret_succeeds d fs fs' : mkdir d fs = Ret fs' -> mkdir_succeeds d fs.
Proof.
  unfold mkdir, mkdir_succeeds. case_bool_decide; [by left|].
  destruct (disk_full fs); [done|by right].
Qed.

Lemma mkdir_Raise d fs e : mkdir d fs = Raise e -> e = OSError.
Proof.
  unfold mkdir. case_bool_decide; [done|]. destruct (disk_full fs); congruence.
Qed.

Lemma mkdir_directories d fs fs' :
  mkdir d fs = Ret fs' ->
  forall d', d' ∈ directories fs' <-> d' = d \/ d' ∈ directories fs.
Proof.
  unfold mkdir. case_bool_decide as Hd.
  - intros [= <-] d'. split; [by right|]. by intros [->|?].
  - destruct (disk_full fs); [done|]. intros [= <-] d'. simpl.
    by rewrite elem_of_union, elem_of_singleton.
Qed.

(** The answer of [get_forecast] depends on whether today's directory can
    be made and on the two files of the request. *)
Lemma get_forecast_ext self lat lon h now fs fs' :
  (mkdir_succeeds (strftime_date now) fs' <-> mkdir_succeeds (strftime_date now) fs) ->
  files fs' !! (strftime_date now, cache_file lat lon h)
    = files fs !! (strftime_date now, cache_file lat lon h) ->
  files fs' !! (strftime_date (now - day_us), cache_file lat lon h)
    = files fs !! (strftime_date (now - day_us), cache_file lat lon h) ->
  fst (get_forecast self lat lon h now fs') = fst (get_forecast self lat lon h now fs).
Proof.
  intros Hmk Ht Hy. unfold get_forecast, _get_cache_path.
  fold (cache_file lat lon h).
  destruct (mkdir (strftime_date now) fs) as [fs1|e] eqn:H1;
    destruct (mkdir (strftime_date now) fs') as [fs1'|e'] eqn:H1';
    cbn [mbind outcome_bind mret outcome_ret].
  - apply CacheProps.mkdir_files in H1 as [Hf1 _].
    apply CacheProps.mkdir_files in H1' as [Hf1' _].
    unfold _is_cache_valid, read_forecast, json_load.
    rewrite Hf1, Hf1', Ht, Hy.
    repeat (case_match; simplify_eq/=; try done).
  - apply mkdir_Ret_succeeds in H1. apply Hmk in H1.
    apply CacheProps.mkdir_succeeds_Ret in H1 as [? ?]. congruence.
  - apply mkdir_Ret_succeeds in H1'. apply Hmk in H1'.
    apply CacheProps.mkdir_succeeds_Ret in H1' as [? ?]. congruence.
  - apply mkdir_Raise in H1, H1'. by subst.
Qed.

Lemma get_forecast_absent self lat lon h now fs :
  mkdir_succeeds (strftime_date now) fs ->
  files fs !! (strftime_date now, cache_file lat lon h) = None ->
  files fs !! (strftime_date (now - day_us), cache_file lat lon h) = None ->
  get_forecast self lat lon h now fs
  = (Ret None, match mkdir (strftime_date now) fs with Ret fs' => fs' | Raise _ => fs end).
Proof.
  intros Hmk Ht Hy. unfold get_forecast, _get_cache_path.
  fold (cache_file lat lon h).
  destruct (CacheProps.mkdir_succeeds_Ret _ _ Hmk) as [fs1 H1]. rewrite H1.
  cbn [mbind outcome_bind mret outcome_ret].
  apply CacheProps.mkdir_files in H1 as [Hf1 _].
  unfold _is_cache_valid. by rewrite Hf1, Ht, Hy.
Qed.

(** What [invalidate_forecast] does when today's directory can be made. *)
Lemma invalidate_forecast_on_spec refused self lat lon h now fs fs1 :
  mkdir (strftime_date now) fs = Ret fs1 ->
  let today := (strftime_date now, cache_file lat lon h) in
  let yesterday := (strftime_date (now - day_us), cache_file lat lon h) in
  exists b fs',
    invalidate_forecast_on refused self lat lon h now fs = (Ret b, fs')
    /\ (forall p, files fs' !! p
                  = if bool_decide ((p = today \/ p = yesterday) /\ p ∉ refused)
                    then None else files fs !! p)
    /\ directories fs' = directories fs1 /\ disk_full fs' = disk_full fs
    /\ (b = true <-> (is_Some (files fs !! today) /\ today ∉ refused)
                     \/ (is_Some (files fs !! yesterday) /\ yesterday ∉ refused)).
Proof.
  intros H1 today yesterday. unfold invalidate_forecast_on, _get_cache_path.
  fold (cache_file lat lon h). rewrite H1.
  cbn [mbind outcome_bind mret outcome_ret foldl]. fold today yesterday.
  apply CacheProps.mkdir_files in H1 as [Hf1 Hd1].
  assert (Hne : today <> yesterday).
  { unfold today, yesterday. intros [= Heq]. rewrite CacheProps.strftime_date_yesterday in Heq. lia. }
  unfold path_exists, unlink_on.
  destruct (files fs !! today) as [f|] eqn:Ht;
    destruct (files fs !! yesterday) as [g|] eqn:Hy;
    destruct (decide (today ∈ refused)) as [Rt|Rt];
    destruct (decide (yesterday ∈ refused)) as [Ry|Ry];
    rewrite ?Hf1, ?Ht;
    rewrite 1?(bool_decide_true (is_Some (Some _))) by eauto;
    rewrite 1?(bool_decide_false (is_Some None)) by (by intros [??]);
    rewrite ?(bool_decide_true _ Rt), ?(bool_decide_false _ Rt); simpl;
    rewrite ?lookup_delete_ne, ?Hf1, ?Hy by done;
    rewrite 1?(bool_decide_true (is_Some (Some _))) by eauto;
    rewrite 1?(bool_decide_false (is_Some None)) by (by intros [??]);
    rewrite ?(bool_decide_true _ Ry), ?(bool_decide_false _ Ry); simpl;
    (eexists _, _; split; [reflexivity|]); simpl; rewrite ?Hf1;
    (split;
     [intros p;
      destruct (decide (p = today)) as [->|Hpt];
        [|destruct (decide (p = yesterday)) as [->|Hpy]];
      repeat first [rewrite lookup_delete_eq | rewrite lookup_delete_ne by congruence];
      first [rewrite bool_decide_true by tauto | rewrite bool_decide_false by tauto];
      congruence|]);
    (split; [done|]); (split; [done|]);
    (split; [try done; intros _; eauto | try done; intros [[[??] ?]|[[??] ?]]; done]).
Qed.

Lemma invalidate_forecast_spec self lat lon h now fs fs1 :
  mkdir (strftime_date now) fs = Ret fs1 ->
  let today := (strftime_date now, cache_file lat lon h) in
  let yesterday := (strftime_date (now - day_us), cache_file lat lon h) in
  exists b fs',
    invalidate_forecast self lat lon h now fs = (Ret b, fs')
    /\ files fs' = delete yesterday (delete today (files fs))
    /\ directories fs' = directories fs1 /\ disk_full fs' = disk_full fs
    /\ (b = true <-> is_Some (files fs !! today) \/ is_Some (files fs !! yesterday)).
Proof.
  intros H1 today yesterday.
  destruct (invalidate_forecast_on_spec ∅ self lat lon h now fs fs1 H1)
    as (b & fs' & Hinv & Hfiles & Hdirs & Hfull & Hb).
  assert (He : forall p : Z * string, p ∉ (∅ : gset (Z * string)))
    by (intros p; apply not_elem_of_empty).
  exists b, fs'. split; [done|]. split_and!; [|done|done|].
  - apply map_eq. intros p. rewrite Hfiles. fold today yesterday.
    destruct (decide (p = yesterday)) as [->|Hpy].
    + rewrite lookup_delete_eq. rewrite bool_decide_true; [done|].
      split; [by right|apply He].
    + rewrite lookup_delete_ne by done.
      destruct (decide (p = today)) as [->|Hpt].
      * rewrite lookup_delete_eq. rewrite bool_decide_true; [done|].
        split; [by left|apply He].
      * rewrite lookup_delete_ne by done. rewrite bool_decide_false; [done|].
        intros [[?|?] _]; done.
  - rewrite Hb. fold today yesterday. split.
    + intros [[? _]|[? _]]; tauto.
    + intros [?|?]; [left|right]; (split; [done|apply He]).
Qed.

(** X2. Once [invalidate_forecast] has returned, on a medium where
    [unlink] does not fail, a [get_forecast] for the same request on the
    same calendar day misses, whatever was cached. *)
Theorem invalidate_then_miss self lat lon (forecast_days : Z) now now' fs b :
  fst (invalidate_forecast self lat lon forecast_days now fs) = Ret b ->
  strftime_date now' = strftime_date now ->
  fst (get_forecast self lat lon forecast_days now'
         (snd (invalidate_forecast self lat lon forecast_days now fs)))
  = Ret None.
Proof.
  intros Hret Hday.
  destruct (mkdir (strftime_date now) fs) as [fs1|e] eqn:H1.
  - destruct (invalidate_forecast_spec self lat lon forecast_days now fs fs1 H1)
      as (b' & fs' & -> & Hfiles & Hdirs & _). simpl.
    rewrite get_forecast_absent; [done|..].
    + left. rewrite Hday, Hdirs. apply (mkdir_directories _ _ _ H1). by left.
    + rewrite Hfiles, Hday.
      rewrite lookup_delete_ne, lookup_delete_eq; [done|].
      intros [= Heq]. rewrite CacheProps.strftime_date_yesterday in Heq. lia.
    + rewrite Hfiles, !CacheProps.strftime_date_yesterday, Hday,
        <- CacheProps.strftime_date_yesterday.
      apply lookup_delete_eq.
  - unfold invalidate_forecast, invalidate_forecast_on, _get_cache_path in Hret.
    by rewrite H1 in Hret.
Qed.

(** X3. [invalidate_forecast] does not change what [get_forecast] answers
    for a request with another cache key, at any time. *)
Theorem invalidate_keeps_other_requests self lat lon (forecast_days : Z)
    lat' lon' forecast_days' now now' fs :
  _generate_cache_key lat lon forecast_days
    <> _generate_cache_key lat' lon' forecast_days' ->
  fst (get_forecast self lat' lon' forecast_days' now'
         (snd (invalidate_forecast self lat lon forecast_days now fs)))
  = fst (get_forecast self lat' lon' forecast_days' now' fs).
Proof.
  intros Hkey.
  assert (Hfile : cache_file lat lon forecast_days <> cache_file lat' lon' forecast_days').
  { intros Heq. by apply KeyProps.cache_file_inj in Heq. }
  destruct (mkdir (strftime_date now) fs) as [fs1|e] eqn:H1.
  - destruct (invalidate_forecast_spec self lat lon forecast_days now fs fs1 H1)
      as (b' & fs' & -> & Hfiles & Hdirs & Hfull & _). simpl.
    apply get_forecast_ext.
    + unfold mkdir_succeeds. rewrite Hfull, Hdirs, (mkdir_directories _ _ _ H1).
      apply mkdir_Ret_succeeds in H1. unfold mkdir_succeeds in H1.
      split; [|tauto]. intros [[->|?]|?]; tauto.
    + rewrite Hfiles, !lookup_delete_ne; [done|congruence..].
    + rewrite Hfiles, !lookup_delete_ne; [done|congruence..].
  - unfold invalidate_forecast, invalidate_forecast_on, _get_cache_path.
    by rewrite H1.
Qed.

Lemma set_forecast_spec self lat lon h payload now fs fs1 :
  mkdir (strftime_date now) fs = Ret fs1 ->
  let r := set_forecast self lat lon h payload now fs in
  directories r.2 = directories fs1 /\ disk_full r.2 = disk_full fs
  /\ forall p, p <> (strftime_date now, cache_file lat lon h) ->
        files r.2 !! p = files fs !! p.
Proof.
  intros H1. unfold set_forecast, _get_cache_path. fold (cache_file lat lon h).
  rewrite H1. cbn [mbind outcome_bind mret outcome_ret].
  apply CacheProps.mkdir_files in H1 as [Hf1 Hd1].
  destruct (to_dict payload) as [j|e]; cbn [mbind outcome_bind]; simpl;
    [|by rewrite Hf1, Hd1].
  unfold json_dump, open_w. destruct (disk_full fs1) eqn:Hfull; simpl;
    rewrite Hf1; (split_and!; [done|congruence|]);
    intros p Hp; by rewrite lookup_insert_ne.
Qed.

(** X4. [set_forecast] does not change what [get_forecast] answers for a
    request with another cache key, at any time. *)
Theorem set_keeps_other_requests self lat lon (forecast_days : Z) forecast
    lat' lon' forecast_days' now now' fs :
  _generate_cache_key lat lon forecast_days
    <> _generate_cache_key lat' lon' forecast_days' ->
  fst (get_forecast self lat' lon' forecast_days' now'
         (snd (set_forecast self lat lon forecast_days forecast now fs)))
  = fst (get_forecast self lat' lon' forecast_days' now' fs).
Proof.
  intros Hkey.
  assert (Hfile : cache_file lat lon forecast_days <> cache_file lat' lon' forecast_days').
  { intros Heq. by apply KeyProps.cache_file_inj in Heq. }
  destruct (mkdir (strftime_date now) fs) as [fs1|e] eqn:H1.
  - destruct (set_forecast_spec self lat lon forecast_days forecast now fs fs1 H1)
      as (Hdirs & Hfull & Hfiles).
    apply get_forecast_ext.
    + unfold mkdir_succeeds. rewrite Hfull, Hdirs, (mkdir_directories _ _ _ H1).
      apply mkdir_Ret_succeeds in H1. unfold mkdir_succeeds in H1.
      split; [|tauto]. intros [[->|?]|?]; tauto.
    + apply Hfiles. congruence.
    + apply Hfiles. congruence.
  - unfold set_forecast, _get_cache_path. by rewrite H1.
Qed.

(** X5. [get_forecast] creates and changes no file, and the one file it may
    delete is the file of the request in today's directory. *)
Theorem get_forecast_never_writes self lat lon (forecast_days : Z) now fs :
  let fs' := snd (get_forecast self lat lon forecast_days now fs) in
  (forall p f, files fs' !! p = Some f -> files fs !! p = Some f)
  /\ (forall p, p <> (strftime_date now, cache_file lat lon forecast_days) ->
        files fs' !! p = files fs !! p).
Proof.
  unfold get_forecast, _get_cache_path. fold (cache_file lat lon forecast_days).
  destruct (mkdir (strftime_date now) fs) as [fs1|e] eqn:H1;
    cbn [mbind outcome_bind mret outcome_ret]; [|done].
  apply CacheProps.mkdir_files in H1 as [Hf1 _].
  assert (Hdel : forall p f,
            delete (strftime_date now, cache_file lat lon forecast_days) (files fs1) !! p
              = Some f -> files fs !! p = Some f).
  { intros p f Hp. apply lookup_delete_Some in Hp as [_ Hp]. by rewrite <- Hf1. }
  rewrite Hf1 in Hdel.
  repeat case_match; simpl; rewrite ?Hf1; split; try done.
  intros p Hp. by rewrite lookup_delete_ne.
Qed.

Lemma sweep_survivors self now fs p f :
  consistent fs ->
  files (snd (invalidate_old_forecasts self now fs)) !! p = Some f
  <-> files fs !! p = Some f
      /\ now - strptime_date p.1 <= ttl_seconds self * 1000000
      /\ now - st_mtime f < ttl_seconds self * 1000000.
Proof.
  intros Hcons.
  destruct (invalidate_old_forecasts_spec self now fs) as (Hfiles & _).
  rewrite Hfiles. unfold directory_expired, _is_cache_valid.
  split.
  - case_decide as Hdec; [done|]. intros Hf. rewrite Hf in Hdec.
    split; [done|]. destruct (Hcons p f Hf) as [Hdir Hjson].
    destruct (Z.ltb_spec (ttl_seconds self * 1000000) (now - strptime_date p.1));
      [tauto|].
    destruct (Z.ltb_spec (now - st_mtime f) (ttl_seconds self * 1000000)); [lia|tauto].
  - intros (Hf & Hdir & Hage). rewrite decide_False; [done|].
    rewrite Hf. intros (_ & _ & [Hexp|Hv]).
    + apply Z.ltb_lt in Hexp. lia.
    + apply Z.ltb_ge in Hv. lia.
Qed.

(** X6. After [invalidate_old_forecasts], on a medium where [unlink] does
    not fail, a file is there exactly if it was there before, its date
    directory began at most the time to live ago, and the file itself is
    younger than the time to live: a file in an older directory goes
    whatever its own age. *)
Theorem sweep_keeps_exactly_valid self now fs p f :
  consistent fs ->
  files (snd (invalidate_old_forecasts self now fs)) !! p = Some f
  <-> files fs !! p = Some f
      /\ now - strptime_date p.1 <= ttl_seconds self * 1000000
      /\ now - st_mtime f < ttl_seconds self * 1000000.
Proof. apply sweep_survivors. Qed.

(** X7. The number [invalidate_old_forecasts] returns is the number of
    files it removed. *)
Theorem sweep_counts_deleted_files self now fs :
  (fst (invalidate_old_forecasts self now fs)
   + size (files (snd (invalidate_old_forecasts self now fs)))
   = size (files fs))%nat.
Proof. by destruct (invalidate_old_forecasts_spec self now fs) as (_ & Hsize & _). Qed.

(** X8. A second [invalidate_old_forecasts] at the same instant deletes
    nothing and leaves the cache directory as it is. *)
Theorem sweep_idempotent self now fs :
  invalidate_old_forecasts self now (snd (invalidate_old_forecasts self now fs))
  = (0%nat, snd (invalidate_old_forecasts self now fs)).
Proof.
  destruct (invalidate_old_forecasts_spec self now fs) as (Hfiles & _ & Hdirs & _).
  set (fs1 := snd (invalidate_old_forecasts self now fs)) in *.
  destruct (invalidate_old_forecasts_spec self now fs1) as (Hfiles2 & Hsize2 & Hdirs2 & Hfull2).
  destruct (invalidate_old_forecasts self now fs1) as [n2 fs2]. simpl in *.
  assert (Hkept : forall p f, files fs1 !! p = Some f ->
            files fs !! p = Some f
            /\ ~ (p.1 ∈ directories fs /\ ends_with ".json" p.2 = true
                  /\ (directory_expired self now p.1 = true
                      \/ _is_cache_valid self p now fs = false))).
  { intros p f Hf. rewrite Hfiles in Hf. by case_decide. }
  assert (Hsame : files fs2 = files fs1).
  { apply map_eq. intros p. rewrite Hfiles2. case_decide as Hdec; [|done].
    destruct Hdec as (Hin & Hjson & Hgone).
    destruct (files fs1 !! p) as [f|] eqn:Hf; [|done]. exfalso.
    destruct (Hkept p f Hf) as [Hf0 Hn]. apply Hn.
    apply Hdirs in Hin as [Hin Hnot]. split_and!; [done|done|].
    destruct Hgone as [?|Hv]; [by left|]. right.
    unfold _is_cache_valid in *. by rewrite Hf0; rewrite Hf in Hv. }
  assert (Hsamed : directories fs2 = directories fs1).
  { apply set_eq. intros d. rewrite Hdirs2. split; [tauto|]. intros Hd.
    split; [done|]. intros [Hexp Honly].
    apply Hdirs in Hd as [Hd Hnot]. apply Hnot. split; [done|].
    intros p Hp [f Hf]. destruct (ends_with ".json" p.2) eqn:Hj; [done|].
    assert (Hs : is_Some (files fs1 !! p)).
    { exists f. rewrite Hfiles. rewrite decide_False; [done|].
      intros (_ & ? & _). congruence. }
    specialize (Honly p Hp Hs). congruence. }
  rewrite Hsame in Hsize2. f_equal; [lia|].
  destruct fs1, fs2; simpl in *; congruence.
Qed.

Lemma filter_all {A} (Q : A -> Prop) `{forall x, Decision (Q x)} (l : list A) :
  Forall Q l -> filter Q l = l.
Proof.
  induction 1 as [|x l Hx _ IH]; [done|]. by rewrite filter_cons_True, IH.
Qed.

(** X9. Right after [invalidate_old_forecasts], on a medium where
    [unlink] does not fail, [get_cache_stats] counts no expired forecast. *)
Theorem sweep_leaves_no_expired self now fs :
  consistent fs ->
  expired_forecasts
    (get_cache_stats self now (snd (invalidate_old_forecasts self now fs))) = 0%nat.
Proof.
  intros Hcons. unfold get_cache_stats. cbn [expired_forecasts].
  rewrite filter_all; [lia|].
  apply Forall_forall. intros [p f] Hin. apply elem_of_map_to_list in Hin.
  unfold _is_cache_valid. cbn [fst]. rewrite Hin.
  apply sweep_survivors in Hin as (_ & _ & Hage); [|done].
  by apply Z.ltb_lt.
Qed.

(** X10. When yesterday's date directory began more than the time to live
    ago, as it has at any time after midnight with the configured time to
    live of one day, a [get_forecast] that follows
    [invalidate_old_forecasts] finds nothing in it, on a medium where
    [unlink] does not fail: a request with no file in today's directory
    misses, however young yesterday's file was. *)
Theorem sweep_drops_yesterday self lat lon (forecast_days : Z) now fs :
  consistent fs -> disk_full fs = false ->
  ttl_seconds self * 1000000 < now - strptime_date (strftime_date (now - day_us)) ->
  files fs !! (strftime_date now, cache_file lat lon forecast_days) = None ->
  fst (get_forecast self lat lon forecast_days now
         (snd (invalidate_old_forecasts self now fs)))
  = Ret None.
Proof.
  intros Hcons Hfull Hold Htoday.
  destruct (invalidate_old_forecasts_spec self now fs) as (Hfiles & _ & _ & Hfull').
  rewrite get_forecast_absent; [done|..].
  - right. by rewrite Hfull'.
  - rewrite Hfiles, Htoday. by destruct (decide _).
  - rewrite Hfiles. case_decide as Hdec; [done|].
    destruct (files fs !! (strftime_date (now - day_us), cache_file lat lon forecast_days))
      as [f|] eqn:Hf; [|done].
    destruct (Hcons _ _ Hf) as [Hdir Hjson].
    destruct Hdec. split_and!; [exact Hdir|exact Hjson|]. left.
    unfold directory_expired. cbn [fst]. by apply Z.ltb_lt.
Qed.

Lemma consistent_set_forecast self lat lon h payload now fs :
  consistent fs -> consistent (snd (set_forecast self lat lon h payload now fs)).
Proof.
  intros Hcons.
  destruct (mkdir (strftime_date now) fs) as [fs1|e] eqn:H1.
  - destruct (set_forecast_spec self lat lon h payload now fs fs1 H1)
      as (Hdirs & _ & Hfiles).
    intros p f Hp. cbn beta. rewrite Hdirs.
    rewrite (mkdir_directories _ _ _ H1).
    destruct (decide (p = (strftime_date now, cache_file lat lon h))) as [->|Hne].
    + split; [by left|]. apply ends_with_app.
    + rewrite Hfiles in Hp by done. destruct (Hcons _ _ Hp). split; [by right|done].
  - unfold set_forecast, _get_cache_path. by rewrite H1.
Qed.

End with_platform.

Import Samples.
Local Open Scope string_scope.

(** A forecast for Pune is dropped; a read five seconds later misses. *)
Lemma invalidate_then_miss_witness :
  fst (get_forecast (P := text_platform) (__init__ None) (185 # 10) (738 # 10) 10
         (10 * second)
         (snd (invalidate_forecast (P := text_platform) (__init__ None) (185 # 10) (738 # 10) 10 (5 * second)
                 (snd (set_forecast (__init__ None) (185 # 10) (738 # 10) 10
                         sample_forecast 0 empty_fs)))))
  = Ret None.
Proof.
  apply (invalidate_then_miss (P := text_platform) (__init__ None) (185 # 10) (738 # 10) 10
           (5 * second) (10 * second) _ true).
  - vm_compute. reflexivity.
  - reflexivity.
Defined.

(** Dropping the forecast for Mumbai leaves the one for Pune. *)
Lemma invalidate_keeps_other_requests_witness :
  fst (get_forecast (P := text_platform) (__init__ None) (185 # 10) (738 # 10) 10
         (10 * second)
         (snd (invalidate_forecast (P := text_platform) (__init__ None) (1908 # 100) (7288 # 100) 10
                 (5 * second)
                 (snd (set_forecast (__init__ None) (185 # 10) (738 # 10) 10
                         sample_forecast 0 empty_fs)))))
  = fst (get_forecast (P := text_platform) (__init__ None) (185 # 10) (738 # 10) 10
           (10 * second)
           (snd (set_forecast (__init__ None) (185 # 10) (738 # 10) 10
                   sample_forecast 0 empty_fs))).
Proof.
  apply (invalidate_keeps_other_requests (P := text_platform)).
  vm_compute. discriminate.
Defined.

(** Storing a forecast for Mumbai leaves the one for Pune. *)
Lemma set_keeps_other_requests_witness :
  fst (get_forecast (P := text_platform) (__init__ None) (185 # 10) (738 # 10) 10
         (10 * second)
         (snd (set_forecast (__init__ None) (1908 # 100) (7288 # 100) 10 sample_forecast
                 (5 * second)
                 (snd (set_forecast (__init__ None) (185 # 10) (738 # 10) 10
                         sample_forecast 0 empty_fs)))))
  = fst (get_forecast (P := text_platform) (__init__ None) (185 # 10) (738 # 10) 10
           (10 * second)
           (snd (set_forecast (__init__ None) (185 # 10) (738 # 10) 10
                   sample_forecast 0 empty_fs))).
Proof.
  apply (set_keeps_other_requests (P := text_platform)).
  vm_compute. discriminate.
Defined.

Lemma consistent_empty_fs : consistent empty_fs.
Proof. intros p f Hp. simpl in Hp. by rewrite lookup_empty in Hp. Qed.

Lemma consistent_one_file d c mtime full : consistent (one_file d c mtime full).
Proof.
  intros p f Hp. simpl in Hp. apply lookup_singleton_Some in Hp as [<- _].
  cbn beta. split; [simpl; by apply elem_of_singleton|apply ends_with_app].
Qed.

(** A file written a minute before midnight of day 0 and a sweep a minute
    after: the file is a hundred and twenty seconds old, and it goes with
    its directory, which began a day and a minute ago. *)
Lemma sweep_keeps_exactly_valid_witness :
  files (snd (invalidate_old_forecasts (__init__ None) (86460 * second)
                (one_file 0 (Garbage "{") (86340 * second) false)))
    !! (0%Z, cache_file (P := text_platform) (185 # 10) (738 # 10) 10)
  = Some (mkFile (Garbage "{") (86340 * second))
  <-> files (one_file 0 (Garbage "{") (86340 * second) false)
        !! (0%Z, cache_file (P := text_platform) (185 # 10) (738 # 10) 10)
      = Some (mkFile (Garbage "{") (86340 * second))
      /\ (86460 * second - strptime_date 0 <= 86400 * 1000000)%Z
      /\ (86460 * second - 86340 * second < 86400 * 1000000)%Z.
Proof.
  apply (sweep_keeps_exactly_valid (__init__ None) (86460 * second)
           (one_file 0 (Garbage "{") (86340 * second) false)
           (0%Z, cache_file (P := text_platform) (185 # 10) (738 # 10) 10)
           (mkFile (Garbage "{") (86340 * second))).
  apply consistent_one_file.
Defined.

Lemma sweep_leaves_no_expired_witness :
  expired_forecasts
    (get_cache_stats (__init__ None) (86460 * second)
       (snd (invalidate_old_forecasts (__init__ None) (86460 * second)
               (snd (set_forecast (P := text_platform) (__init__ None)
                       (185 # 10) (738 # 10) 10 sample_forecast
                       (86340 * second) empty_fs))))) = 0%nat.
Proof.
  apply sweep_leaves_no_expired.
  apply consistent_set_forecast, consistent_empty_fs.
Defined.

(** The forecast for Pune is stored a minute before midnight.  A minute
    after midnight it is a hundred and twenty seconds old and
    [get_forecast] finds it in yesterday's directory; after a sweep at that
    time it does not. *)
Lemma sweep_drops_yesterday_witness :
  fst (get_forecast (P := text_platform) (__init__ None) (185 # 10) (738 # 10) 10
         (86460 * second)
         (snd (set_forecast (P := text_platform) (__init__ None)
                 (185 # 10) (738 # 10) 10 sample_forecast (86340 * second) empty_fs)))
  = Ret (Some sample_forecast)
  /\ fst (get_forecast (P := text_platform) (__init__ None) (185 # 10) (738 # 10) 10
            (86460 * second)
            (snd (invalidate_old_forecasts (__init__ None) (86460 * second)
                    (snd (set_forecast (P := text_platform) (__init__ None)
                            (185 # 10) (738 # 10) 10 sample_forecast
                            (86340 * second) empty_fs)))))
     = Ret None.
Proof.
  split; [vm_compute; reflexivity|].
  apply (sweep_drops_yesterday (P := text_platform)).
  - apply consistent_set_forecast, consistent_empty_fs.
  - vm_compute. reflexivity.
  - vm_compute. reflexivity.
  - vm_compute. reflexivity.
Defined.

End MaintenanceProps.

(** * Documents that [from_dict] rejects *)

Module DataModelProps.
Import ForecastCache.
Local Open Scope Z_scope.

Section with_platform.
Context {P : Platform}.

Lemma kwargs_unknown_key required optional d k :
  k ∈ d.*1 -> k ∉ (required ++ optional) ->
  kwargs required optional (JDict d) = Raise DecodeError.
Proof.
  intros Hk Hn. unfold kwargs.
  destruct (forallb _ d.*1) eqn:E; [|done].
  rewrite forallb_forall in E. specialize (E k).
  rewrite <- list_elem_of_In in E. specialize (E Hk).
  by apply bool_decide_eq_true in E.
Qed.

(** The keyword arguments of the data class are checked: a document with a
    top-level key that is no field is not a forecast. *)
Lemma from_dict_unknown_key d k :
  k ∈ d.*1 -> k ∉ ["location"; "forecast_days"; "metadata"]%string ->
  exists e, from_dict (JDict d) = Raise e.
Proof.
  intros Hk Hn. unfold from_dict.
  rewrite (kwargs_unknown_key _ [] d k Hk) by (by rewrite app_nil_r).
  repeat match goal with
         | |- exists e, mbind _ ?m = Raise e =>
             destruct m; cbn [mbind outcome_bind]; [|by eexists]
         end.
  by eexists.
Qed.

(** X25. A cached document with a top-level key that [ForecastResult] does
    not have is treated like a corrupt file: found in today's directory and
    young enough, it makes [get_forecast] return [None] and is deleted (on
    a medium where [unlink] does not fail). *)
Theorem get_forecast_drops_unknown_key self lat lon (forecast_days : Z) now fs d m k :
  mkdir_succeeds (strftime_date now) fs ->
  files fs !! (strftime_date now, cache_file lat lon forecast_days)
    = Some (mkFile (JsonText (JDict d)) m) ->
  now - m < ttl_seconds self * 1000000 ->
  k ∈ d.*1 -> k ∉ ["location"; "forecast_days"; "metadata"]%string ->
  fst (get_forecast self lat lon forecast_days now fs) = Ret None
  /\ files (snd (get_forecast self lat lon forecast_days now fs))
     = delete (strftime_date now, cache_file lat lon forecast_days) (files fs).
Proof.
  intros Hdir Hfile Hage Hk Hn. unfold get_forecast, _get_cache_path.
  destruct (CacheProps.mkdir_succeeds_Ret _ _ Hdir) as [fs' Hmk]. rewrite Hmk.
  apply CacheProps.mkdir_files in Hmk as [Hf _].
  cbn [mbind outcome_bind mret outcome_ret].
  fold (cache_file lat lon forecast_days).
  assert (Hvalid : _is_cache_valid self
                     (strftime_date now, cache_file lat lon forecast_days) now fs' = true).
  { apply CacheProps._is_cache_valid_iff. rewrite Hf. by eexists. }
  rewrite Hvalid. unfold read_forecast, json_load. rewrite Hf, Hfile.
  cbn [mbind outcome_bind].
  destruct (from_dict_unknown_key d k Hk Hn) as [e ->]. simpl. by rewrite Hf.
Qed.

End with_platform.

Import Samples.
Local Open Scope string_scope.

Lemma get_forecast_drops_unknown_key_witness :
  fst (get_forecast (P := text_platform) (__init__ None) (185 # 10) (738 # 10) 10
         (5 * second)
         (one_file 0 (JsonText (JDict [("version", JInt 2)])) 0 false))
  = Ret None
  /\ files (snd (get_forecast (P := text_platform) (__init__ None) (185 # 10) (738 # 10)
                   10 (5 * second)
                   (one_file 0 (JsonText (JDict [("version", JInt 2)])) 0 false)))
     = delete (0%Z, cache_file (P := text_platform) (185 # 10) (738 # 10) 10)
         (files (one_file 0 (JsonText (JDict [("version", JInt 2)])) 0 false)).
Proof.
  apply (get_forecast_drops_unknown_key (P := text_platform) (__init__ None)
           (185 # 10) (738 # 10) 10 (5 * second)
           (one_file 0 (JsonText (JDict [("version", JInt 2)])) 0 false)
           [("version", JInt 2)] 0 "version").
  - right. reflexivity.
  - apply lookup_singleton_eq.
  - reflexivity.
  - left.
  - intros H. repeat (apply elem_of_cons in H as [H|H]; [discriminate|]).
    by apply elem_of_nil in H.
Defined.

End DataModelProps.

(** * How the operations of the cache compose *)

Module CacheComposition.
Import ForecastCache CacheMaintenance.
Local Open Scope Z_scope.

Section with_platform.
Context {P : Platform}.

(** X26. When today's directory is there or can be made,
    [invalidate_forecast] returns, and it returns [True] exactly if a file
    of the request in today's or in yesterday's directory was there and
    could be removed.  It removes these files and no other: a copy in an
    older directory stays, and so does a file whose [unlink] raises, which
    is passed over. *)
Theorem invalidate_forecast_removes_both refused self lat lon (forecast_days : Z)
    now fs :
  mkdir_succeeds (strftime_date now) fs ->
  exists b,
    fst (invalidate_forecast_on refused self lat lon forecast_days now fs) = Ret b
    /\ (b = true
        <-> (is_Some (files fs !! (strftime_date now, cache_file lat lon forecast_days))
             /\ (strftime_date now, cache_file lat lon forecast_days) ∉ refused)
            \/ (is_Some (files fs !! (strftime_date (now - day_us),
                                      cache_file lat lon forecast_days))
                /\ (strftime_date (now - day_us), cache_file lat lon forecast_days)
                   ∉ refused))
    /\ forall p,
         files (snd (invalidate_forecast_on refused self lat lon forecast_days now fs))
           !! p
         = if bool_decide
                ((p = (strftime_date now, cache_file lat lon forecast_days)
                  \/ p = (strftime_date (now - day_us), cache_file lat lon forecast_days))
                 /\ p ∉ refused)
           then None else files fs !! p.
Proof.
  intros Hdir. destruct (CacheProps.mkdir_succeeds_Ret _ _ Hdir) as [fs1 H1].
  destruct (MaintenanceProps.invalidate_forecast_on_spec refused self lat lon
              forecast_days now fs fs1 H1) as (b & fs' & -> & Hfiles & _ & _ & Hb).
  exists b. split; [done|]. split; [exact Hb|exact Hfiles].
Qed.

(** Without today's directory, on a medium that takes no new directory,
    [invalidate_forecast] raises and leaves everything as it is. *)
Lemma invalidate_forecast_raises refused self lat lon (forecast_days : Z) now fs :
  ~ mkdir_succeeds (strftime_date now) fs ->
  invalidate_forecast_on refused self lat lon forecast_days now fs
  = (Raise OSError, fs).
Proof.
  intros Hdir. unfold invalidate_forecast_on, _get_cache_path.
  by rewrite (MaintenanceProps.mkdir_fails _ _ Hdir).
Qed.

Lemma get_forecast_mkdir_succeeds self lat lon h now fs d :
  mkdir_succeeds d fs -> mkdir_succeeds d (snd (get_forecast self lat lon h now fs)).
Proof.
  unfold get_forecast, _get_cache_path.
  destruct (mkdir (strftime_date now) fs) as [fs1|e] eqn:H1;
    cbn [mbind outcome_bind mret outcome_ret]; [|done].
  intros Hd.
  assert (H : mkdir_succeeds d fs1).
  { destruct (CacheProps.mkdir_files _ _ _ H1) as [_ Hfull].
    destruct Hd as [Hd|Hd]; [left|right; congruence].
    apply (MaintenanceProps.mkdir_directories _ _ _ H1). by right. }
  repeat case_match; simpl; done.
Qed.

(** X27. A second look-up can succeed where the first one missed: a
    corrupt file in today's directory makes [get_forecast] return [None]
    without looking at yesterday's directory, and is deleted (on a medium
    where [unlink] does not fail); the same call made again finds the valid
    forecast in yesterday's directory. *)
Theorem corrupt_today_hides_yesterday_once self lat lon (forecast_days : Z)
    now fs bytes m j m' v :
  mkdir_succeeds (strftime_date now) fs ->
  files fs !! (strftime_date now, cache_file lat lon forecast_days)
    = Some (mkFile (Garbage bytes) m) ->
  now - m < ttl_seconds self * 1000000 ->
  files fs !! (strftime_date now - 1, cache_file lat lon forecast_days)
    = Some (mkFile (JsonText j) m') ->
  now - m' < ttl_seconds self * 1000000 ->
  from_dict j = Ret v ->
  fst (get_forecast self lat lon forecast_days now fs) = Ret None
  /\ fst (get_forecast self lat lon forecast_days now
            (snd (get_forecast self lat lon forecast_days now fs)))
     = Ret (Some v).
Proof.
  intros Hdir Htoday Hage Hyest Hage' Hv.
  destruct (CacheProps.get_forecast_corrupt_today self lat lon forecast_days now fs
              bytes m Hdir Htoday Hage) as [Hnone Hfiles].
  split; [done|].
  apply (CacheProps.get_forecast_yesterday self lat lon forecast_days now _ j m');
    try done.
  - by apply get_forecast_mkdir_succeeds.
  - unfold _is_cache_valid. by rewrite Hfiles, lookup_delete_eq.
  - rewrite Hfiles, lookup_delete_ne; [done|]. intros [= H]. lia.
Qed.

End with_platform.

Import Samples.
Local Open Scope string_scope.

(** The forecast for Pune was cached at midnight.  Five seconds later
    [invalidate_forecast] removes the file and returns [True]; on a medium
    that refuses to remove the file it returns [False] and the file
    stays. *)
Lemma invalidate_forecast_removes_both_witness :
  (fst (invalidate_forecast_on (P := text_platform) ∅ (__init__ None)
          (185 # 10) (738 # 10) 10 (5 * second)
          (one_file 0 (Garbage "") 0 false)) = Ret true
   /\ files (snd (invalidate_forecast_on (P := text_platform) ∅ (__init__ None)
                    (185 # 10) (738 # 10) 10 (5 * second)
                    (one_file 0 (Garbage "") 0 false)))
         !! (0%Z, cache_file (P := text_platform) (185 # 10) (738 # 10) 10)
      = None)
  /\ (fst (invalidate_forecast_on (P := text_platform)
             {[(0%Z, cache_file (P := text_platform) (185 # 10) (738 # 10) 10)]}
             (__init__ None) (185 # 10) (738 # 10) 10 (5 * second)
             (one_file 0 (Garbage "") 0 false)) = Ret false
      /\ files (snd (invalidate_forecast_on (P := text_platform)
                       {[(0%Z, cache_file (P := text_platform) (185 # 10) (738 # 10)
                                 10)]}
                       (__init__ None) (185 # 10) (738 # 10) 10 (5 * second)
                       (one_file 0 (Garbage "") 0 false)))
            !! (0%Z, cache_file (P := text_platform) (185 # 10) (738 # 10) 10)
         = Some (mkFile (Garbage "") 0)).
Proof.
  split.
  - destruct (invalidate_forecast_removes_both (P := text_platform) ∅ (__init__ None)
                (185 # 10) (738 # 10) 10 (5 * second)
                (one_file 0 (Garbage "") 0 false))
      as (b & Hret & Hb & Hfiles).
    { right. reflexivity. }
    split.
    + rewrite Hret. f_equal. apply Hb. left. split.
      * eexists. vm_compute. reflexivity.
      * apply not_elem_of_empty.
    + rewrite Hfiles.
      rewrite bool_decide_true; [done|]. split; [by left|apply not_elem_of_empty].
  - destruct (invalidate_forecast_removes_both (P := text_platform)
                {[(0%Z, cache_file (P := text_platform) (185 # 10) (738 # 10) 10)]}
                (__init__ None) (185 # 10) (738 # 10) 10 (5 * second)
                (one_file 0 (Garbage "") 0 false))
      as (b & Hret & Hb & Hfiles).
    { right. reflexivity. }
    split.
    + rewrite Hret. f_equal. destruct b; [|done]. exfalso.
      destruct (proj1 Hb eq_refl) as [[_ Hn]|[[f Hf] _]].
      * apply Hn. by apply elem_of_singleton.
      * vm_compute in Hf. discriminate.
    + rewrite Hfiles. rewrite bool_decide_false.
      * vm_compute. reflexivity.
      * intros [_ Hn]. apply Hn. by apply elem_of_singleton.
Defined.

(** Yesterday's forecast for Pune is a minute old; today's file is cut
    short. *)
Lemma corrupt_today_hides_yesterday_once_witness :
  fst (get_forecast (P := text_platform) (__init__ None) (185 # 10) (738 # 10) 10
         (86430 * second)
         (mkFilesystem {[0%Z; 1%Z]}
            (<[(1%Z, cache_file (P := text_platform) (185 # 10) (738 # 10) 10)
                 := mkFile (Garbage "{") (86410 * second)]>
               (files (snd (set_forecast (P := text_platform) (__init__ None)
                              (185 # 10) (738 # 10) 10 sample_forecast
                              (86370 * second) empty_fs))))
            false))
  = Ret None
  /\ fst (get_forecast (P := text_platform) (__init__ None) (185 # 10) (738 # 10) 10
            (86430 * second)
            (snd (get_forecast (P := text_platform) (__init__ None)
                    (185 # 10) (738 # 10) 10 (86430 * second)
                    (mkFilesystem {[0%Z; 1%Z]}
                       (<[(1%Z, cache_file (P := text_platform) (185 # 10) (738 # 10) 10)
                            := mkFile (Garbage "{") (86410 * second)]>
                          (files (snd (set_forecast (P := text_platform) (__init__ None)
                                         (185 # 10) (738 # 10) 10 sample_forecast
                                         (86370 * second) empty_fs))))
                       false))))
     = Ret (Some sample_forecast).
Proof.
  eapply (corrupt_today_hides_yesterday_once (P := text_platform) (__init__ None)
            (185 # 10) (738 # 10) 10 (86430 * second) _ "{" (86410 * second)
            _ (86370 * second) sample_forecast).
  - right. reflexivity.
  - vm_compute. reflexivity.
  - vm_compute. reflexivity.
  - vm_compute. reflexivity.
  - vm_compute. reflexivity.
  - vm_compute. reflexivity.
Defined.

End CacheComposition.

(** * Properties of the pre-computation *)

Module PrecomputeProps.
Import ForecastCache Precompute.
Local Open Scope Z_scope.

Section with_platform.
Context {P : Platform}.

Lemma precompute_step_counts self str d clock res fs i city :
  let r := precompute_step self str d clock (res, fs, i) city in
  (successful r.1.1 + failed r.1.1 + skipped r.1.1
   = S (successful res + failed res + skipped res))%nat
  /\ total_cities r.1.1 = total_cities res
  /\ (fun x => x.1.1) <$> details r.1.1
     = ((fun x => x.1.1) <$> details res) ++ [name city]
  /\ r.2 = S i.
Proof.
  unfold precompute_step.
  destruct (precompute_city_forecast self str city d (clock i) fs)
    as [[success message] fs1].
  destruct success; [destruct (contains _ message)|]; simpl;
    rewrite fmap_app; repeat split; lia.
Qed.

Lemma precompute_fold_counts self str d clock cs :
  forall res fs i,
    let r := foldl (precompute_step self str d clock) (res, fs, i) cs in
    (successful r.1.1 + failed r.1.1 + skipped r.1.1
     = successful res + failed res + skipped res + length cs)%nat
    /\ total_cities r.1.1 = total_cities res
    /\ (fun x => x.1.1) <$> details r.1.1
       = ((fun x => x.1.1) <$> details res) ++ (name <$> cs).
Proof.
  induction cs as [|c cs IH]; intros res fs i; cbn [foldl].
  - simpl. rewrite app_nil_r. repeat split; lia.
  - pose proof (precompute_step_counts self str d clock res fs i c) as H.
    destruct (precompute_step self str d clock (res, fs, i) c) as [[res1 fs1] i1].
    simpl in H. destruct H as (H1 & H2 & H3 & _).
    destruct (IH res1 fs1 i1) as (I1 & I2 & I3).
    rewrite I1, I2, I3, H1, H2, H3, <- app_assoc. simpl. repeat split; lia.
Qed.

(** X21. [precompute_all_forecasts] counts every city once, as successful,
    failed or skipped, and reports the cities in the order of the list. *)
Theorem precompute_counts_every_city self str (forecast_days : Z) clock fs :
  let results := fst (precompute_all_forecasts self str forecast_days clock fs) in
  (successful results + failed results + skipped results = total_cities results)%nat
  /\ total_cities results = length (cities self)
  /\ (fun x => x.1.1) <$> details results = name <$> cities self.
Proof.
  unfold precompute_all_forecasts.
  pose proof (precompute_fold_counts self str forecast_days clock (cities self)
                (mkResults (length (cities self)) 0 0 0 []) fs 0%nat) as H.
  destruct (foldl _ _ _) as [[res fs1] i]. simpl in *.
  destruct H as (H1 & H2 & H3). rewrite H1, H2, H3. done.
Qed.

Lemma get_forecast_disk_full self lat lon h now fs :
  disk_full (snd (get_forecast self lat lon h now fs)) = disk_full fs.
Proof.
  unfold get_forecast, _get_cache_path.
  destruct (mkdir (strftime_date now) fs) as [fs1|e] eqn:H1;
    cbn [mbind outcome_bind mret outcome_ret]; [|done].
  apply CacheProps.mkdir_files in H1 as [_ Hd].
  repeat case_match; simpl; done.
Qed.


(** X23. A city whose forecast was generated and stored (its fields hold
    values of JSON, and [to_dict] accepts it) is found cached by a second
    call on the same calendar day within the time to live: the second call
    reports it as already cached and does not run the pipeline. *)
Theorem second_precompute_is_cached {L : PlatformLaws P} self str city
    (forecast_days : Z) r1 r2 fs pipeline forecast :
  valid_payload forecast ->
  inference_pipeline self = Some pipeline ->
  pipeline (lat city) (lon city) forecast_days = Ret forecast ->
  disk_full fs = false ->
  fst (get_forecast (cache_manager self) (lat city) (lon city) forecast_days
         (now_get r1) fs) = Ret None ->
  now_get r2 - now_set r1 < ttl_seconds (cache_manager self) * 1000000 ->
  strftime_date (now_get r2) = strftime_date (now_set r1) ->
  fst (precompute_city_forecast self str city forecast_days r1 fs)
  = (true, (name city ++ ": Generated in " ++ elapsed r1 ++ "s")%string)
  /\ fst (precompute_city_forecast self str city forecast_days r2
            (snd (precompute_city_forecast self str city forecast_days r1 fs)))
     = (true, (name city ++ ": Already cached")%string).
Proof.
  intros Hvalid Hp Hrun Hfull Hget Hage Hday.
  destruct (CacheProps.valid_payload_to_dict forecast Hvalid) as (j & Hj & Hback).
  pose proof (get_forecast_disk_full (cache_manager self) (lat city) (lon city)
                forecast_days (now_get r1) fs) as Hfull1.
  unfold precompute_city_forecast.
  destruct (get_forecast _ _ _ _ (now_get r1) fs) as [o fs1].
  simpl in Hget, Hfull1. subst o. rewrite Hp, Hrun. rewrite Hfull in Hfull1.
  destruct (CacheProps.set_forecast_stores (cache_manager self) (lat city) (lon city)
              forecast_days forecast j (now_set r1) fs1 Hj Hfull1)
    as (Hset & Hfiles & Hroom).
  destruct (set_forecast _ _ _ _ forecast (now_set r1) fs1) as [o fs2].
  simpl in Hset, Hfiles, Hroom. subst o. split; [done|]. simpl.
  pose proof (CacheProps.get_forecast_today (cache_manager self) (lat city) (lon city)
                forecast_days (now_get r2) fs2 j (now_set r1) forecast) as Hhit.
  destruct (get_forecast _ _ _ _ (now_get r2) fs2) as [o fs3]. simpl in Hhit.
  rewrite Hhit; [done|by right| |done|done].
  rewrite Hfiles, Hday. apply lookup_insert_eq.
Qed.

End with_platform.

Import Samples.
Local Open Scope string_scope.


(** Pune is generated at midnight and found cached ten seconds later. *)
Lemma second_precompute_is_cached_witness :
  fst (precompute_city_forecast (P := text_platform)
         (__init__ (ForecastCache.__init__ None)
            (Some (fun _ _ _ => Ret sample_forecast)) [])
         (fun _ => "") (mkCity "Pune" (1852 # 100) (7386 # 100)) 10
         (mkReadings (10 * second) (10 * second) "0.0")
         (snd (precompute_city_forecast (P := text_platform)
                 (__init__ (ForecastCache.__init__ None)
                    (Some (fun _ _ _ => Ret sample_forecast)) [])
                 (fun _ => "") (mkCity "Pune" (1852 # 100) (7386 # 100)) 10
                 (mkReadings 0 (4 * second) "4.0") empty_fs)))
  = (true, "Pune: Already cached").
Proof.
  destruct (second_precompute_is_cached (P := text_platform)
              (__init__ (ForecastCache.__init__ None)
                 (Some (fun _ _ _ => Ret sample_forecast)) [])
              (fun _ => "") (mkCity "Pune" (1852 # 100) (7386 # 100)) 10
              (mkReadings 0 (4 * second) "4.0")
              (mkReadings (10 * second) (10 * second) "0.0")
              empty_fs (fun _ _ _ => Ret sample_forecast) sample_forecast)
    as [_ H2].
  - reflexivity.
  - reflexivity.
  - reflexivity.
  - reflexivity.
  - vm_compute. reflexivity.
  - vm_compute. reflexivity.
  - reflexivity.
  - exact H2.
Defined.

End PrecomputeProps.
